(** * WhatsApp-X number generator: template validation and constrained generation

    A shallow embedding of [src/utils/vcf.ts] ([validatePattern] and
    [generatePhoneNumbers]) together with the properties its specification
    states about it.

    Conventions of the embedding.
    - A JavaScript string is a [string]; one [ascii] stands for one code unit.
      The only code units the program inspects are the digits and the
      underscore.  Message texts are kept as the bytes of the source file.
    - JavaScript numbers that hold integers ([count], the attempt counter,
      digit frequencies) are [Z]; lengths and indices are [nat]; the density
      is a rational [Q].  Neither fractional counts nor NaN are modelled.
      The products [numUnknowns * 0.35] and [numUnknowns * 0.6] are taken
      exactly: the doubles for 0.35 and 0.6 lie below them by less than
      3e-17, so [Math.ceil] of the rounded product is the same integer.
    - [Set<string>] is a [gset string]; the set built from the array of
      offending characters, whose iteration order is observed, is a
      duplicate-free list in insertion order.
    - [Math.random] is a stream [rand : nat -> nat] read at an increasing
      position; [Math.floor(Math.random() * 10)] is [rand pos mod 10]. *)

From Stdlib Require Import ZArith QArith Qround String Ascii List Lia Permutation Sorted.
From Equations Require Import Equations.
From stdpp Require Import gmap strings list pretty sorting.

Open Scope string_scope.
Open Scope list_scope.

(** ** Types of [src/types.ts] *)

Record GeneratedContact := {
  id : string;
  number : string;
  name : string;
  isSaved : option bool
}.

Record GenerationConfig := {
  pattern : string;
  count : Z;
  contactNamePrefix : string
}.

Record GenerationOptions := {
  repetitionDensity : Q
}.

(** ** Pieces of the JavaScript runtime the program calls *)

Module JS.

(** The string made of the one code unit [c]. *)
Definition charString (c : ascii) : string := String c "".

(** [s.split('')], an array of one-character strings. *)
Definition split (s : string) : list string :=
  map charString (list_ascii_of_string s).

(** [arr.join(sep)]. *)
Definition join (sep : string) (arr : list string) : string :=
  String.concat sep arr.

(** [n.toString()] for a non-negative integer. *)
Definition toString (n : nat) : string := pretty n.

(** [parseInt(x)] where [x] is an array element: [None] is NaN, which is
    what an [undefined] element or a string not starting with a digit
    gives.  The program only applies it to one-digit strings. *)
Definition parseInt (x : option string) : option Z :=
  match x with
  | Some (String c "") =>
      if (("0" <=? c) && (c <=? "9"))%char
      then Some (Z.of_nat (nat_of_ascii c) - 48)%Z
      else None
  | _ => None
  end.

(** [a === b + delta] on numbers: false as soon as one side is NaN. *)
Definition eqPlus (a b : option Z) (delta : Z) : bool :=
  match a, b with
  | Some x, Some y => (x =? y + delta)%Z
  | _, _ => false
  end.

(** [s.includes(c)] for a one-character needle. *)
Definition includes (s : string) (c : ascii) : bool :=
  existsb (Ascii.eqb c) (list_ascii_of_string s).

(** [new Set(arr)] followed by [Array.from]: elements in order of first
    insertion, later duplicates dropped. *)
Definition setAdd (s : list ascii) (c : ascii) : list ascii :=
  if bool_decide (c ∈ s) then s else s ++ [c].

Definition arrayFromSet (arr : list ascii) : list ascii :=
  foldl setAdd [] arr.

(** [a.localeCompare(b)], taken as the order of the code units.  On
    strings that differ only at positions holding decimal digits, as the
    values of one generation call and the ten-digit numbers of a contact
    list do, the collation order is the order of the first differing digit.
    On strings that differ at a letter or another symbol collation may
    order otherwise; what is stated below about the order of a list is
    stated for strings of digits. *)
Definition localeCompare (a b : string) : comparison := String.compare a b.

(** [arr.sort(cmp)]: a stable sort; insertion from the right keeps equal
    elements in their original order. *)
Fixpoint insertSorted {A} (cmp : A → A → comparison) (x : A) (l : list A) : list A :=
  match l with
  | [] => [x]
  | y :: l' =>
      match cmp x y with
      | Gt => y :: insertSorted cmp x l'
      | _ => x :: l
      end
  end.

Fixpoint sort {A} (cmp : A → A → comparison) (l : list A) : list A :=
  match l with
  | [] => []
  | x :: l' => insertSorted cmp x (sort cmp l')
  end.

End JS.

(** ** Template validator *)

(** The four failures [validatePattern] reports.  The source returns the
    message; [message] gives the text of each return statement. *)
Inductive ValidationError :=
| EmptyInput
| InvalidLength (actual : nat)
| InvalidCharacters (offending : list ascii)
| NoVariableSlots.

Definition message (e : ValidationError) : string :=
  match e with
  | EmptyInput => "يرجى إدخال نمط الرقم."
  | InvalidLength actual =>
      "طول النمط غير صحيح (" +:+ JS.toString actual +:+
      "/10). يجب أن يتكون من 10 خانات بالضبط."
  | InvalidCharacters offending =>
      "النمط يحتوي على رموز غير مسموحة: [ " +:+
      JS.join " " (map JS.charString offending) +:+
      " ]. يرجى استخدام الأرقام والرمز (_) فقط."
  | NoVariableSlots =>
      "لا توجد خانات مجهولة للتوليد. يرجى استخدام الرمز (_) لتحديد الخانات المتغيرة."
  end.

(** The character class [0-9_] of the regular expression. *)
Definition inClass (c : ascii) : bool :=
  ((("0" <=? c) && (c <=? "9")) || (c =? "_"))%char.

(** [pattern.match(/[^0-9_]/g)]: every code unit outside the class, in
    order, or [None] (null) when there is none. *)
Definition matchInvalid (pattern : string) : option (list ascii) :=
  match List.filter (λ c, negb (inClass c)) (list_ascii_of_string pattern) with
  | [] => None
  | invalidChars => Some invalidChars
  end.

(** [validatePattern]; [None] as argument is an absent template, which
    [!pattern] catches like the empty string.  [options] is not read. *)
Definition validatePattern (pattern : option string)
    (options : option GenerationOptions) : option string :=
  match pattern with
  | None | Some "" => Some "يرجى إدخال نمط الرقم."
  | Some pattern =>
      if negb (String.length pattern =? 10)%nat then
        Some ("طول النمط غير صحيح (" +:+ JS.toString (String.length pattern) +:+
              "/10). يجب أن يتكون من 10 خانات بالضبط.")
      else
        match matchInvalid pattern with
        | Some invalidChars =>
            let uniqueInvalid :=
              JS.join " " (map JS.charString (JS.arrayFromSet invalidChars)) in
            Some ("النمط يحتوي على رموز غير مسموحة: [ " +:+ uniqueInvalid +:+
                  " ]. يرجى استخدام الأرقام والرمز (_) فقط.")
        | None =>
            if negb (JS.includes pattern "_") then
              Some "لا توجد خانات مجهولة للتوليد. يرجى استخدام الرمز (_) لتحديد الخانات المتغيرة."
            else None
        end
  end.

(** ** Constrained generator *)

(** The three settings chosen from the density. *)
Record Constraints := {
  maxDigitFreq : Z;
  allowAdjacentDuplicates : bool;
  allowSequences : bool
}.

(** The variables of the [while] loop that change from one iteration to the
    next; [rngPos] counts the calls of [Math.random] made so far. *)
Record LoopState := {
  results : list GeneratedContact;
  generatedSet : gset string;
  attempts : Z;
  rngPos : nat
}.

(** [for (let i = 0; i < pattern.length; i++) if (pattern[i] === '_')
    missingIndices.push(i)], started at index [i]. *)
Fixpoint collectMissing (chars : list ascii) (i : nat) : list nat :=
  match chars with
  | [] => []
  | c :: rest =>
      if (c =? "_")%char then i :: collectMissing rest (S i)
      else collectMissing rest (S i)
  end.

(** [missingIndices.forEach((patternIndex, generatedIndex) =>
    finalNumberArr[patternIndex] = candidateDigits[generatedIndex])], from
    [generatedIndex] on.  An [undefined] element is kept as the empty string
    [join] prints for it; every [patternIndex] is inside the array. *)
Fixpoint fillSlots (generatedIndex : nat) (indices : list nat)
    (candidateDigits finalNumberArr : list string) : list string :=
  match indices with
  | [] => finalNumberArr
  | patternIndex :: rest =>
      fillSlots (S generatedIndex) rest candidateDigits
        (<[patternIndex := default "" (candidateDigits !! generatedIndex)]> finalNumberArr)
  end.

Section Call.

(** The random source and the three arguments of one call. *)
Variable rand : nat → nat.
Variable config : GenerationConfig.
Variable options : option GenerationOptions.
Variable excludeSet : option (gset string).

(** [new Set<string>(excludeSet || [])] and its size. *)
Definition generatedSet0 : gset string := default ∅ excludeSet.
Definition initialSize : nat := size generatedSet0.

Definition missingIndices : list nat :=
  collectMissing (list_ascii_of_string (pattern config)) 0.

Definition numUnknowns : nat := length missingIndices.

Definition maxPossibilities : Z := 10 ^ Z.of_nat numUnknowns.

(** [excludeSet?.size || 0] *)
Definition remainingPossibilities : Z :=
  maxPossibilities - Z.of_nat (from_option size 0%nat excludeSet).

Definition targetCount : Z :=
  Z.min (count config) (Z.max 0 remainingPossibilities).

(** [options?.repetitionDensity ?? 0.3] *)
Definition density : Q := from_option repetitionDensity 0.3%Q options.

Definition constraints : Constraints :=
  if Qle_bool density 0.4 then
    {| maxDigitFreq := Z.max 2 (Qceiling (inject_Z (Z.of_nat numUnknowns) * 0.35));
       allowAdjacentDuplicates := false;
       allowSequences := false |}
  else if Qle_bool density 0.7 then
    {| maxDigitFreq := Z.max 2 (Qceiling (inject_Z (Z.of_nat numUnknowns) * 0.6));
       allowAdjacentDuplicates := negb (Qle_bool density 0.55);
       allowSequences := negb (Qle_bool density 0.55) |}
  else
    {| maxDigitFreq := Z.of_nat numUnknowns;
       allowAdjacentDuplicates := true;
       allowSequences := true |}.

Definition maxAttempts : Z := targetCount * 200 + 5000.

(** The three local checks on a drawn digit [d] for slot [k]; [true] when
    one of them says [continue]. *)
Definition frequencyExceeded (digitCounts : gmap string Z) (d : string) : bool :=
  (maxDigitFreq constraints <=? default 0 (digitCounts !! d))%Z.

Definition repeatsPrevious (candidateDigits : list string) (k : nat) (d : string) : bool :=
  negb (allowAdjacentDuplicates constraints) && (0 <? k)%nat &&
  bool_decide (Some d = candidateDigits !! (k - 1)%nat).

Definition completesRun (candidateDigits : list string) (k : nat) (d : string) : bool :=
  negb (allowSequences constraints) && (1 <? k)%nat &&
  (let d1 := JS.parseInt (candidateDigits !! (k - 2)%nat) in
   let d2 := JS.parseInt (candidateDigits !! (k - 1)%nat) in
   let dCurrent := JS.parseInt (Some d) in
   (JS.eqPlus d2 d1 1 && JS.eqPlus dCurrent d2 1) ||
   (JS.eqPlus d2 d1 (-1) && JS.eqPlus dCurrent d2 (-1))).

(** [for (let retry = 0; retry < 20; retry++)] with [retriesLeft] rounds
    to go: the accepted digit, if any, and the position of the random
    source afterwards. *)
Fixpoint retryLoop (retriesLeft : nat) (k : nat) (candidateDigits : list string)
    (digitCounts : gmap string Z) (pos : nat) : option string * nat :=
  match retriesLeft with
  | O => (None, pos)
  | S retriesLeft' =>
      let d := JS.toString (rand pos mod 10) in
      if frequencyExceeded digitCounts d then
        retryLoop retriesLeft' k candidateDigits digitCounts (S pos)
      else if repeatsPrevious candidateDigits k d then
        retryLoop retriesLeft' k candidateDigits digitCounts (S pos)
      else if completesRun candidateDigits k d then
        retryLoop retriesLeft' k candidateDigits digitCounts (S pos)
      else (Some d, S pos)
  end.

(** [for (let k = 0; k < numUnknowns; k++)] with [slotsLeft = numUnknowns - k]
    slots to go: [None] when [isCandidateStructureValid] ends up false. *)
Fixpoint slotLoop (slotsLeft : nat) (k : nat) (candidateDigits : list string)
    (digitCounts : gmap string Z) (pos : nat) : option (list string) * nat :=
  match slotsLeft with
  | O => (Some candidateDigits, pos)
  | S slotsLeft' =>
      match retryLoop 20 k candidateDigits digitCounts pos with
      | (Some d, pos') =>
          slotLoop slotsLeft' (S k) (candidateDigits ++ [d])
            (<[d := (default 0 (digitCounts !! d) + 1)%Z]> digitCounts) pos'
      | (None, pos') => (None, pos')
      end
  end.

(** The full number string built from the accepted digits. *)
Definition buildNumber (candidateDigits : list string) : string :=
  JS.join "" (fillSlots 0 missingIndices candidateDigits (JS.split (pattern config))).

(** One iteration of the [while] loop. *)
Definition loopBody (st : LoopState) : LoopState :=
  let attempts' := (attempts st + 1)%Z in
  match slotLoop numUnknowns 0 [] ∅ (rngPos st) with
  | (None, pos') =>
      {| results := results st; generatedSet := generatedSet st;
         attempts := attempts'; rngPos := pos' |}
  | (Some candidateDigits, pos') =>
      let numberStr := buildNumber candidateDigits in
      if bool_decide (numberStr ∈ generatedSet st) then
        {| results := results st; generatedSet := generatedSet st;
           attempts := attempts'; rngPos := pos' |}
      else
        {| results := results st ++
             [ {| id := JS.toString (initialSize + length (results st) + 1);
                  number := numberStr;
                  name := contactNamePrefix config;
                  isSaved := Some false |} ];
           generatedSet := {[ numberStr ]} ∪ generatedSet st;
           attempts := attempts'; rngPos := pos' |}
  end.

(** [results.length < targetCount && attempts < maxAttempts] *)
Definition loopCond (st : LoopState) : bool :=
  (Z.of_nat (length (results st)) <? targetCount)%Z && (attempts st <? maxAttempts)%Z.

Definition loopCondDec (st : LoopState) : {loopCond st = true} + {loopCond st = false}.
Proof. destruct (loopCond st); [left | right]; reflexivity. Defined.

(** The [while] loop.  Each iteration brings [attempts] one closer to
    [maxAttempts], which is the measure of the recursion. *)
Equations? whileLoop (st : LoopState) : LoopState
    by wf (Z.to_nat (maxAttempts - attempts st)) lt :=
  whileLoop st with loopCondDec st := {
    | left _ => whileLoop (loopBody st)
    | right _ => st }.
Proof.
  unfold loopCond in e. apply andb_true_iff in e as [_ e].
  apply Z.ltb_lt in e.
  assert (attempts (loopBody st) = (attempts st + 1)%Z) as ->.
  { unfold loopBody. destruct (slotLoop _ _ _ _ _) as [[c|] p]; [|reflexivity].
    destruct (bool_decide _); reflexivity. }
  lia.
Qed.

Definition initialState : LoopState :=
  {| results := []; generatedSet := generatedSet0; attempts := 0; rngPos := 0 |}.

(** [generatePhoneNumbers(config, options, excludeSet)] *)
Definition generatePhoneNumbers : list GeneratedContact :=
  JS.sort (λ a b, JS.localeCompare (number a) (number b))
    (results (whileLoop initialState)).

End Call.


(** ** Vocabulary of the specification *)

(** The symbols a template may hold: the ten digits and the wildcard. *)
Definition allowedChars : list ascii := list_ascii_of_string "0123456789_".

(** [cs] lists the characters of [p] outside the allowed ones, each once,
    in the order in which they first appear in [p]. *)
Definition DistinctOffending (p cs : list ascii) : Prop :=
  NoDup cs ∧
  (∀ c, c ∈ cs ↔ c ∈ p ∧ c ∉ allowedChars) ∧
  (∀ i j x y, cs !! i = Some x → cs !! j = Some y → (i < j)%nat →
     ∃ a, p !! a = Some x ∧ y ∉ take (S a) p).

(** [listing] is the characters [cs] written one after the other with one
    space between neighbours, and nothing else. *)
Definition SpacedListing (cs listing : list ascii) : Prop :=
  length listing = (2 * length cs - 1)%nat ∧
  (∀ i c, cs !! i = Some c → listing !! (2 * i)%nat = Some c) ∧
  (∀ i, (S i < length cs)%nat → listing !! (2 * i + 1)%nat = Some " "%char).

(** What the insertion-ordered set [acc] holds once the characters of the
    prefix [seen] that satisfy [f] went in. *)
Definition seenInv (f : ascii → bool) (seen acc : list ascii) : Prop :=
  NoDup acc ∧
  (∀ c, c ∈ acc ↔ c ∈ seen ∧ f c = true) ∧
  (∀ i j x y, acc !! i = Some x → acc !! j = Some y → (i < j)%nat →
     ∃ a, seen !! a = Some x ∧ y ∉ take (S a) seen).

(** ** Invariants of the [while] loop *)

(** The working set is the exclusion set together with the values accepted
    so far; these are pairwise distinct and none is in the exclusion set. *)
Definition uniqueInv (excludeSet : option (gset string)) (st : LoopState) : Prop :=
  generatedSet st = list_to_set (map number (results st)) ∪ generatedSet0 excludeSet ∧
  NoDup (map number (results st)) ∧
  Forall (λ c, number c ∉ generatedSet0 excludeSet) (results st).

(** The entity accepted as the [i]-th (from 0) is labelled
    [initialSize + i + 1]. *)
Definition labelInv (excludeSet : option (gset string)) (st : LoopState) : Prop :=
  map id (results st) =
  map (λ i, JS.toString (initialSize excludeSet + i + 1)) (seq 0 (length (results st))).

(** No more entities than the target, and none when the target is not
    positive. *)
Definition sizeInv (config : GenerationConfig) (excludeSet : option (gset string))
    (st : LoopState) : Prop :=
  (Z.of_nat (length (results st)) ≤ Z.max 0 (targetCount config excludeSet))%Z.

(** The attempt counter counts the iterations. *)
Definition stateAfter (rand : nat → nat) (config : GenerationConfig)
    (options : option GenerationOptions) (excludeSet : option (gset string))
    (n : nat) : LoopState :=
  Nat.iter n (loopBody rand config options excludeSet) (initialState excludeSet).

(** ** Candidates *)

(** The ten digit characters; a digit string is one of them alone. *)
Definition digitChars : list ascii := list_ascii_of_string "0123456789".

Definition isDigitString (d : string) : Prop :=
  ∃ c, c ∈ digitChars ∧ d = JS.charString c.

(** Three consecutive entries of [digits] from position [j] on count up or
    down by one, as the run rule reads them. *)
Definition runAt (digits : list string) (j : nat) : bool :=
  let d1 := JS.parseInt (digits !! j) in
  let d2 := JS.parseInt (digits !! S j) in
  let d3 := JS.parseInt (digits !! S (S j)) in
  (JS.eqPlus d2 d1 1 && JS.eqPlus d3 d2 1) ||
  (JS.eqPlus d2 d1 (-1) && JS.eqPlus d3 d2 (-1)).

(** What holds of the digits placed so far and of their counters while the
    slots of one candidate are filled under the settings [cs]. *)
Definition candInv (cs : Constraints) (candidateDigits : list string)
    (digitCounts : gmap string Z) : Prop :=
  Forall isDigitString candidateDigits ∧
  (∀ d, default 0%Z (digitCounts !! d) = Z.of_nat (count_occ string_dec candidateDigits d)) ∧
  (∀ d, (Z.of_nat (count_occ string_dec candidateDigits d) ≤ Z.max 0 (maxDigitFreq cs))%Z) ∧
  (allowAdjacentDuplicates cs = false →
     ∀ j a b, candidateDigits !! j = Some a → candidateDigits !! S j = Some b → a ≠ b) ∧
  (allowSequences cs = false → ∀ j, runAt candidateDigits j = false).

(** The characters a value holds at the wildcard positions of the template,
    in wildcard order. *)
Definition wildcardDigits (config : GenerationConfig) (value : string) : list ascii :=
  omap (λ i, list_ascii_of_string value !! i) (missingIndices config).

(** The value of the entity [c] was assembled from a candidate whose slots
    all got filled. *)
Definition fromCandidate (rand : nat → nat) (config : GenerationConfig)
    (options : option GenerationOptions) (c : GeneratedContact) : Prop :=
  ∃ candidateDigits pos pos',
    slotLoop rand config options (numUnknowns config) 0 [] ∅ pos = (Some candidateDigits, pos') ∧
    number c = buildNumber config candidateDigits.

(** The number a digit character stands for, and three characters that
    count up or down by one. *)
Definition digitValue (c : ascii) : Z := (Z.of_nat (nat_of_ascii c) - 48)%Z.

Definition isRun (a b c : ascii) : Prop :=
  (digitValue b = digitValue a + 1 ∧ digitValue c = digitValue b + 1)%Z ∨
  (digitValue b = digitValue a - 1 ∧ digitValue c = digitValue b - 1)%Z.

(** ** A sample random source *)

(** A fixed run of draws used where a property is shown on a concrete
    call; draws past its end are 0. *)
Definition sampleDraws : list nat :=
  [3; 1; 4; 1; 5; 9; 2; 6; 5; 3; 5; 8; 9; 7; 9; 3; 2; 3; 8; 4; 6; 2; 6; 4; 3; 3; 8; 3; 2; 7;
   9; 5; 0; 2; 8; 8; 4; 1; 9; 7; 1; 6; 9; 3; 9; 9; 3; 7; 5; 1; 0; 5; 8; 2; 0; 9; 7; 4; 9; 4;
   4; 5; 9; 2; 3; 0; 7; 8; 1; 6; 4; 0; 6; 2; 8; 6; 2; 0; 8; 9; 9; 8; 6; 2; 8; 0; 3; 4; 8; 2;
   5; 3; 4; 2; 1; 1; 7; 0; 6; 7; 9; 8; 2; 1; 4; 8; 0; 8; 6; 5; 1].

Definition sampleSource (i : nat) : nat := nth i sampleDraws 0%nat.

(** ** Orders on values *)

(** Lexicographic order on sequences of code units. *)
Inductive lexLe : list ascii → list ascii → Prop :=
| lexLe_nil l : lexLe [] l
| lexLe_lt a b l1 l2 : (N_of_ascii a < N_of_ascii b)%N → lexLe (a :: l1) (b :: l2)
| lexLe_eq a l1 l2 : lexLe l1 l2 → lexLe (a :: l1) (a :: l2).

(** The number a string of decimal digits denotes. *)
Definition decimalValue (s : string) : Z :=
  fold_left (λ acc c, acc * 10 + digitValue c)%Z (list_ascii_of_string s) 0%Z.

(** ** The value space of a template *)

(** [v] has the length of the template [p], a digit wherever [p] has the
    wildcard and the character of [p] elsewhere. *)
Fixpoint matchesChars (p v : list ascii) : bool :=
  match p, v with
  | [], [] => true
  | pc :: p', vc :: v' =>
      (if (pc =? "_")%char then bool_decide (vc ∈ digitChars) else (vc =? pc)%char)
      && matchesChars p' v'
  | _, _ => false
  end.

Definition inValueSpace (config : GenerationConfig) (value : string) : bool :=
  matchesChars (list_ascii_of_string (pattern config)) (list_ascii_of_string value).

(** Two neighbouring characters of [value] are equal; three neighbouring
    characters of [value] count up or down by one. *)
Definition hasEqualNeighbours (value : string) : Prop :=
  ∃ i ch, list_ascii_of_string value !! i = Some ch ∧
          list_ascii_of_string value !! S i = Some ch.

Definition hasRun (value : string) : Prop :=
  ∃ i a b d, list_ascii_of_string value !! i = Some a ∧
             list_ascii_of_string value !! S i = Some b ∧
             list_ascii_of_string value !! S (S i) = Some d ∧
             isRun a b d.

(** Ten strings of two characters: none is in the value space of a
    template of 10 characters. *)
Definition foreignValues : list string :=
  ["x0"; "x1"; "x2"; "x3"; "x4"; "x5"; "x6"; "x7"; "x8"; "x9"].

(** ** The card formatter of [src/utils/vcf.ts] *)

(** The line feed the template strings end with. *)
Definition newline : string := String "010"%char "".

(** [generateVCF]: the six appends of the [forEach] body, in order. *)
Definition generateVCF (contacts : list GeneratedContact) : string :=
  foldl (λ vcfContent contact,
      ((((((vcfContent +:+ ("BEGIN:VCARD" +:+ newline))
            +:+ ("VERSION:3.0" +:+ newline))
           +:+ ("N:;" +:+ name contact +:+ ";;;" +:+ newline))
          +:+ ("FN:" +:+ name contact +:+ newline))
         +:+ ("TEL;TYPE=CELL:" +:+ number contact +:+ newline))
        +:+ ("END:VCARD" +:+ newline)))
    "" contacts.

(** [s.split(sep)] for a one-character separator: the pieces between the
    separators, one more than there are separators. *)
Fixpoint splitOn (sep : ascii) (s : string) : list string :=
  match s with
  | "" => [""]
  | String c s' =>
      if (c =? sep)%char then "" :: splitOn sep s'
      else match splitOn sep s' with
           | piece :: rest => String c piece :: rest
           | [] => [String c ""]
           end
  end.

(** The six lines of the card of one contact. *)
Definition cardLines (contact : GeneratedContact) : list string :=
  [ "BEGIN:VCARD"; "VERSION:3.0"; "N:;" +:+ name contact +:+ ";;;";
    "FN:" +:+ name contact; "TEL;TYPE=CELL:" +:+ number contact; "END:VCARD" ].

(** [s] holds no line feed. *)
Definition singleLine (s : string) : Prop :=
  "010"%char ∉ list_ascii_of_string s.

(** Reading the phone lines back: [stripPrefix prefix s] is what follows
    [prefix] in [s], if [s] starts with it; [telNumbers] collects what
    follows the phone tag on the lines of a file. *)
Fixpoint stripPrefix (prefix s : string) : option string :=
  match prefix, s with
  | "", _ => Some s
  | String p prefix', String c s' =>
      if (p =? c)%char then stripPrefix prefix' s' else None
  | String _ _, "" => None
  end.

Definition telNumbers (vcfContent : string) : list string :=
  omap (stripPrefix "TEL;TYPE=CELL:") (splitOn "010" vcfContent).

(** ** The form handlers of the application *)

(** [arr[index] = x] on an array: inside the array the element is replaced;
    past its end the array grows, and the holes left before [index] print
    as the empty string like [undefined]. *)
Definition arraySet (arr : list string) (index : nat) (x : string) : list string :=
  if (index <? length arr)%nat then <[index := x]> arr
  else arr ++ replicate (index - length arr) "" ++ [x].

(** [value.slice(-1)]: the last code unit, as a string. *)
Definition sliceLast (value : string) : string :=
  match last (list_ascii_of_string value) with
  | Some c => JS.charString c
  | None => ""
  end.

(** [/^[0-9_]$/.test(char)] *)
Definition isSlotChar (char : string) : bool :=
  match char with
  | String c "" => inClass c
  | _ => false
  end.

(** [while (newPatternArray.length < 10) newPatternArray.push('_')], with
    [missing] rounds to go. *)
Fixpoint pushUnderscores (missing : nat) (newPatternArray : list string) : list string :=
  match missing with
  | O => newPatternArray
  | S missing' => pushUnderscores missing' (newPatternArray ++ ["_"])
  end.

(** What a handler of the slot grid does: the pattern it sets, the slot
    whose [focus()] it calls (on the disabled slots 0 and 1 the browser
    ignores the call), and whether it stops the default action of the
    key. *)
Record SlotEffect := {
  patternSet : option string;
  focused : option nat;
  defaultPrevented : bool
}.

Definition noEffect : SlotEffect :=
  {| patternSet := None; focused := None; defaultPrevented := false |}.

(** [handlePatternSlotChange(index, value)] on the current [pattern]; the
    grid calls it with the indices 0 to 9. *)
Definition handlePatternSlotChange (pattern : string) (index : nat) (value : string)
    : SlotEffect :=
  if (index <? 2)%nat then noEffect
  else
    let char := if (1 <? String.length value)%nat then sliceLast value else value in
    let char := if bool_decide (char = "") then "_" else char in
    if negb (isSlotChar char) then noEffect
    else
      let newPatternArray := JS.split pattern in
      let newPatternArray :=
        pushUnderscores (10 - length newPatternArray) newPatternArray in
      let newPatternArray := arraySet newPatternArray index char in
      {| patternSet := Some (JS.join "" newPatternArray);
         focused := if (index <? 9)%nat && isSlotChar char then Some (index + 1)%nat else None;
         defaultPrevented := false |}.

(** The keys [handleKeyDown] tells apart. *)
Inductive Key := Backspace | ArrowLeft | ArrowRight | OtherKey.

(** [handleKeyDown(index, e)] on the current [pattern]. *)
Definition handleKeyDown (pattern : string) (index : nat) (key : Key) : SlotEffect :=
  match key with
  | Backspace =>
      if (index <? 2)%nat then noEffect
      else if bool_decide (list_ascii_of_string pattern !! index = Some "_"%char)
              && (2 <? index)%nat then
        {| patternSet := Some (JS.join "" (arraySet (JS.split pattern) (index - 1) "_"));
           focused := Some (index - 1)%nat;
           defaultPrevented := true |}
      else if negb (bool_decide (list_ascii_of_string pattern !! index = Some "_"%char)) then
        {| patternSet := Some (JS.join "" (arraySet (JS.split pattern) index "_"));
           focused := None;
           defaultPrevented := true |}
      else noEffect
  | ArrowLeft =>
      if (0 <? index)%nat && (2 <=? index - 1)%nat then
        {| patternSet := None; focused := Some (index - 1)%nat; defaultPrevented := false |}
      else noEffect
  | ArrowRight =>
      if (index <? 9)%nat then
        {| patternSet := None; focused := Some (index + 1)%nat; defaultPrevented := false |}
      else noEffect
  | OtherKey => noEffect
  end.

(** The pattern after a handler ran. *)
Definition patternAfter (pattern : string) (effect : SlotEffect) : string :=
  default pattern (patternSet effect).

(** One event of the slot grid, on a slot from 0 to 9. *)
Inductive SlotEvent :=
| Change (index : nat) (value : string)
| KeyDown (index : nat) (key : Key).

Definition slotOf (event : SlotEvent) : nat :=
  match event with Change index _ | KeyDown index _ => index end.

Definition afterEvent (pattern : string) (event : SlotEvent) : string :=
  match event with
  | Change index value => patternAfter pattern (handlePatternSlotChange pattern index value)
  | KeyDown index key => patternAfter pattern (handleKeyDown pattern index key)
  end.

(** The count field holds the empty string ([None]) or a number.
    [handleCountChange] reads the builtin [parseInt], whose result on the
    typed text is [parsed] ([None] for NaN). *)
Definition handleCountChange (parsed : option Z) (count : option Z) (value : string)
    : option Z :=
  if bool_decide (value = "") then None
  else
    match parsed with
    | Some val =>
        if (10000 <? val)%Z then Some 10000%Z
        else if (val <? 0)%Z then Some 0%Z
        else Some val
    | None => count
    end.

(** White space as [trim] sees it, among the code units below 256.
    [trim] also strips the white space above 255 (U+1680, U+2000 to U+200A,
    U+2028, U+2029, U+202F, U+205F, U+3000, U+FEFF), which the strings of
    this development do not hold. *)
Definition isWhiteSpace (c : ascii) : bool :=
  bool_decide (nat_of_ascii c ∈ [9; 10; 11; 12; 13; 32; 160]%nat).

Fixpoint dropWhile {A} (f : A → bool) (l : list A) : list A :=
  match l with
  | [] => []
  | x :: l' => if f x then dropWhile f l' else l
  end.

(** [s.trim()] *)
Definition trim (s : string) : string :=
  string_of_list_ascii
    (rev (dropWhile isWhiteSpace (rev (dropWhile isWhiteSpace (list_ascii_of_string s))))).

(** The fields of the form that [validateInputs] and [startGeneration]
    read. *)
Record Form := {
  formPattern : string;
  formCount : option Z;
  formPrefix : string;
  showAdvanced : bool;
  formDensity : Q
}.

(** [showAdvanced ? { repetitionDensity } : undefined] *)
Definition formOptions (form : Form) : option GenerationOptions :=
  if showAdvanced form then Some {| repetitionDensity := formDensity form |} else None.

(** [Number(count)] *)
Definition countNumber (form : Form) : Z := default 0%Z (formCount form).

(** [validateInputs]: [None] when it returns true, else the error it
    sets. *)
Definition validateInputs (form : Form) : option string :=
  match validatePattern (Some (formPattern form)) (formOptions form) with
  | Some patternError => Some patternError
  | None =>
      if ((countNumber form <=? 0) || (10000 <? countNumber form))%Z then
        Some "العدد يجب أن يكون بين 1 و 10000."
      else if bool_decide (trim (formPrefix form) = "") then
        Some "يرجى إدخال اسم لتمييز جهات الاتصال."
      else None
  end.

(** [s.padStart(targetLength, fill)] for a one-character filler. *)
Definition padStart (targetLength : nat) (fill : ascii) (s : string) : string :=
  string_of_list_ascii (replicate (targetLength - String.length s) fill) +:+ s.

(** [(index + 1).toString().padStart(4, '0')] *)
Definition serial (index : nat) : string :=
  padStart 4 "0" (JS.toString (index + 1)).

(** [contacts.map((c, index) => ({ ...c, id: ..., name: ... }))], from
    [index] on. *)
Fixpoint reIndexFrom (index : nat) (contactNamePrefix : string)
    (contacts : list GeneratedContact) : list GeneratedContact :=
  match contacts with
  | [] => []
  | c :: rest =>
      {| id := serial index;
         number := number c;
         name := serial index +:+ " " +:+ contactNamePrefix;
         isSaved := isSaved c |}
      :: reIndexFrom (S index) contactNamePrefix rest
  end.

Definition reIndex (contactNamePrefix : string) (contacts : list GeneratedContact)
    : list GeneratedContact :=
  reIndexFrom 0 contactNamePrefix contacts.

(** [{ ...c, isSaved: flag }] *)
Definition withSaved (flag : bool) (c : GeneratedContact) : GeneratedContact :=
  {| id := id c; number := number c; name := name c; isSaved := Some flag |}.

Inductive Mode := Preview | Save.

(** What one run of [startGeneration] leaves behind: the contact list, the
    error or success message it sets, and the file it downloads (content
    and name). *)
Record Outcome := {
  contactsAfter : list GeneratedContact;
  errorSet : option string;
  successSet : option string;
  downloaded : option (string * string)
}.

(** [startGeneration(mode)] on the contact list [generatedContacts]; [now]
    is what [new Date().getTime()] gives. *)
Definition startGeneration (rand : nat → nat) (now : nat) (form : Form) (mode : Mode)
    (generatedContacts : list GeneratedContact) : Outcome :=
  match validateInputs form with
  | Some error =>
      {| contactsAfter := generatedContacts; errorSet := Some error;
         successSet := None; downloaded := None |}
  | None =>
      let options := formOptions form in
      let config := {| pattern := formPattern form; count := countNumber form;
                       contactNamePrefix := formPrefix form |} in
      let existingNumbersSet : gset string := list_to_set (map number generatedContacts) in
      let newContacts := generatePhoneNumbers rand config options (Some existingNumbersSet) in
      if (length newContacts =? 0)%nat then
        {| contactsAfter := generatedContacts;
           errorSet := Some "لم يتم توليد أرقام جديدة. قد تكون جميع الاحتمالات لهذا النمط مستخدمة بالفعل في القائمة الحالية.";
           successSet := None; downloaded := None |}
      else
        let combinedContacts :=
          JS.sort (λ a b, JS.localeCompare (number a) (number b))
            (generatedContacts ++ newContacts) in
        let reIndexedContacts := reIndex (formPrefix form) combinedContacts in
        match mode with
        | Preview =>
            {| contactsAfter := reIndexedContacts; errorSet := None;
               successSet := Some ("تم إضافة " +:+ JS.toString (length newContacts) +:+
                                   " رقم جديد إلى القائمة.");
               downloaded := None |}
        | Save =>
            let vcfData := generateVCF newContacts in
            let fileName := "contacts_" +:+ formPrefix form +:+ "_part_" +:+
                            JS.toString now +:+ ".vcf" in
            let finalContacts :=
              map (λ c, if existsb (λ nc, bool_decide (number nc = number c)) newContacts
                        then withSaved true c else c)
                reIndexedContacts in
            {| contactsAfter := finalContacts; errorSet := None;
               successSet := Some ("تم توليد وحفظ " +:+ JS.toString (length newContacts) +:+
                                   " رقم جديد.");
               downloaded := Some (vcfData, fileName) |}
        end
  end.

(** [saveCurrentList]: the file of the whole list, and every contact marked
    saved; nothing happens on an empty list. *)
Definition saveCurrentList (now : nat) (contactNamePrefix : string)
    (generatedContacts : list GeneratedContact) : Outcome :=
  if (length generatedContacts =? 0)%nat then
    {| contactsAfter := generatedContacts; errorSet := None;
       successSet := None; downloaded := None |}
  else
    {| contactsAfter := map (withSaved true) generatedContacts;
       errorSet := None;
       successSet := Some ("تم حفظ ملف جهات الاتصال (" +:+
                           JS.toString (length generatedContacts) +:+ " رقم).");
       downloaded := Some (generateVCF generatedContacts,
                           "contacts_" +:+ contactNamePrefix +:+ "_full_" +:+
                           JS.toString now +:+ ".vcf") |}.

(** [handleResetSavedStatus], [confirmed] being the answer to the dialog. *)
Definition handleResetSavedStatus (confirmed : bool)
    (generatedContacts : list GeneratedContact) : list GeneratedContact :=
  if (length generatedContacts =? 0)%nat then generatedContacts
  else if confirmed then map (withSaved false) generatedContacts
  else generatedContacts.

(** [c.isSaved] read as a condition: an absent flag counts as false. *)
Definition savedFlag (c : GeneratedContact) : bool := default false (isSaved c).

(** [handleDeleteUnsaved], [confirmed] being the answer to the dialog: the
    contact list afterwards. *)
Definition handleDeleteUnsaved (confirmed : bool) (contactNamePrefix : string)
    (generatedContacts : list GeneratedContact) : list GeneratedContact :=
  let unsavedCount := length (List.filter (λ c, negb (savedFlag c)) generatedContacts) in
  if (unsavedCount =? 0)%nat then generatedContacts
  else if confirmed then
    reIndex contactNamePrefix (List.filter savedFlag generatedContacts)
  else generatedContacts.

(** [copyAllNumbers]: the text put on the clipboard, if any. *)
Definition copyAllNumbers (generatedContacts : list GeneratedContact) : option string :=
  if (length generatedContacts =? 0)%nat then None
  else Some (JS.join newline (map number generatedContacts)).

(** The call [startGeneration] makes once the inputs passed: its
    configuration, the numbers already in the list, and what the generator
    returns. *)
Definition formConfig (form : Form) : GenerationConfig :=
  {| pattern := formPattern form; count := countNumber form;
     contactNamePrefix := formPrefix form |}.

Definition existingNumbers (generatedContacts : list GeneratedContact) : gset string :=
  list_to_set (map number generatedContacts).

Definition newContactsOf (rand : nat → nat) (form : Form)
    (generatedContacts : list GeneratedContact) : list GeneratedContact :=
  generatePhoneNumbers rand (formConfig form) (formOptions form)
    (Some (existingNumbers generatedContacts)).





(** ** Unfolding the definitions of the call *)

Ltac unfold_loopBody := unfold loopBody.
Ltac unfold_loopCond := unfold loopCond.
Ltac unfold_checks := unfold frequencyExceeded, repeatsPrevious, completesRun.

(** ** The validator *)

Section Validator.

Lemma inClass_allowed c : inClass c = bool_decide (c ∈ allowedChars).
Proof. destruct c as [[] [] [] [] [] [] [] []]; vm_compute; reflexivity. Qed.

Lemma includes_elem_of s c : JS.includes s c = true ↔ c ∈ list_ascii_of_string s.
Proof.
  unfold JS.includes. rewrite existsb_exists. split.
  - intros (x & Hin & Heq). apply Ascii.eqb_eq in Heq as ->.
    by apply list_elem_of_In.
  - intros Hin. exists c. split; [by apply list_elem_of_In | apply Ascii.eqb_refl].
Qed.

Lemma length_list_ascii_of_string s :
  length (list_ascii_of_string s) = String.length s.
Proof. induction s as [|c s IH]; simpl; [reflexivity | by rewrite IH]. Qed.

Lemma seenInv_skip f seen acc c :
  seenInv f seen acc → (f c = true → c ∈ acc) → seenInv f (seen ++ [c]) acc.
Proof.
  intros (Hnd & Hmem & Hord) Hc. split; [done | split].
  - intros x. rewrite Hmem, elem_of_app, list_elem_of_singleton. split.
    + intros [? ?]. auto.
    + intros [[? | ->] Hf]; [done |]. apply Hmem, Hc, Hf.
  - intros i j x y Hi Hj Hlt.
    destruct (Hord i j x y Hi Hj Hlt) as (a & Ha & Hy).
    exists a. pose proof (lookup_lt_Some _ _ _ Ha) as Hlen. split.
    + by rewrite lookup_app_l.
    + rewrite take_app_le by lia. done.
Qed.

Lemma seenInv_add f seen acc c :
  seenInv f seen acc → f c = true → c ∉ acc → seenInv f (seen ++ [c]) (acc ++ [c]).
Proof.
  intros (Hnd & Hmem & Hord) Hf Hc. split; [| split].
  - apply NoDup_app. split; [done | split; [| apply NoDup_singleton]].
    intros x Hx ->%list_elem_of_singleton. done.
  - intros x. rewrite !elem_of_app, list_elem_of_singleton, Hmem. split.
    + intros [[? ?] | ->]; auto.
    + intros [[? | ->] ?]; auto.
  - intros i j x y Hi Hj Hlt.
    pose proof (lookup_lt_Some _ _ _ Hj) as Hjlen. rewrite length_app in Hjlen. simpl in Hjlen.
    assert (i < length acc)%nat as Hilen by lia.
    rewrite lookup_app_l in Hi by done.
    destruct (decide (j < length acc)%nat) as [Hjl | Hjl].
    + rewrite lookup_app_l in Hj by done.
      destruct (Hord i j x y Hi Hj Hlt) as (a & Ha & Hy).
      exists a. pose proof (lookup_lt_Some _ _ _ Ha). split.
      * by rewrite lookup_app_l.
      * rewrite take_app_le by lia. done.
    + rewrite lookup_app_r in Hj by lia.
      replace (j - length acc)%nat with 0%nat in Hj by lia. simpl in Hj.
      injection Hj as <-.
      assert (x ∈ seen) as Hx by (eapply Hmem, list_elem_of_lookup_2, Hi).
      apply list_elem_of_lookup in Hx as (a & Ha). exists a.
      pose proof (lookup_lt_Some _ _ _ Ha). split.
      * by rewrite lookup_app_l.
      * rewrite take_app_le by lia. intros Hin%elem_of_take.
        apply Hc, Hmem. split; [| done].
        destruct Hin as (b & Hb & _). by eapply list_elem_of_lookup_2.
Qed.

Lemma arrayFromSet_from f rest : ∀ seen acc,
  seenInv f seen acc →
  seenInv f (seen ++ rest) (foldl JS.setAdd acc (List.filter f rest)).
Proof.
  induction rest as [|c rest IH]; intros seen acc Hinv; simpl.
  - by rewrite app_nil_r.
  - replace (seen ++ c :: rest) with ((seen ++ [c]) ++ rest)
      by (by rewrite <- app_assoc).
    destruct (f c) eqn:Hf; simpl.
    + apply IH. unfold JS.setAdd. case_bool_decide.
      * by apply seenInv_skip.
      * by apply seenInv_add.
    + apply IH, seenInv_skip; [done | congruence].
Qed.

Lemma arrayFromSet_offending (p : list ascii) :
  DistinctOffending p (JS.arrayFromSet (List.filter (λ c, negb (inClass c)) p)).
Proof.
  pose proof (arrayFromSet_from (λ c, negb (inClass c)) p [] []) as H.
  simpl in H. destruct H as (Hnd & Hmem & Hord).
  - split; [apply NoDup_nil_2 | split].
    + intros c. split; [intros []%elem_of_nil | intros [[]%elem_of_nil _]].
    + intros i j x y Hi. by rewrite lookup_nil in Hi.
  - split; [done | split; [| done]].
    intros c. rewrite Hmem, inClass_allowed.
    rewrite negb_true_iff, bool_decide_eq_false. done.
Qed.

Lemma string_app_inv_tail (t : string) : ∀ s1 s2, s1 +:+ t = s2 +:+ t → s1 = s2.
Proof.
  assert (∀ s, String.length (s +:+ t) = (String.length s + String.length t)%nat) as Happ.
  { induction s as [|c s IH]; simpl; [reflexivity | by rewrite IH]. }
  induction s1 as [|c1 s1 IH]; intros [|c2 s2] H; simpl in H.
  - reflexivity.
  - apply (f_equal String.length) in H. simpl in H. rewrite (Happ s2) in H.
    change ("" +:+ t) with t in H. lia.
  - apply (f_equal String.length) in H. simpl in H. rewrite (Happ s1) in H.
    change ("" +:+ t) with t in H. lia.
  - injection H as -> H. f_equal. by apply IH.
Qed.

Lemma join_space_inj : ∀ cs1 cs2,
  JS.join " " (map JS.charString cs1) = JS.join " " (map JS.charString cs2) → cs1 = cs2.
Proof.
  unfold JS.join.
  induction cs1 as [|c1 [|d1 cs1] IH]; intros [|c2 [|d2 cs2]] H; try done.
  - by injection H as ->.
  - injection H as -> H. f_equal. apply IH. exact H.
Qed.

(** The message tells the failure and what it carries. *)
Lemma message_inj e1 e2 : message e1 = message e2 → e1 = e2.
Proof.
  destruct e1 as [|n1|cs1|], e2 as [|n2|cs2|]; try done.
  - unfold message. intros H%String.app_inj%string_app_inv_tail.
    f_equal. by apply (inj pretty).
  - unfold message. intros H%String.app_inj%string_app_inv_tail.
    f_equal. by apply join_space_inj.
Qed.

End Validator.

Section ValidatorChecks.

Lemma validatePattern_length_10 p options :
  String.length p = 10%nat →
  validatePattern (Some p) options =
    match matchInvalid p with
    | Some invalidChars => Some (message (InvalidCharacters (JS.arrayFromSet invalidChars)))
    | None => if JS.includes p "_" then None else Some (message NoVariableSlots)
    end.
Proof.
  intros Hlen. destruct p as [|c s]; [discriminate |].
  unfold validatePattern. rewrite Hlen. simpl negb. cbv iota.
  destruct (matchInvalid _); [reflexivity |].
  by destruct (JS.includes _ _).
Qed.

Lemma matchInvalid_None p :
  matchInvalid p = None ↔ ∀ c, c ∈ list_ascii_of_string p → c ∈ allowedChars.
Proof.
  unfold matchInvalid.
  destruct (List.filter _ _) as [|x l] eqn:Hf; split; try done.
  - intros _ c Hc. destruct (decide (c ∈ allowedChars)) as [|Hbad]; [done |].
    assert (c ∈ List.filter (λ c, negb (inClass c)) (list_ascii_of_string p)) as Hin.
    { apply list_elem_of_In, filter_In. split; [by apply list_elem_of_In |].
      rewrite inClass_allowed. by apply negb_true_iff, bool_decide_eq_false. }
    rewrite Hf in Hin. by apply elem_of_nil in Hin.
  - intros Hall. exfalso.
    assert (x ∈ List.filter (λ c, negb (inClass c)) (list_ascii_of_string p)) as Hx
      by (rewrite Hf; left).
    apply list_elem_of_In, filter_In in Hx as [Hx Hbad].
    rewrite inClass_allowed in Hbad.
    apply negb_true_iff, bool_decide_eq_false in Hbad.
    apply Hbad, Hall. by apply list_elem_of_In.
Qed.

Lemma matchInvalid_Some p invalidChars :
  matchInvalid p = Some invalidChars →
  DistinctOffending (list_ascii_of_string p) (JS.arrayFromSet invalidChars).
Proof.
  unfold matchInvalid. intros H.
  pose proof (arrayFromSet_offending (list_ascii_of_string p)) as Hoff.
  destruct (List.filter _ _); [discriminate |]. by injection H as <-.
Qed.

End ValidatorChecks.

(** ** Sorting *)

Section Sort.

Context {A : Type} (cmp : A → A → comparison).

Lemma insertSorted_Permutation x l : JS.insertSorted cmp x l ≡ₚ x :: l.
Proof.
  induction l as [|y l IH]; simpl; [reflexivity |].
  destruct (cmp x y); try reflexivity.
  rewrite IH. apply perm_swap.
Qed.

Lemma sort_Permutation l : JS.sort cmp l ≡ₚ l.
Proof.
  induction l as [|x l IH]; simpl; [reflexivity |].
  by rewrite insertSorted_Permutation, IH.
Qed.

Lemma sort_length l : length (JS.sort cmp l) = length l.
Proof. apply Permutation_length, sort_Permutation. Qed.

Hypothesis cmp_antisym : ∀ a b, cmp a b = Gt → cmp b a ≠ Gt.
Hypothesis cmp_trans : ∀ a b c, cmp a b ≠ Gt → cmp b c ≠ Gt → cmp a c ≠ Gt.

Lemma insertSorted_StronglySorted x l :
  StronglySorted (λ a b, cmp a b ≠ Gt) l →
  StronglySorted (λ a b, cmp a b ≠ Gt) (JS.insertSorted cmp x l).
Proof.
  induction 1 as [|y l Hl IH Hy]; simpl.
  - repeat constructor.
  - destruct (cmp x y) eqn:Hxy.
    + constructor; [by constructor |]. constructor; [congruence |].
      eapply Forall_impl; [exact Hy |]. intros z Hz. simpl in Hz.
      eapply cmp_trans; [| exact Hz]. congruence.
    + constructor; [by constructor |]. constructor; [congruence |].
      eapply Forall_impl; [exact Hy |]. intros z Hz. simpl in Hz.
      eapply cmp_trans; [| exact Hz]. congruence.
    + constructor; [exact IH |].
      rewrite insertSorted_Permutation. constructor; [by apply cmp_antisym | done].
Qed.

Lemma sort_StronglySorted l : StronglySorted (λ a b, cmp a b ≠ Gt) (JS.sort cmp l).
Proof.
  induction l as [|x l IH]; simpl; [constructor |].
  by apply insertSorted_StronglySorted.
Qed.

End Sort.

(** ** The [while] loop *)

Section Loop.

Variable rand : nat → nat.
Variable config : GenerationConfig.
Variable options : option GenerationOptions.
Variable excludeSet : option (gset string).

Local Abbreviation loopBody := (loopBody rand config options excludeSet).
Local Abbreviation loopCond := (loopCond config excludeSet).
Local Abbreviation whileLoop := (whileLoop rand config options excludeSet).
Local Abbreviation maxAttempts := (maxAttempts config excludeSet).
Local Abbreviation targetCount := (targetCount config excludeSet).

Lemma whileLoop_step st :
  whileLoop st = if loopCond st then whileLoop (loopBody st) else st.
Proof.
  rewrite whileLoop_equation_1.
  destruct (loopCondDec config excludeSet st) as [e|e]; simpl; by rewrite e.
Qed.

Local Abbreviation slotLoop := (slotLoop rand config options).
Local Abbreviation initialSize := (initialSize excludeSet).
Local Abbreviation generatedSet0 := (generatedSet0 excludeSet).

(** Either an iteration leaves the results alone, or it appends one entity
    whose value a finished candidate gave and the working set did not hold. *)
Lemma loopBody_cases st :
  attempts (loopBody st) = (attempts st + 1)%Z ∧
  ((results (loopBody st) = results st ∧ generatedSet (loopBody st) = generatedSet st) ∨
   ∃ candidateDigits pos',
     slotLoop (numUnknowns config) 0 [] ∅ (rngPos st) = (Some candidateDigits, pos') ∧
     (buildNumber config candidateDigits ∉ generatedSet st) ∧
     results (loopBody st) =
       (results st ++
        [ {| id := JS.toString (initialSize + length (results st) + 1);
             number := buildNumber config candidateDigits;
             name := contactNamePrefix config;
             isSaved := Some false |} ]) ∧
     generatedSet (loopBody st) = {[ buildNumber config candidateDigits ]} ∪ generatedSet st).
Proof.
  unfold_loopBody.
  destruct (slotLoop _ _ _ _ _) as [[candidateDigits|] pos'] eqn:Hslot; simpl.
  - case_bool_decide as Hin; simpl.
    + split; [reflexivity | by left].
    + split; [reflexivity | right]. by exists candidateDigits, pos'.
  - split; [reflexivity | by left].
Qed.

Lemma loopBody_attempts st : attempts (loopBody st) = (attempts st + 1)%Z.
Proof. apply loopBody_cases. Qed.

Lemma loopCond_true st :
  loopCond st = true ↔
  (Z.of_nat (length (results st)) < targetCount)%Z ∧ (attempts st < maxAttempts)%Z.
Proof. unfold_loopCond. rewrite andb_true_iff, !Z.ltb_lt. done. Qed.

(** The loop runs its body a number [n] of times: the condition holds before
    each of the [n] rounds and fails after the last, and [n] is no more than
    what is left of the attempt budget. *)
Lemma whileLoop_iterates st :
  ∃ n : nat,
    whileLoop st = Nat.iter n loopBody st ∧
    (∀ m, (m < n)%nat → loopCond (Nat.iter m loopBody st) = true) ∧
    loopCond (Nat.iter n loopBody st) = false ∧
    (Z.of_nat n ≤ Z.max 0 (maxAttempts - attempts st))%Z.
Proof.
  remember (Z.to_nat (maxAttempts - attempts st)) as k eqn:Hk.
  revert st Hk. induction k as [k IH] using lt_wf_ind. intros st ->.
  rewrite whileLoop_step. destruct (loopCond st) eqn:Hc.
  - pose proof Hc as [_ Hlt]%loopCond_true.
    destruct (IH (Z.to_nat (maxAttempts - attempts (loopBody st)))) with (st := loopBody st)
      as (n & Heq & Hbefore & Hafter & Hle); [rewrite loopBody_attempts; lia | reflexivity |].
    exists (S n). rewrite Nat.iter_succ_r. split; [exact Heq | split; [| split]].
    + intros [|m] Hm; [exact Hc |]. rewrite Nat.iter_succ_r. apply Hbefore. lia.
    + exact Hafter.
    + rewrite loopBody_attempts in Hle. lia.
  - exists 0%nat. simpl. split; [reflexivity | split; [| split]]; [lia | exact Hc | lia].
Qed.

Lemma whileLoop_invariant (Inv : LoopState → Prop) st :
  (∀ s, Inv s → loopCond s = true → Inv (loopBody s)) →
  Inv st → Inv (whileLoop st).
Proof.
  intros Hstep Hst.
  destruct (whileLoop_iterates st) as (n & -> & Hbefore & _).
  induction n as [|n IH]; [exact Hst |].
  rewrite Nat.iter_succ. apply Hstep; [| apply Hbefore; lia].
  apply IH. intros m Hm. apply Hbefore. lia.
Qed.

Lemma uniqueInv_initial : uniqueInv excludeSet (initialState excludeSet).
Proof.
  split; [| split]; simpl; [| constructor | constructor].
  by rewrite (left_id_L ∅ (∪)).
Qed.

Lemma uniqueInv_loopBody st : uniqueInv excludeSet st → uniqueInv excludeSet (loopBody st).
Proof.
  unfold uniqueInv. intros (Hset & Hnd & Hex).
  destruct (loopBody_cases st) as [_ [[-> ->] | (cand & pos' & _ & Hnew & -> & ->)]];
    [done |].
  split; [| split].
  - rewrite map_app, list_to_set_app_L, Hset. simpl.
    rewrite (right_id_L ∅ (∪)), (comm_L (∪) _ {[ _ ]}). by rewrite (assoc_L (∪)).
  - rewrite map_app. simpl. apply NoDup_app. split; [done | split].
    + intros x Hx ->%list_elem_of_singleton. apply Hnew. rewrite Hset.
      apply elem_of_union_l, elem_of_list_to_set, Hx.
    + apply NoDup_singleton.
  - apply Forall_app. split; [done |]. constructor; [| constructor].
    simpl. intros Hin. apply Hnew. rewrite Hset. by apply elem_of_union_r.
Qed.

Lemma labelInv_loopBody st : labelInv excludeSet st → labelInv excludeSet (loopBody st).
Proof.
  unfold labelInv. intros Hid.
  destruct (loopBody_cases st) as [_ [[-> _] | (cand & pos' & _ & _ & -> & _)]];
    [done |].
  rewrite map_app, length_app, Hid. simpl length.
  replace (length (results st) + 1)%nat with (S (length (results st))) by lia.
  by rewrite seq_S, map_app.
Qed.

Lemma sizeInv_loopBody st :
  sizeInv config excludeSet st → loopCond st = true → sizeInv config excludeSet (loopBody st).
Proof.
  unfold sizeInv. intros Hsize [Hlt _]%loopCond_true.
  destruct (loopBody_cases st) as [_ [[-> _] | (cand & pos' & _ & _ & -> & _)]];
    [done |].
  rewrite length_app. simpl. lia.
Qed.

Lemma whileLoop_uniqueInv : uniqueInv excludeSet (whileLoop (initialState excludeSet)).
Proof.
  apply whileLoop_invariant; [| apply uniqueInv_initial].
  intros s Hs _. by apply uniqueInv_loopBody.
Qed.

Lemma whileLoop_labelInv : labelInv excludeSet (whileLoop (initialState excludeSet)).
Proof.
  apply whileLoop_invariant; [| reflexivity].
  intros s Hs _. by apply labelInv_loopBody.
Qed.

Lemma whileLoop_sizeInv : sizeInv config excludeSet (whileLoop (initialState excludeSet)).
Proof.
  apply whileLoop_invariant; [apply sizeInv_loopBody |].
  unfold sizeInv. simpl. lia.
Qed.

Lemma stateAfter_attempts n :
  attempts (stateAfter rand config options excludeSet n) = Z.of_nat n.
Proof.
  unfold stateAfter. induction n as [|n IH]; [reflexivity |].
  rewrite Nat.iter_succ, loopBody_attempts, IH. lia.
Qed.

End Loop.

(** ** Properties of a generation call *)

Lemma excludeSet_size (excludeSet : option (gset string)) :
  from_option size 0%nat excludeSet = size (default (∅ : gset string) excludeSet).
Proof. destruct excludeSet; reflexivity. Qed.

Lemma targetCount_formula config excludeSet :
  targetCount config excludeSet =
  Z.min (count config)
    (Z.max 0 (10 ^ Z.of_nat (numUnknowns config) -
              Z.of_nat (size (default (∅ : gset string) excludeSet)))).
Proof.
  unfold targetCount, remainingPossibilities, maxPossibilities.
  by rewrite excludeSet_size.
Qed.

Lemma generatePhoneNumbers_Permutation rand config options excludeSet :
  generatePhoneNumbers rand config options excludeSet ≡ₚ
  results (whileLoop rand config options excludeSet (initialState excludeSet)).
Proof. apply sort_Permutation. Qed.

(** C1. The values of the returned entities are pairwise distinct, and none
    of them is a member of the supplied exclusion set. *)
Theorem generatePhoneNumbers_unique rand config options excludeSet :
  NoDup (map number (generatePhoneNumbers rand config options excludeSet)) ∧
  Forall (λ c, number c ∉ default (∅ : gset string) excludeSet)
    (generatePhoneNumbers rand config options excludeSet).
Proof.
  destruct (whileLoop_uniqueInv rand config options excludeSet) as (_ & Hnd & Hex).
  pose proof (generatePhoneNumbers_Permutation rand config options excludeSet) as Hperm.
  split.
  - by rewrite (Permutation_map number Hperm).
  - by rewrite Hperm.
Qed.

Lemma results_within_target rand config options excludeSet :
  (Z.of_nat (length (generatePhoneNumbers rand config options excludeSet)) ≤
   Z.max 0 (Z.min (count config)
              (Z.max 0 (10 ^ Z.of_nat (numUnknowns config) -
                        Z.of_nat (size (default (∅ : gset string) excludeSet))))))%Z.
Proof.
  pose proof (whileLoop_sizeInv rand config options excludeSet) as Hsize.
  unfold sizeInv in Hsize. rewrite targetCount_formula in Hsize.
  by rewrite (Permutation_length (generatePhoneNumbers_Permutation rand config options excludeSet)).
Qed.

(** C4, as the code has it.  The number of returned entities is at most the
    effective target [min(count, max(0, 10^numUnknowns - |exclusionSet|))]
    when that is positive, and the returned list is empty when the effective
    target is zero or negative. *)
Theorem generatePhoneNumbers_at_most_target rand config options excludeSet :
  let achievable :=
    Z.max 0 (10 ^ Z.of_nat (numUnknowns config) -
             Z.of_nat (size (default (∅ : gset string) excludeSet))) in
  let target := Z.min (count config) achievable in
  (Z.of_nat (length (generatePhoneNumbers rand config options excludeSet)) ≤ Z.max 0 target)%Z ∧
  ((target ≤ 0)%Z → generatePhoneNumbers rand config options excludeSet = []).
Proof.
  intros achievable target.
  pose proof (results_within_target rand config options excludeSet) as Hsize.
  fold achievable target in Hsize.
  split; [exact Hsize |]. intros Hle.
  destruct (generatePhoneNumbers _ _ _ _); [reflexivity | simpl in Hsize; lia].
Qed.

(** C5, as the code has it.  The labels of the [n] returned entities are the
    decimal strings of [|exclusionSet| + 1, ..., |exclusionSet| + n], each
    once; they are ["1", ..., "n"] when the exclusion set is absent or
    empty. *)
Theorem generatePhoneNumbers_labels rand config options excludeSet :
  map id (generatePhoneNumbers rand config options excludeSet) ≡ₚ
  map JS.toString
    (seq (size (default (∅ : gset string) excludeSet) + 1)
         (length (generatePhoneNumbers rand config options excludeSet))).
Proof.
  pose proof (generatePhoneNumbers_Permutation rand config options excludeSet) as Hperm.
  rewrite (Permutation_length Hperm), (Permutation_map id Hperm).
  rewrite (whileLoop_labelInv rand config options excludeSet).
  unfold initialSize, generatedSet0.
  generalize (size (default (∅ : gset string) excludeSet)) as s.
  generalize (length (results (whileLoop rand config options excludeSet
                                 (initialState excludeSet)))) as n.
  intros n s.
  assert (seq (s + 1) n = map (Nat.add (s + 1)) (seq 0 n)) as ->.
  { rewrite <- (Nat.add_0_r (s + 1)) at 1. symmetry. apply (fmap_add_seq (s + 1) 0 n). }
  rewrite map_map. erewrite map_ext; [reflexivity |].
  intros i. simpl. f_equal. lia.
Qed.

(** A call with [count = -1]: nothing is returned, which is more than the
    negative effective target. *)
Lemma generatePhoneNumbers_negative_count :
  let config := {| pattern := "05______1_"; count := -1; contactNamePrefix := "X" |} in
  ¬ (Z.of_nat (length (generatePhoneNumbers (λ i, i) config None None)) ≤
     Z.min (count config) (Z.max 0 (10 ^ Z.of_nat (numUnknowns config) - 0)))%Z.
Proof. vm_compute. intros H. by apply H. Qed.

Lemma generatePhoneNumbers_at_most_target_witness :
  let config := {| pattern := "05______1_"; count := 0; contactNamePrefix := "X" |} in
  generatePhoneNumbers (λ i, i) config None None = [].
Proof.
  intros config.
  apply (generatePhoneNumbers_at_most_target (λ i, i) config None None).
  vm_compute. discriminate.
Defined.

(** A call with one value already in the exclusion set: the single entity
    returned is labelled "2". *)
Lemma generatePhoneNumbers_label_offset :
  let config := {| pattern := "051234567_"; count := 1; contactNamePrefix := "X" |} in
  let res := generatePhoneNumbers (λ i, i) config None (Some {[ "0512345679" ]}) in
  map id res = ["2"] ∧
  ¬ (map id res ≡ₚ map JS.toString (seq 1 (length res))).
Proof.
  vm_compute. split; [reflexivity |].
  intros H%Permutation_singleton_l. discriminate.
Qed.

(** C8, as the code has it.  With [targetCount = min(count, max(0,
    10^numUnknowns - |exclusionSet|))], the loop of a call stops after a
    number [n] of iterations that is at most [targetCount * 200 + 5000] when
    this cap is not negative and 0 otherwise: the condition holds before
    each of the [n] iterations and fails after the last, every iteration
    adds one to the attempt counter, and the call returns the sorted results
    of the state reached. *)
Theorem generatePhoneNumbers_terminates rand config options excludeSet :
  targetCount config excludeSet =
    Z.min (count config)
      (Z.max 0 (10 ^ Z.of_nat (numUnknowns config) -
                Z.of_nat (size (default (∅ : gset string) excludeSet)))) ∧
  (∀ st, attempts (loopBody rand config options excludeSet st) = (attempts st + 1)%Z) ∧
  ∃ n : nat,
    (Z.of_nat n ≤ Z.max 0 (targetCount config excludeSet * 200 + 5000))%Z ∧
    Forall (λ m, loopCond config excludeSet (stateAfter rand config options excludeSet m) = true)
      (seq 0 n) ∧
    loopCond config excludeSet (stateAfter rand config options excludeSet n) = false ∧
    attempts (stateAfter rand config options excludeSet n) = Z.of_nat n ∧
    generatePhoneNumbers rand config options excludeSet =
      JS.sort (λ a b, JS.localeCompare (number a) (number b))
        (results (stateAfter rand config options excludeSet n)).
Proof.
  split; [apply targetCount_formula | split; [apply loopBody_attempts |]].
  destruct (whileLoop_iterates rand config options excludeSet (initialState excludeSet))
    as (n & Heq & Hbefore & Hafter & Hle).
  exists n. split; [| split; [| split; [| split]]].
  - simpl in Hle. unfold maxAttempts in Hle. lia.
  - apply Forall_forall. intros m [_ Hm]%elem_of_seq. apply Hbefore. lia.
  - exact Hafter.
  - apply stateAfter_attempts.
  - unfold generatePhoneNumbers. by rewrite Heq.
Qed.

(** A call with [count = -26]: the cap [targetCount * 200 + 5000] is -200,
    below any number of iterations. *)
Lemma generatePhoneNumbers_negative_cap :
  let config := {| pattern := "05______1_"; count := -26; contactNamePrefix := "X" |} in
  targetCount config None = (-26)%Z ∧
  stateAfter (λ i, i) config None None 0 = whileLoop (λ i, i) config None None (initialState None) ∧
  ¬ ∃ n : nat, (Z.of_nat n ≤ targetCount config None * 200 + 5000)%Z.
Proof.
  split; [reflexivity | split; [by vm_compute |]].
  intros [n Hn]. vm_compute in Hn. destruct n; by apply Hn.
Qed.

(** ** Filling the slots of one candidate *)

Section Candidate.

Variable rand : nat → nat.
Variable config : GenerationConfig.
Variable options : option GenerationOptions.

Lemma toString_digit x : isDigitString (JS.toString (x mod 10)).
Proof.
  pose proof (Nat.mod_upper_bound x 10 ltac:(lia)) as Hlt.
  generalize dependent (x mod 10)%nat. intros n Hlt.
  do 10 (destruct n as [|n];
    [eexists; split; [| by vm_compute]; unfold digitChars; simpl; set_solver |]).
  lia.
Qed.

(** A digit the retry loop accepts was drawn from the source and passed the
    three checks. *)
Lemma retryLoop_Some retriesLeft k candidateDigits digitCounts pos d pos' :
  retryLoop rand config options retriesLeft k candidateDigits digitCounts pos = (Some d, pos') →
  isDigitString d ∧
  frequencyExceeded config options digitCounts d = false ∧
  repeatsPrevious config options candidateDigits k d = false ∧
  completesRun config options candidateDigits k d = false.
Proof.
  revert pos. induction retriesLeft as [|n IH]; intros pos; cbn [retryLoop];
    [discriminate |].
  set (drawn := JS.toString (rand pos mod 10)).
  destruct (frequencyExceeded config options digitCounts drawn) eqn:Hf; [apply IH |].
  destruct (repeatsPrevious config options candidateDigits k drawn) eqn:Ha; [apply IH |].
  destruct (completesRun config options candidateDigits k drawn) eqn:Hr; [apply IH |].
  intros [= <- <-]. split; [apply toString_digit | done].
Qed.

Lemma runAt_short (digits : list string) j :
  (length digits ≤ S (S j))%nat → runAt digits j = false.
Proof.
  intros Hlen. unfold runAt.
  rewrite (lookup_ge_None_2 digits (S (S j))) by lia. simpl.
  by rewrite !andb_false_r.
Qed.

Lemma candInv_nil cs : candInv cs [] ∅.
Proof.
  split; [constructor | split; [| split; [| split]]].
  - intros d. by rewrite lookup_empty.
  - intros d. simpl. lia.
  - intros _ j a b Ha. by rewrite lookup_nil in Ha.
  - intros _ j. apply runAt_short. simpl. lia.
Qed.

(** Appending a digit that passed the three checks keeps the invariant. *)
Lemma candInv_step candidateDigits digitCounts d :
  candInv (constraints config options) candidateDigits digitCounts →
  isDigitString d →
  frequencyExceeded config options digitCounts d = false →
  repeatsPrevious config options candidateDigits (length candidateDigits) d = false →
  completesRun config options candidateDigits (length candidateDigits) d = false →
  candInv (constraints config options) (candidateDigits ++ [d])
    (<[d := (default 0 (digitCounts !! d) + 1)%Z]> digitCounts).
Proof.
  intros (Hdig & Hcnt & Hfreq & Hadj & Hrun) Hd Hf Ha Hr.
  unfold frequencyExceeded in Hf. apply Z.leb_gt in Hf. rewrite Hcnt in Hf.
  split; [| split; [| split; [| split]]].
  - apply Forall_app. split; [done | by constructor].
  - intros d'. rewrite count_occ_app. simpl.
    destruct (string_dec d d') as [<- | Hne].
    + rewrite lookup_insert_eq. simpl. rewrite Hcnt. lia.
    + rewrite lookup_insert_ne by done. rewrite Hcnt. lia.
  - intros d'. rewrite count_occ_app. simpl.
    destruct (string_dec d d') as [<- | Hne]; [lia |].
    specialize (Hfreq d'). lia.
  - intros Hno j a b Hja Hjb.
    destruct (decide (S j < length candidateDigits)%nat) as [Hlt | Hge].
    + rewrite lookup_app_l in Hja, Hjb by lia. by eapply Hadj.
    + pose proof (lookup_lt_Some _ _ _ Hjb) as Hlen.
      rewrite length_app in Hlen. simpl in Hlen.
      assert (S j = length candidateDigits) as Hk by lia.
      rewrite lookup_app_l in Hja by lia.
      rewrite lookup_app_r in Hjb by lia.
      replace (S j - length candidateDigits)%nat with 0%nat in Hjb by lia.
      injection Hjb as <-.
      unfold repeatsPrevious in Ha. rewrite Hno, <- Hk in Ha. simpl in Ha.
      rewrite Nat.sub_0_r, Hja in Ha. apply bool_decide_eq_false in Ha. congruence.
  - intros Hno j.
    destruct (decide (S (S j) < length candidateDigits)%nat) as [Hlt | Hge].
    + unfold runAt. rewrite !lookup_app_l by lia. apply (Hrun Hno j).
    + destruct (decide (S (S j) = length candidateDigits)) as [Hk | Hne].
      * unfold completesRun in Hr. rewrite Hno, <- Hk in Hr. simpl in Hr.
        rewrite Nat.sub_0_r in Hr.
        unfold runAt. rewrite !lookup_app_l by lia.
        rewrite lookup_app_r by lia.
        replace (S (S j) - length candidateDigits)%nat with 0%nat by lia.
        exact Hr.
      * apply runAt_short. rewrite length_app. simpl. lia.
Qed.

(** A candidate that gets all its slots filled has one digit per slot and
    satisfies the invariant. *)
Lemma slotLoop_Some slotsLeft : ∀ k candidateDigits digitCounts pos finished pos',
  slotLoop rand config options slotsLeft k candidateDigits digitCounts pos = (Some finished, pos') →
  k = length candidateDigits →
  candInv (constraints config options) candidateDigits digitCounts →
  length finished = (k + slotsLeft)%nat ∧
  ∃ finalCounts, candInv (constraints config options) finished finalCounts.
Proof.
  induction slotsLeft as [|n IH]; intros k cand counts pos finished pos'; cbn [slotLoop].
  - intros [= <- <-] -> Hinv. split; [lia | by exists counts].
  - destruct (retryLoop rand config options 20 k cand counts pos) as [[d|] pos1] eqn:Hretry;
      [| discriminate].
    intros Hslot -> Hinv.
    apply retryLoop_Some in Hretry as (Hd & Hf & Ha & Hr).
    apply IH in Hslot as [Hlen Hfin].
    + split; [lia | exact Hfin].
    + rewrite length_app. simpl. lia.
    + by apply candInv_step.
Qed.

Lemma candidate_finished pos finished pos' :
  slotLoop rand config options (numUnknowns config) 0 [] ∅ pos = (Some finished, pos') →
  length finished = numUnknowns config ∧
  ∃ finalCounts, candInv (constraints config options) finished finalCounts.
Proof.
  intros H. apply slotLoop_Some in H; [done | done | apply candInv_nil].
Qed.

End Candidate.

(** ** Assembling the value *)

Section Build.

Lemma collectMissing_elem chars : ∀ i p,
  p ∈ collectMissing chars i ↔ ∃ j, p = (i + j)%nat ∧ chars !! j = Some "_"%char.
Proof.
  induction chars as [|c rest IH]; intros i p; simpl.
  - split; [intros []%elem_of_nil | intros (j & _ & Hj); by rewrite lookup_nil in Hj].
  - destruct (Ascii.eqb_spec c "_") as [-> | Hne].
    + rewrite elem_of_cons, IH. split.
      * intros [-> | (j & -> & Hj)]; [exists 0%nat | exists (S j)]; split; (lia || done).
      * intros ([|j] & -> & Hj); [left; lia | right; exists j; split; [lia | done]].
    + rewrite IH. split.
      * intros (j & -> & Hj). exists (S j). split; [lia | done].
      * intros ([|j] & -> & Hj); [simpl in Hj; congruence |].
        exists j. split; [lia | done].
Qed.

Lemma collectMissing_NoDup chars : ∀ i, NoDup (collectMissing chars i).
Proof.
  induction chars as [|c rest IH]; intros i; simpl; [constructor |].
  destruct (Ascii.eqb c "_"); [| apply IH].
  apply NoDup_cons. split; [| apply IH].
  intros (j & Hj & _)%collectMissing_elem. lia.
Qed.

Lemma fillSlots_length indices : ∀ g candidateDigits arr,
  length (fillSlots g indices candidateDigits arr) = length arr.
Proof.
  induction indices as [|p rest IH]; intros g cand arr; simpl; [done |].
  by rewrite IH, length_insert.
Qed.

Lemma fillSlots_other indices : ∀ g candidateDigits arr i,
  i ∉ indices → fillSlots g indices candidateDigits arr !! i = arr !! i.
Proof.
  induction indices as [|p rest IH]; intros g cand arr i Hi; simpl; [done |].
  apply not_elem_of_cons in Hi as [Hne Hi].
  rewrite IH by done. by apply list_lookup_insert_ne.
Qed.

Lemma fillSlots_slot indices : ∀ g candidateDigits arr j p,
  NoDup indices → indices !! j = Some p → (p < length arr)%nat →
  fillSlots g indices candidateDigits arr !! p =
  Some (default "" (candidateDigits !! (g + j)%nat)).
Proof.
  induction indices as [|p0 rest IH]; intros g cand arr j p Hnd Hj Hp; [done |].
  apply NoDup_cons in Hnd as [Hp0 Hnd]. destruct j as [|j]; simpl in *.
  - injection Hj as ->. rewrite fillSlots_other by done.
    rewrite Nat.add_0_r. by apply list_lookup_insert_eq.
  - rewrite (IH (S g) cand _ j p) by (by rewrite ?length_insert).
    do 3 f_equal. lia.
Qed.

Lemma fillSlots_Forall (P : string → Prop) indices : ∀ g candidateDigits arr,
  Forall P arr →
  (∀ j, (j < length indices)%nat → P (default "" (candidateDigits !! (g + j)%nat))) →
  Forall P (fillSlots g indices candidateDigits arr).
Proof.
  induction indices as [|p rest IH]; intros g cand arr Harr Hc; simpl; [done |].
  apply IH.
  - apply Forall_insert; [done |]. specialize (Hc 0%nat). rewrite Nat.add_0_r in Hc.
    apply Hc. simpl. lia.
  - intros j Hj. replace (S g + j)%nat with (g + S j)%nat by lia. apply Hc. simpl. lia.
Qed.

Lemma join_charStrings l : JS.join "" (map JS.charString l) = string_of_list_ascii l.
Proof.
  unfold JS.join. induction l as [|c l IH]; [reflexivity |].
  destruct l as [|c' l]; [reflexivity |].
  change (String.concat "" (map JS.charString (c :: c' :: l)))
    with (String c (String.concat "" (map JS.charString (c' :: l)))).
  by rewrite IH.
Qed.

Lemma charStrings_exist arr :
  Forall (λ s, ∃ c, s = JS.charString c) arr → ∃ l, arr = map JS.charString l.
Proof.
  induction 1 as [|s arr [c ->] _ [l ->]]; [by exists [] | by exists (c :: l)].
Qed.

Lemma charString_inj c1 c2 : JS.charString c1 = JS.charString c2 → c1 = c2.
Proof. by intros [= ->]. Qed.

Variable config : GenerationConfig.

Lemma missingIndices_pattern p :
  p ∈ missingIndices config ↔ list_ascii_of_string (pattern config) !! p = Some "_"%char.
Proof.
  unfold missingIndices. rewrite collectMissing_elem. split.
  - by intros (j & -> & Hj).
  - intros Hp. by exists p.
Qed.

(** The value assembled from a full candidate of digit strings: as long as
    the template, equal to it outside the wildcard positions, and holding
    the candidate's digits at the wildcard positions, in order. *)
Lemma buildNumber_chars candidateDigits :
  length candidateDigits = numUnknowns config →
  Forall isDigitString candidateDigits →
  String.length (buildNumber config candidateDigits) = String.length (pattern config) ∧
  (∀ i, i ∉ missingIndices config →
     list_ascii_of_string (buildNumber config candidateDigits) !! i =
     list_ascii_of_string (pattern config) !! i) ∧
  (∀ j p, missingIndices config !! j = Some p →
     ∃ c, c ∈ digitChars ∧ candidateDigits !! j = Some (JS.charString c) ∧
          list_ascii_of_string (buildNumber config candidateDigits) !! p = Some c).
Proof.
  intros Hlen Hdig. unfold buildNumber.
  set (arr := fillSlots 0 (missingIndices config) candidateDigits (JS.split (pattern config))).
  assert (length arr = String.length (pattern config)) as Harrlen.
  { unfold arr, JS.split.
    by rewrite fillSlots_length, length_map, length_list_ascii_of_string. }
  assert (∀ j, (j < length (missingIndices config))%nat →
            ∃ c, c ∈ digitChars ∧ candidateDigits !! j = Some (JS.charString c)) as Hcand.
  { intros j Hj. fold (numUnknowns config) in Hj. rewrite <- Hlen in Hj.
    apply lookup_lt_is_Some in Hj as [d Hd].
    pose proof (proj1 (Forall_lookup _ _) Hdig j d Hd) as (c & Hc & ->). by exists c. }
  destruct (charStrings_exist arr) as [l Hl].
  { apply fillSlots_Forall.
    - unfold JS.split. apply Forall_forall. intros s (c & -> & _)%list_elem_of_fmap. by exists c.
    - intros j Hj. destruct (Hcand j Hj) as (c & _ & Hc). simpl. rewrite Hc. by exists c. }
  rewrite Hl, join_charStrings, list_ascii_of_string_of_list_ascii.
  assert (length l = String.length (pattern config)) as Hllen
    by (by rewrite <- Harrlen, Hl, length_map).
  split; [| split].
  - by rewrite <- length_list_ascii_of_string, list_ascii_of_string_of_list_ascii.
  - intros i Hi.
    pose proof (fillSlots_other (missingIndices config) 0 candidateDigits
                  (JS.split (pattern config)) i Hi) as Hother.
    fold arr in Hother. rewrite Hl in Hother. unfold JS.split in Hother.
    rewrite !list_lookup_fmap in Hother.
    destruct (l !! i) as [a|], (list_ascii_of_string (pattern config) !! i) as [b|];
      simpl in Hother; try done.
    by injection Hother as ->.
  - intros j p Hj.
    destruct (Hcand j) as (c & Hc & Hcj); [by eapply lookup_lt_Some |].
    exists c. split; [done | split; [done |]].
    pose proof (fillSlots_slot (missingIndices config) 0 candidateDigits
                  (JS.split (pattern config)) j p) as Hslot.
    fold arr in Hslot. rewrite Hl in Hslot. simpl in Hslot. rewrite Hcj in Hslot.
    rewrite list_lookup_fmap in Hslot.
    destruct (l !! p) as [a|]; simpl in Hslot.
    + f_equal. apply charString_inj.
      assert (Some (JS.charString a) = Some (JS.charString c)) as [= ->]; [| done].
      apply Hslot; [apply collectMissing_NoDup | done |].
      unfold JS.split. rewrite length_map, length_list_ascii_of_string.
      rewrite <- length_list_ascii_of_string. eapply lookup_lt_Some.
      apply missingIndices_pattern. by eapply list_elem_of_lookup_2.
    + exfalso.
      assert (None = Some (JS.charString c)) as Habs; [| done].
      apply Hslot; [apply collectMissing_NoDup | done |].
      unfold JS.split. rewrite length_map.
      eapply lookup_lt_Some. apply missingIndices_pattern. by eapply list_elem_of_lookup_2.
Qed.

End Build.

(** ** What every returned entity inherits from its candidate *)

Section Results.

Variable rand : nat → nat.
Variable config : GenerationConfig.
Variable options : option GenerationOptions.
Variable excludeSet : option (gset string).

Lemma whileLoop_fromCandidate :
  Forall (fromCandidate rand config options)
    (results (whileLoop rand config options excludeSet (initialState excludeSet))).
Proof.
  apply (whileLoop_invariant rand config options excludeSet
           (λ st, Forall (fromCandidate rand config options) (results st))); [| constructor].
  intros st Hst _.
  destruct (loopBody_cases rand config options excludeSet st)
    as [_ [[-> _] | (cand & pos' & Hslot & _ & -> & _)]]; [done |].
  apply Forall_app. split; [done |]. constructor; [| constructor].
  by exists cand, (rngPos st), pos'.
Qed.

Lemma generatePhoneNumbers_fromCandidate :
  Forall (fromCandidate rand config options)
    (generatePhoneNumbers rand config options excludeSet).
Proof.
  rewrite generatePhoneNumbers_Permutation. apply whileLoop_fromCandidate.
Qed.

Lemma wildcard_charStrings (f : nat → option ascii) indices : ∀ candidateDigits,
  length indices = length candidateDigits →
  (∀ j p, indices !! j = Some p →
     ∃ c, candidateDigits !! j = Some (JS.charString c) ∧ f p = Some c) →
  map JS.charString (omap f indices) = candidateDigits.
Proof.
  induction indices as [|p rest IH]; intros [|d cand] Hlen Hall; try done.
  destruct (Hall 0%nat p eq_refl) as (c & [= ->] & Hc).
  simpl. rewrite Hc. simpl. f_equal.
  apply IH; [by injection Hlen |]. intros j q Hj. by apply (Hall (S j)).
Qed.

(** The value of a returned entity has the length of the template, equals
    it outside the wildcard positions, and its wildcard positions hold, in
    order, the digits of a candidate that satisfies the invariant. *)
Lemma fromCandidate_value c :
  fromCandidate rand config options c →
  String.length (number c) = String.length (pattern config) ∧
  (∀ i, i ∉ missingIndices config →
     list_ascii_of_string (number c) !! i = list_ascii_of_string (pattern config) !! i) ∧
  length (wildcardDigits config (number c)) = numUnknowns config ∧
  Forall (λ ch, ch ∈ digitChars) (wildcardDigits config (number c)) ∧
  (∀ p, p ∈ missingIndices config →
     ∃ ch, ch ∈ digitChars ∧ list_ascii_of_string (number c) !! p = Some ch) ∧
  ∃ digitCounts,
    candInv (constraints config options)
      (map JS.charString (wildcardDigits config (number c))) digitCounts.
Proof.
  intros (cand & pos & pos' & Hslot & ->).
  apply candidate_finished in Hslot as (Hlen & counts & Hinv).
  pose proof Hinv as (Hdig & _).
  destruct (buildNumber_chars config cand Hlen Hdig) as (Hl & Hfixed & Hwild).
  assert (map JS.charString (wildcardDigits config (buildNumber config cand)) = cand) as Hw.
  { apply wildcard_charStrings; [done |]. intros j p Hj.
    destruct (Hwild j p Hj) as (ch & _ & Hc & Hp). by exists ch. }
  split; [done | split; [done | split; [| split; [| split]]]].
  - by rewrite <- (length_map JS.charString), Hw.
  - apply Forall_forall. intros ch Hch.
    assert (JS.charString ch ∈ cand) as Hin by (rewrite <- Hw; by apply list_elem_of_fmap_2).
    pose proof (proj1 (Forall_forall _ _) Hdig _ Hin) as (ch' & Hch' & Heq).
    by apply charString_inj in Heq as ->.
  - intros p (j & Hj)%list_elem_of_lookup.
    destruct (Hwild j p Hj) as (ch & Hch & _ & Hp). by exists ch.
  - exists counts. by rewrite Hw.
Qed.

End Results.

Lemma validatePattern_None p options :
  validatePattern (Some p) options = None →
  String.length p = 10%nat ∧
  (∀ c, c ∈ list_ascii_of_string p → c ∈ allowedChars) ∧
  "_"%char ∈ list_ascii_of_string p.
Proof.
  intros Hv. destruct (decide (String.length p = 10%nat)) as [Hlen | Hlen].
  - rewrite validatePattern_length_10 in Hv by done.
    destruct (matchInvalid p) eqn:Hm; [done |].
    destruct (JS.includes p "_") eqn:Hinc; [| done].
    split; [done | split]; [by apply matchInvalid_None | by apply includes_elem_of].
  - destruct p as [|c s]; [done |]. unfold validatePattern in Hv.
    destruct (Nat.eqb_spec (String.length (String c s)) 10); done.
Qed.

Lemma allowed_fixed_digit ch : ch ∈ allowedChars → ch ≠ "_"%char → ch ∈ digitChars.
Proof.
  intros H%list_elem_of_In Hne. apply list_elem_of_In.
  unfold allowedChars, digitChars in *. simpl in *. intuition congruence.
Qed.

Lemma accepted_template_values rand config options excludeSet :
  validatePattern (Some (pattern config)) options = None →
  Forall (λ c,
      String.length (number c) = 10%nat ∧
      (∀ i ch, list_ascii_of_string (pattern config) !! i = Some ch → ch ≠ "_"%char →
               list_ascii_of_string (number c) !! i = Some ch) ∧
      Forall (λ ch, ch ∈ digitChars) (list_ascii_of_string (number c)))
    (generatePhoneNumbers rand config options excludeSet).
Proof.
  intros (Hlen & Hallowed & _)%validatePattern_None.
  eapply Forall_impl; [apply generatePhoneNumbers_fromCandidate |].
  intros c (Hl & Hfixed & _ & _ & Hwild & _)%fromCandidate_value.
  assert (∀ i ch, list_ascii_of_string (pattern config) !! i = Some ch → ch ≠ "_"%char →
                  list_ascii_of_string (number c) !! i = Some ch) as Hfix.
  { intros i ch Hi Hne. rewrite Hfixed; [done |].
    intros Hin%missingIndices_pattern. congruence. }
  split; [congruence | split; [exact Hfix |]].
  apply Forall_lookup. intros i ch Hi.
  destruct (decide (i ∈ missingIndices config)) as [Hin | Hout].
  - destruct (Hwild i Hin) as (ch' & Hch' & Hi'). congruence.
  - rewrite Hfixed in Hi by done. apply allowed_fixed_digit.
    + eapply Hallowed, list_elem_of_lookup_2, Hi.
    + intros ->. by apply Hout, missingIndices_pattern.
Qed.

(** C2. For a template that [validatePattern] accepts, every returned
    value has length 10 and holds the template's character at every
    position where the template has a fixed digit; the remaining positions
    hold digits as well. *)
Theorem generatePhoneNumbers_matches_template rand config options excludeSet :
  validatePattern (Some (pattern config)) options = None →
  Forall (λ c,
      String.length (number c) = 10%nat ∧
      (∀ i ch, list_ascii_of_string (pattern config) !! i = Some ch → ch ≠ "_"%char →
               list_ascii_of_string (number c) !! i = Some ch) ∧
      Forall (λ ch, ch ∈ digitChars) (list_ascii_of_string (number c)))
    (generatePhoneNumbers rand config options excludeSet).
Proof. apply accepted_template_values. Qed.

Lemma generatePhoneNumbers_matches_template_witness :
  let config := {| pattern := "05______1_"; count := 5; contactNamePrefix := "X" |} in
  map number (generatePhoneNumbers sampleSource config None None) =
    ["0526438312"; "0531415912"; "0565358917"; "0579502814"; "0593238416"] ∧
  Forall (λ c,
      String.length (number c) = 10%nat ∧
      (∀ i ch, list_ascii_of_string (pattern config) !! i = Some ch → ch ≠ "_"%char →
               list_ascii_of_string (number c) !! i = Some ch) ∧
      Forall (λ ch, ch ∈ digitChars) (list_ascii_of_string (number c)))
    (generatePhoneNumbers sampleSource config None None).
Proof.
  intros config. split; [by vm_compute |].
  apply (generatePhoneNumbers_matches_template sampleSource config None None).
  by vm_compute.
Defined.

(** ** The strict tier *)

Lemma parseInt_digit ch :
  ch ∈ digitChars → JS.parseInt (Some (JS.charString ch)) = Some (digitValue ch).
Proof.
  intros H%list_elem_of_In. unfold digitChars in H. simpl in H.
  repeat (destruct H as [<- | H]; [reflexivity |]). done.
Qed.

Section Tier.

Variable rand : nat → nat.
Variable config : GenerationConfig.
Variable options : option GenerationOptions.
Variable excludeSet : option (gset string).

(** The three rules, read on the wildcard positions of a returned value. *)
Lemma fromCandidate_rules c :
  fromCandidate rand config options c →
  let w := wildcardDigits config (number c) in
  (∀ ch, (Z.of_nat (count_occ ascii_dec w ch) ≤
          Z.max 0 (maxDigitFreq (constraints config options)))%Z) ∧
  (allowAdjacentDuplicates (constraints config options) = false →
     ∀ j a b, w !! j = Some a → w !! S j = Some b → a ≠ b) ∧
  (allowSequences (constraints config options) = false →
     ∀ j a b d, w !! j = Some a → w !! S j = Some b → w !! S (S j) = Some d →
                ¬ isRun a b d).
Proof.
  intros (_ & _ & _ & Hdig & _ & counts & (_ & _ & Hfreq & Hadj & Hrun))%fromCandidate_value w.
  fold w in Hdig, Hfreq, Hadj, Hrun.
  split; [| split].
  - intros ch. specialize (Hfreq (JS.charString ch)).
    by rewrite <- (count_occ_map JS.charString ascii_dec string_dec charString_inj) in Hfreq.
  - intros Hno j a b Ha Hb Heq. subst b.
    eapply (Hadj Hno j); [| | reflexivity]; rewrite list_lookup_fmap; [by rewrite Ha | by rewrite Hb].
  - intros Hno j a b d Ha Hb Hd Hisrun.
    specialize (Hrun Hno j). unfold runAt in Hrun.
    rewrite !list_lookup_fmap, Ha, Hb, Hd in Hrun.
    cbn [fmap option_fmap option_map] in Hrun.
    pose proof (proj1 (Forall_lookup _ _) Hdig _ _ Ha) as Hda.
    pose proof (proj1 (Forall_lookup _ _) Hdig _ _ Hb) as Hdb.
    pose proof (proj1 (Forall_lookup _ _) Hdig _ _ Hd) as Hdd.
    rewrite !parseInt_digit in Hrun by done. simpl in Hrun.
    apply orb_false_iff in Hrun as [Hup Hdown].
    apply andb_false_iff in Hup, Hdown.
    rewrite !Z.eqb_neq in Hup, Hdown.
    destruct Hisrun as [[? ?] | [? ?]]; [destruct Hup | destruct Hdown]; lia.
Qed.

Lemma strict_constraints :
  (density options <= 0.4)%Q →
  constraints config options =
  {| maxDigitFreq :=
       Z.max 2 (Qceiling (inject_Z (Z.of_nat (numUnknowns config)) * 0.35));
     allowAdjacentDuplicates := false;
     allowSequences := false |}.
Proof. intros H%Qle_bool_iff. unfold constraints. by rewrite H. Qed.

End Tier.

(** C6. In the strict tier (density at most 0.4) and for a template with 8
    wildcard positions, the frequency cap is [max(2, ceil(8 * 0.35)) = 3]:
    in every returned value no digit occurs more than 3 times among the 8
    characters at the wildcard positions, and no two consecutive wildcard
    positions, in wildcard order, hold the same digit. *)
Theorem strict_tier_eight_slots rand config options excludeSet :
  (density options <= 0.4)%Q →
  numUnknowns config = 8%nat →
  maxDigitFreq (constraints config options) = 3%Z ∧
  Forall (λ c,
      let w := wildcardDigits config (number c) in
      length w = 8%nat ∧
      (∀ ch, (count_occ ascii_dec w ch ≤ 3)%nat) ∧
      (∀ j a b, w !! j = Some a → w !! S j = Some b → a ≠ b))
    (generatePhoneNumbers rand config options excludeSet).
Proof.
  intros Hstrict Hn.
  pose proof (strict_constraints config options Hstrict) as Hcs. rewrite Hn in Hcs.
  split; [by rewrite Hcs |].
  eapply Forall_impl; [apply generatePhoneNumbers_fromCandidate |].
  intros c Hc.
  pose proof (fromCandidate_value _ _ _ c Hc) as (_ & _ & Hlen & _).
  pose proof (fromCandidate_rules _ _ _ c Hc) as (Hfreq & Hadj & _).
  rewrite Hcs in Hfreq, Hadj. simpl in Hfreq, Hadj.
  split; [congruence | split].
  - intros ch. specialize (Hfreq ch).
    change (Z.max 0 (Z.max 2 (Qceiling (inject_Z (Z.of_nat 8) * 0.35)))) with 3%Z in Hfreq.
    lia.
  - by apply Hadj.
Qed.

Lemma strict_tier_eight_slots_witness :
  let config := {| pattern := "05________"; count := 5; contactNamePrefix := "X" |} in
  let options := Some {| repetitionDensity := 0.4 |} in
  map number (generatePhoneNumbers sampleSource config options None) =
    ["0523846264"; "0528419716"; "0531415926"; "0538327950"; "0553589793"] ∧
  maxDigitFreq (constraints config options) = 3%Z ∧
  Forall (λ c,
      let w := wildcardDigits config (number c) in
      length w = 8%nat ∧
      (∀ ch, (count_occ ascii_dec w ch ≤ 3)%nat) ∧
      (∀ j a b, w !! j = Some a → w !! S j = Some b → a ≠ b))
    (generatePhoneNumbers sampleSource config options None).
Proof.
  intros config options. split; [by vm_compute |].
  apply (strict_tier_eight_slots sampleSource config options None).
  - by vm_compute.
  - reflexivity.
Defined.

(** ** Order of the returned list *)

Section Order.

Lemma lexLe_cons_inv a b l1 l2 :
  lexLe (a :: l1) (b :: l2) ↔ (N_of_ascii a < N_of_ascii b)%N ∨ (a = b ∧ lexLe l1 l2).
Proof.
  split.
  - inversion 1; subst; auto.
  - intros [? | [-> ?]]; [by apply lexLe_lt | by apply lexLe_eq].
Qed.

Lemma compare_lexLe s : ∀ t,
  String.compare s t ≠ Gt ↔ lexLe (list_ascii_of_string s) (list_ascii_of_string t).
Proof.
  induction s as [|a s IH]; intros [|b t]; simpl.
  - split; [constructor | done].
  - split; [constructor | done].
  - split; [done | inversion 1].
  - rewrite lexLe_cons_inv, <- IH. unfold Ascii.compare.
    destruct (N.compare_spec (N_of_ascii a) (N_of_ascii b)) as [Heq | Hlt | Hgt].
    + assert (a = b) as -> by (by rewrite <- (ascii_N_embedding a), Heq, ascii_N_embedding).
      split; [by right | intros [? | [_ ?]]; [lia | done]].
    + split; [by left | done].
    + split; [done | intros [? | [-> _]]; lia].
Qed.

Lemma lexLe_trans l1 l2 l3 : lexLe l1 l2 → lexLe l2 l3 → lexLe l1 l3.
Proof.
  intros H12. revert l3. induction H12 as [l | a b l1 l2 Hab | a l1 l2 H12 IH]; intros l3 H23.
  - constructor.
  - destruct l3 as [|c l3]; [inversion H23 |].
    apply lexLe_cons_inv in H23 as [Hbc | [<- _]]; apply lexLe_lt; lia.
  - destruct l3 as [|c l3]; [inversion H23 |].
    apply lexLe_cons_inv in H23 as [Hac | [<- H23]]; [by apply lexLe_lt |].
    apply lexLe_eq, IH, H23.
Qed.

Lemma StronglySorted_weaken {A} (R R' : A → A → Prop) (P : A → Prop) l :
  (∀ a b, P a → P b → R a b → R' a b) →
  Forall P l → StronglySorted R l → StronglySorted R' l.
Proof.
  intros Himpl HP Hs. induction Hs as [|x l Hs IH Hx]; [constructor |].
  apply Forall_cons in HP as [HPx HPl]. constructor; [by apply IH |].
  apply Forall_forall. intros y Hy. apply Himpl; [done | |].
  - by apply (proj1 (Forall_forall _ _) HPl).
  - by apply (proj1 (Forall_forall _ _) Hx).
Qed.

Lemma digitValue_range ch : ch ∈ digitChars → (0 ≤ digitValue ch ≤ 9)%Z.
Proof.
  intros H%list_elem_of_In. unfold digitChars in H. simpl in H.
  repeat (destruct H as [<- | H]; [by vm_compute |]). done.
Qed.

Lemma digitValue_lt a b : (N_of_ascii a < N_of_ascii b)%N → (digitValue a < digitValue b)%Z.
Proof. unfold digitValue, nat_of_ascii. lia. Qed.

Lemma fold_decimal_acc l : ∀ acc,
  fold_left (λ acc c, acc * 10 + digitValue c)%Z l acc =
  (acc * 10 ^ Z.of_nat (length l) +
   fold_left (λ acc c, acc * 10 + digitValue c)%Z l 0)%Z.
Proof.
  induction l as [|c l IH]; intros acc; simpl fold_left.
  - simpl. lia.
  - rewrite IH, (IH (0 * 10 + digitValue c)%Z).
    replace (Z.of_nat (length (c :: l))) with (Z.succ (Z.of_nat (length l)))
      by (simpl length; lia).
    rewrite Z.pow_succ_r by lia. lia.
Qed.

Lemma fold_decimal_range l :
  Forall (λ ch, ch ∈ digitChars) l →
  (0 ≤ fold_left (λ acc c, acc * 10 + digitValue c)%Z l 0 < 10 ^ Z.of_nat (length l))%Z.
Proof.
  induction 1 as [|c l Hc _ IH]; simpl fold_left; [simpl; lia |].
  rewrite fold_decimal_acc.
  replace (Z.of_nat (length (c :: l))) with (Z.succ (Z.of_nat (length l)))
    by (simpl length; lia).
  rewrite Z.pow_succ_r by lia.
  pose proof (digitValue_range c Hc). nia.
Qed.

(** On digit strings of the same length the lexicographic order is the
    order of the numbers they denote. *)
Lemma lexLe_decimal l1 l2 :
  lexLe l1 l2 → length l1 = length l2 →
  Forall (λ ch, ch ∈ digitChars) l1 → Forall (λ ch, ch ∈ digitChars) l2 →
  (fold_left (λ acc c, acc * 10 + digitValue c)%Z l1 0 ≤
   fold_left (λ acc c, acc * 10 + digitValue c)%Z l2 0)%Z.
Proof.
  induction 1 as [l | a b l1 l2 Hab | a l1 l2 Hle IH]; intros Hlen H1 H2.
  - destruct l; [lia | done].
  - apply Forall_cons in H1 as [Ha H1], H2 as [Hb H2]. injection Hlen as Hlen.
    simpl fold_left. rewrite (fold_decimal_acc l1), (fold_decimal_acc l2), Hlen.
    pose proof (fold_decimal_range l1 H1) as R1. rewrite Hlen in R1.
    pose proof (fold_decimal_range l2 H2) as R2.
    pose proof (digitValue_lt a b Hab). nia.
  - apply Forall_cons in H1 as [Ha H1], H2 as [_ H2]. injection Hlen as Hlen.
    simpl fold_left. rewrite (fold_decimal_acc l1), (fold_decimal_acc l2), Hlen.
    specialize (IH Hlen H1 H2). lia.
Qed.

Lemma localeCompare_antisym (a b : GeneratedContact) :
  JS.localeCompare (number a) (number b) = Gt →
  JS.localeCompare (number b) (number a) ≠ Gt.
Proof.
  unfold JS.localeCompare. rewrite (String.compare_antisym (number b) (number a)).
  by intros ->.
Qed.

Lemma localeCompare_trans (a b c : GeneratedContact) :
  JS.localeCompare (number a) (number b) ≠ Gt →
  JS.localeCompare (number b) (number c) ≠ Gt →
  JS.localeCompare (number a) (number c) ≠ Gt.
Proof. unfold JS.localeCompare. rewrite !compare_lexLe. apply lexLe_trans. Qed.

End Order.

(** C7. The returned list is in ascending lexicographic order of the
    values; for a template that [validatePattern] accepts, where all values
    are strings of 10 digits, it is also in ascending order of the numbers
    the values denote. *)
Theorem generatePhoneNumbers_sorted rand config options excludeSet :
  StronglySorted
    (λ a b, lexLe (list_ascii_of_string (number a)) (list_ascii_of_string (number b)))
    (generatePhoneNumbers rand config options excludeSet) ∧
  (validatePattern (Some (pattern config)) options = None →
   StronglySorted (λ a b, (decimalValue (number a) ≤ decimalValue (number b))%Z)
     (generatePhoneNumbers rand config options excludeSet)).
Proof.
  assert (StronglySorted
    (λ a b, lexLe (list_ascii_of_string (number a)) (list_ascii_of_string (number b)))
    (generatePhoneNumbers rand config options excludeSet)) as Hlex.
  { eapply (StronglySorted_weaken _ _ (λ _, True)); [| by apply Forall_true |].
    - intros a b _ _ H. apply compare_lexLe, H.
    - apply (sort_StronglySorted (λ a b, JS.localeCompare (number a) (number b)));
        [apply localeCompare_antisym | apply localeCompare_trans]. }
  split; [exact Hlex |]. intros Hvalid.
  eapply StronglySorted_weaken;
    [| apply (accepted_template_values rand config options excludeSet Hvalid)
     | exact Hlex].
  intros a b (Hla & _ & Hda) (Hlb & _ & Hdb) Hle.
  apply lexLe_decimal; [done | | done | done].
  by rewrite !length_list_ascii_of_string, Hla, Hlb.
Qed.

Lemma generatePhoneNumbers_sorted_witness :
  let config := {| pattern := "05______1_"; count := 5; contactNamePrefix := "X" |} in
  map (λ c, decimalValue (number c)) (generatePhoneNumbers sampleSource config None None) =
    [526438312; 531415912; 565358917; 579502814; 593238416]%Z ∧
  StronglySorted (λ a b, (decimalValue (number a) ≤ decimalValue (number b))%Z)
    (generatePhoneNumbers sampleSource config None None).
Proof.
  intros config. split; [by vm_compute |].
  apply (generatePhoneNumbers_sorted sampleSource config None None).
  by vm_compute.
Defined.

(** ** The exclusion set and the feasibility cap *)

(** C9. The cap counts the exclusion set by its size alone: a call returns
    at most [max(0, 10^numUnknowns - |exclusionSet|)] entities whatever the
    members of the exclusion set are, and nothing when the exclusion set
    has at least [10^numUnknowns] members.  With the ten foreign strings,
    none of them in the value space of the one-wildcard template, as
    exclusion set the call returns nothing, though the same call without
    them returns ten values; with nine of them it returns one. *)
Theorem exclusion_size_alone_caps rand config options (ex : gset string) :
  ((Z.of_nat (length (generatePhoneNumbers rand config options (Some ex))) ≤
    Z.max 0 (10 ^ Z.of_nat (numUnknowns config) - Z.of_nat (size ex)))%Z ∧
   ((10 ^ Z.of_nat (numUnknowns config) ≤ Z.of_nat (size ex))%Z →
    generatePhoneNumbers rand config options (Some ex) = [])) ∧
  (let one := {| pattern := "051234567_"; count := 10; contactNamePrefix := "X" |} in
   Forall (λ s, inValueSpace one s = false) foreignValues ∧
   length (generatePhoneNumbers (λ i, i) one None None) = 10%nat ∧
   generatePhoneNumbers (λ i, i) one None (Some (list_to_set foreignValues)) = [] ∧
   length (generatePhoneNumbers (λ i, i) one None
             (Some (list_to_set (drop 1 foreignValues)))) = 1%nat).
Proof.
  split.
  - pose proof (results_within_target rand config options (Some ex)) as Hle.
    change (default (∅ : gset string) (Some ex)) with ex in Hle. split.
    + lia.
    + intros Hsize.
      destruct (generatePhoneNumbers _ _ _ _); [reflexivity | simpl in Hle; lia].
  - cbv zeta. split; [| split; [| split]].
    + unfold foreignValues. repeat constructor.
    + by vm_compute.
    + by vm_compute.
    + by vm_compute.
Qed.

Lemma exclusion_size_alone_caps_witness :
  let one := {| pattern := "051234567_"; count := 10; contactNamePrefix := "X" |} in
  generatePhoneNumbers sampleSource one None (Some (list_to_set foreignValues)) = [].
Proof.
  intros one.
  apply (proj2 (proj1 (exclusion_size_alone_caps sampleSource one None
                         (list_to_set foreignValues)))).
  by vm_compute.
Defined.

(** ** The local checks and the fixed digits *)

Section Independence.

Variable rand : nat → nat.
Variable options : option GenerationOptions.
Variables config1 config2 : GenerationConfig.
Hypothesis same_slots : numUnknowns config1 = numUnknowns config2.

Lemma constraints_numUnknowns : constraints config1 options = constraints config2 options.
Proof. unfold constraints. by rewrite same_slots. Qed.

Lemma retryLoop_numUnknowns retriesLeft k candidateDigits digitCounts : ∀ pos,
  retryLoop rand config1 options retriesLeft k candidateDigits digitCounts pos =
  retryLoop rand config2 options retriesLeft k candidateDigits digitCounts pos.
Proof.
  induction retriesLeft as [|n IH]; intros pos; cbn [retryLoop]; [reflexivity |].
  unfold_checks. rewrite constraints_numUnknowns, !IH. reflexivity.
Qed.

Lemma slotLoop_numUnknowns slotsLeft : ∀ k candidateDigits digitCounts pos,
  slotLoop rand config1 options slotsLeft k candidateDigits digitCounts pos =
  slotLoop rand config2 options slotsLeft k candidateDigits digitCounts pos.
Proof.
  induction slotsLeft as [|n IH]; intros k cand counts pos; cbn [slotLoop]; [reflexivity |].
  rewrite retryLoop_numUnknowns.
  destruct (retryLoop rand config2 options 20 k cand counts pos) as [[d|] pos']; [apply IH | done].
Qed.

End Independence.

(** C10. The digits of a candidate depend on the template through its
    number of wildcard positions only: two templates with as many wildcard
    positions get the same candidate digits from the same draws, whatever
    their fixed digits are and wherever they stand.  When adjacent
    duplicates are not allowed, the digits at consecutive wildcard
    positions of a returned value differ, and when runs are not allowed no
    three consecutive wildcard positions count up or down by one, in
    wildcard order.  The final string is not checked: in the strict tier a
    returned value can have two equal neighbouring characters, or three
    neighbouring characters that count up or down, next to a fixed digit. *)
Theorem local_checks_ignore_fixed_digits :
  (∀ rand options config1 config2 pos,
     numUnknowns config1 = numUnknowns config2 →
     slotLoop rand config1 options (numUnknowns config1) 0 [] ∅ pos =
     slotLoop rand config2 options (numUnknowns config2) 0 [] ∅ pos) ∧
  (∀ rand config options excludeSet,
     allowAdjacentDuplicates (constraints config options) = false →
     Forall (λ c, ∀ j a b,
                wildcardDigits config (number c) !! j = Some a →
                wildcardDigits config (number c) !! S j = Some b → a ≠ b)
       (generatePhoneNumbers rand config options excludeSet)) ∧
  (∀ rand config options excludeSet,
     allowSequences (constraints config options) = false →
     Forall (λ c, ∀ j a b d,
                wildcardDigits config (number c) !! j = Some a →
                wildcardDigits config (number c) !! S j = Some b →
                wildcardDigits config (number c) !! S (S j) = Some d →
                ¬ isRun a b d)
       (generatePhoneNumbers rand config options excludeSet)) ∧
  (let config := {| pattern := "0_________"; count := 1; contactNamePrefix := "X" |} in
   allowAdjacentDuplicates (constraints config None) = false ∧
   Exists (λ c, number c = "0013467901" ∧ hasEqualNeighbours (number c))
     (generatePhoneNumbers (λ i, i) config None None)) ∧
  (let config := {| pattern := "01________"; count := 1; contactNamePrefix := "X" |} in
   allowSequences (constraints config None) = false ∧
   Exists (λ c, number c = "0123568901" ∧ hasRun (number c))
     (generatePhoneNumbers (λ i, (i + 2)%nat) config None None)) ∧
  (let config := {| pattern := "21________"; count := 1; contactNamePrefix := "X" |} in
   allowSequences (constraints config None) = false ∧
   Exists (λ c, number c = "2101346790" ∧ hasRun (number c))
     (generatePhoneNumbers (λ i, i) config None None)).
Proof.
  split; [| split; [| split; [| split; [| split]]]].
  - intros rand options config1 config2 pos Hsame. rewrite <- Hsame.
    by apply slotLoop_numUnknowns.
  - intros rand config options excludeSet Hno.
    eapply Forall_impl; [apply generatePhoneNumbers_fromCandidate |].
    intros c (_ & Hadj & _)%fromCandidate_rules. by apply Hadj.
  - intros rand config options excludeSet Hno.
    eapply Forall_impl; [apply generatePhoneNumbers_fromCandidate |].
    intros c (_ & _ & Hrun)%fromCandidate_rules. by apply Hrun.
  - cbv zeta. split; [reflexivity |].
    assert (generatePhoneNumbers (λ i, i)
              {| pattern := "0_________"; count := 1; contactNamePrefix := "X" |} None None =
            [ {| id := "1"; number := "0013467901"; name := "X"; isSaved := Some false |} ])
      as -> by (by vm_compute).
    constructor. split; [reflexivity |]. by exists 0%nat, "0"%char.
  - cbv zeta. split; [reflexivity |].
    assert (generatePhoneNumbers (λ i, (i + 2)%nat)
              {| pattern := "01________"; count := 1; contactNamePrefix := "X" |} None None =
            [ {| id := "1"; number := "0123568901"; name := "X"; isSaved := Some false |} ])
      as -> by (by vm_compute).
    constructor. split; [reflexivity |].
    exists 0%nat, "0"%char, "1"%char, "2"%char. repeat split; try reflexivity.
    left. by vm_compute.
  - cbv zeta. split; [reflexivity |].
    assert (generatePhoneNumbers (λ i, i)
              {| pattern := "21________"; count := 1; contactNamePrefix := "X" |} None None =
            [ {| id := "1"; number := "2101346790"; name := "X"; isSaved := Some false |} ])
      as -> by (by vm_compute).
    constructor. split; [reflexivity |].
    exists 0%nat, "2"%char, "1"%char, "0"%char. repeat split; try reflexivity.
    right. by vm_compute.
Qed.

Lemma local_checks_ignore_fixed_digits_witness :
  let config1 := {| pattern := "0_________"; count := 3; contactNamePrefix := "X" |} in
  let config2 := {| pattern := "_____5____"; count := 3; contactNamePrefix := "X" |} in
  slotLoop sampleSource config1 None (numUnknowns config1) 0 [] ∅ 0 =
    slotLoop sampleSource config2 None (numUnknowns config2) 0 [] ∅ 0 ∧
  Forall (λ c, ∀ j a b,
             wildcardDigits config1 (number c) !! j = Some a →
             wildcardDigits config1 (number c) !! S j = Some b → a ≠ b)
    (generatePhoneNumbers sampleSource config1 None None) ∧
  Forall (λ c, ∀ j a b d,
             wildcardDigits config2 (number c) !! j = Some a →
             wildcardDigits config2 (number c) !! S j = Some b →
             wildcardDigits config2 (number c) !! S (S j) = Some d →
             ¬ isRun a b d)
    (generatePhoneNumbers sampleSource config2 None None).
Proof.
  intros config1 config2. split; [| split].
  - apply (proj1 local_checks_ignore_fixed_digits sampleSource None config1 config2 0%nat).
    reflexivity.
  - apply (proj1 (proj2 local_checks_ignore_fixed_digits) sampleSource config1 None None).
    reflexivity.
  - apply (proj1 (proj2 (proj2 local_checks_ignore_fixed_digits))
             sampleSource config2 None None).
    reflexivity.
Defined.

(** * Further properties of the generator *)

Section GeneratorMore.

Variable rand : nat → nat.
Variable config : GenerationConfig.
Variable options : option GenerationOptions.
Variable excludeSet : option (gset string).

Lemma whileLoop_name_flag :
  Forall (λ c, name c = contactNamePrefix config ∧ isSaved c = Some false)
    (results (whileLoop rand config options excludeSet (initialState excludeSet))).
Proof.
  apply (whileLoop_invariant rand config options excludeSet
           (λ st, Forall (λ c, name c = contactNamePrefix config ∧ isSaved c = Some false)
                    (results st))); [| constructor].
  intros st Hst _.
  destruct (loopBody_cases rand config options excludeSet st)
    as [_ [[-> _] | (cand & pos' & _ & _ & -> & _)]]; [done |].
  apply Forall_app. split; [done |]. by repeat constructor.
Qed.

Lemma generated_name_flag :
  Forall (λ c, name c = contactNamePrefix config ∧ isSaved c = Some false)
    (generatePhoneNumbers rand config options excludeSet).
Proof. rewrite generatePhoneNumbers_Permutation. apply whileLoop_name_flag. Qed.

(** The loop leaves either with the target reached or with the attempt
    budget used up. *)
Lemma whileLoop_exit :
  let final := whileLoop rand config options excludeSet (initialState excludeSet) in
  loopCond config excludeSet final = false ∧
  (0 ≤ attempts final ≤ Z.max 0 (maxAttempts config excludeSet))%Z ∧
  (Z.of_nat (length (results final)) ≤ Z.max 0 (targetCount config excludeSet))%Z.
Proof.
  intros final. subst final.
  destruct (whileLoop_iterates rand config options excludeSet (initialState excludeSet))
    as (n & Heq & _ & Hafter & Hle).
  split; [by rewrite Heq | split].
  - rewrite Heq. fold (stateAfter rand config options excludeSet n).
    rewrite stateAfter_attempts. simpl in Hle. lia.
  - apply whileLoop_sizeInv.
Qed.

Lemma retryLoop_pos retriesLeft k candidateDigits digitCounts : ∀ pos d pos',
  retryLoop rand config options retriesLeft k candidateDigits digitCounts pos = (d, pos') →
  (pos ≤ pos' ≤ pos + retriesLeft)%nat.
Proof.
  induction retriesLeft as [|n IH]; intros pos d pos'; cbn [retryLoop].
  - intros [= _ <-]. lia.
  - set (drawn := JS.toString (rand pos mod 10)).
    destruct (frequencyExceeded config options digitCounts drawn);
      [intros H%IH; lia |].
    destruct (repeatsPrevious config options candidateDigits k drawn);
      [intros H%IH; lia |].
    destruct (completesRun config options candidateDigits k drawn);
      [intros H%IH; lia |].
    intros [= _ <-]. lia.
Qed.

Lemma slotLoop_pos slotsLeft : ∀ k candidateDigits digitCounts pos finished pos',
  slotLoop rand config options slotsLeft k candidateDigits digitCounts pos = (finished, pos') →
  (pos ≤ pos' ≤ pos + 20 * slotsLeft)%nat.
Proof.
  induction slotsLeft as [|n IH]; intros k cand counts pos finished pos'; cbn [slotLoop].
  - intros [= _ <-]. lia.
  - destruct (retryLoop rand config options 20 k cand counts pos) as [[d|] pos1] eqn:Hretry;
      apply retryLoop_pos in Hretry.
    + intros H%IH. lia.
    + intros [= _ <-]. lia.
Qed.

Lemma loopBody_rngPos st :
  (rngPos st ≤ rngPos (loopBody rand config options excludeSet st)
   ≤ rngPos st + 20 * numUnknowns config)%nat.
Proof.
  unfold_loopBody.
  destruct (slotLoop rand config options (numUnknowns config) 0 [] ∅ (rngPos st))
    as [[cand|] pos'] eqn:Hslot; apply slotLoop_pos in Hslot.
  - by case_bool_decide.
  - done.
Qed.

Lemma whileLoop_rngPos :
  let final := whileLoop rand config options excludeSet (initialState excludeSet) in
  (Z.of_nat (rngPos final) ≤ attempts final * (20 * Z.of_nat (numUnknowns config)))%Z.
Proof.
  apply (whileLoop_invariant rand config options excludeSet
           (λ st, (0 ≤ attempts st)%Z ∧
                  (Z.of_nat (rngPos st) ≤ attempts st * (20 * Z.of_nat (numUnknowns config)))%Z)).
  - intros st [Hpos Hst] _. rewrite loopBody_attempts.
    pose proof (loopBody_rngPos st). split; [lia | nia].
  - simpl. lia.
Qed.

End GeneratorMore.

(** X1. Every returned entity carries the naming prefix of the call as its
    name, unchanged, and is marked as not saved. *)
Theorem generatePhoneNumbers_name_flag rand config options excludeSet :
  Forall (λ c, name c = contactNamePrefix config ∧ isSaved c = Some false)
    (generatePhoneNumbers rand config options excludeSet).
Proof. apply generated_name_flag. Qed.

(** X2. A call returns fewer entities than its target only after it has
    used the whole attempt budget [targetCount * 200 + 5000]; if it stops
    with a smaller number of attempts, it returns exactly [targetCount]
    entities (none when the target is negative). *)
Theorem generatePhoneNumbers_short_only_when_exhausted rand config options excludeSet :
  let final := whileLoop rand config options excludeSet (initialState excludeSet) in
  let returned := Z.of_nat (length (generatePhoneNumbers rand config options excludeSet)) in
  ((returned < targetCount config excludeSet)%Z →
   attempts final = (targetCount config excludeSet * 200 + 5000)%Z) ∧
  ((attempts final < targetCount config excludeSet * 200 + 5000)%Z →
   returned = Z.max 0 (targetCount config excludeSet)).
Proof.
  intros final returned.
  destruct (whileLoop_exit rand config options excludeSet) as (Hcond & Hatt & Hsize).
  fold final in Hcond, Hatt, Hsize.
  assert (returned = Z.of_nat (length (results final))) as Hret.
  { unfold returned. f_equal. apply Permutation_length, generatePhoneNumbers_Permutation. }
  unfold loopCond in Hcond. apply andb_false_iff in Hcond.
  rewrite !Z.ltb_ge in Hcond. unfold maxAttempts in *.
  clearbody final returned. split; intros H; lia.
Qed.

Lemma generatePhoneNumbers_short_only_when_exhausted_witness :
  let config := {| pattern := "051234567_"; count := 2; contactNamePrefix := "X" |} in
  length (generatePhoneNumbers (λ _, 1%nat) config None None) = 1%nat ∧
  attempts (whileLoop (λ _, 1%nat) config None None (initialState None)) = 5400%Z ∧
  Z.of_nat (length (generatePhoneNumbers sampleSource config None None)) = 2%Z.
Proof.
  intros config. split; [by vm_compute | split].
  - apply (proj1 (generatePhoneNumbers_short_only_when_exhausted (λ _, 1%nat) config None None)).
    by vm_compute.
  - apply (proj2 (generatePhoneNumbers_short_only_when_exhausted sampleSource config None None)).
    by vm_compute.
Defined.

(** X3. A call reads at most [20 * numUnknowns] random digits per attempt:
    the number of draws it makes is at most the number of attempts times
    [20 * numUnknowns], hence at most
    [max(0, targetCount * 200 + 5000) * 20 * numUnknowns]. *)
Theorem generatePhoneNumbers_draws_bounded rand config options excludeSet :
  let final := whileLoop rand config options excludeSet (initialState excludeSet) in
  (Z.of_nat (rngPos final) ≤ attempts final * (20 * Z.of_nat (numUnknowns config)))%Z ∧
  (Z.of_nat (rngPos final) ≤
   Z.max 0 (targetCount config excludeSet * 200 + 5000) *
   (20 * Z.of_nat (numUnknowns config)))%Z.
Proof.
  intros final.
  pose proof (whileLoop_rngPos rand config options excludeSet) as Hpos.
  destruct (whileLoop_exit rand config options excludeSet) as (_ & Hatt & _).
  fold final in Hpos, Hatt. unfold maxAttempts in Hatt.
  split; [exact Hpos |].
  etransitivity; [exact Hpos |]. apply Z.mul_le_mono_nonneg_r; lia.
Qed.

Section LooseTier.

Variable rand : nat → nat.
Variable config : GenerationConfig.
Variable options : option GenerationOptions.
Hypothesis loose : (0.7 < density options)%Q.

Lemma loose_constraints :
  constraints config options =
  {| maxDigitFreq := Z.of_nat (numUnknowns config);
     allowAdjacentDuplicates := true;
     allowSequences := true |}.
Proof.
  unfold constraints.
  destruct (Qle_bool (density options) 0.4) eqn:H4.
  { apply Qle_bool_iff in H4. exfalso.
    apply (Qlt_irrefl (density options)).
    eapply Qle_lt_trans; [exact H4 |]. eapply Qlt_trans; [| exact loose]. reflexivity. }
  destruct (Qle_bool (density options) 0.7) eqn:H7.
  { apply Qle_bool_iff in H7. exfalso.
    apply (Qlt_irrefl (density options)).
    eapply Qle_lt_trans; [exact H7 | exact loose]. }
  reflexivity.
Qed.

Lemma loose_first_draw retriesLeft k candidateDigits digitCounts pos :
  candInv (constraints config options) candidateDigits digitCounts →
  (length candidateDigits < numUnknowns config)%nat →
  retryLoop rand config options (S retriesLeft) k candidateDigits digitCounts pos =
  (Some (JS.toString (rand pos mod 10)), S pos).
Proof.
  intros (_ & Hcnt & _) Hlen. cbn [retryLoop]. unfold_checks.
  rewrite loose_constraints. cbn [maxDigitFreq allowAdjacentDuplicates allowSequences negb andb].
  rewrite Hcnt.
  pose proof (count_occ_bound string_dec (JS.toString (rand pos mod 10)) candidateDigits).
  destruct (Z.leb_spec (Z.of_nat (numUnknowns config))
              (Z.of_nat (count_occ string_dec candidateDigits
                           (JS.toString (rand pos mod 10))))); [lia | reflexivity].
Qed.

Lemma loose_slotLoop slotsLeft : ∀ k candidateDigits digitCounts pos,
  k = length candidateDigits →
  candInv (constraints config options) candidateDigits digitCounts →
  (k + slotsLeft ≤ numUnknowns config)%nat →
  slotLoop rand config options slotsLeft k candidateDigits digitCounts pos =
  (Some (candidateDigits ++
         map (λ i, JS.toString (rand (pos + i) mod 10)) (seq 0 slotsLeft)),
   (pos + slotsLeft)%nat).
Proof.
  induction slotsLeft as [|n IH]; intros k cand counts pos -> Hinv Hle; cbn [slotLoop].
  - simpl. by rewrite app_nil_r, Nat.add_0_r.
  - rewrite loose_first_draw by (done || lia).
    assert (candInv (constraints config options) (cand ++ [JS.toString (rand pos mod 10)])
              (<[JS.toString (rand pos mod 10) :=
                   (default 0 (counts !! JS.toString (rand pos mod 10)) + 1)%Z]> counts))
      as Hinv'.
    { pose proof (loose_first_draw 0 (length cand) cand counts pos Hinv ltac:(lia)) as Hd.
      apply retryLoop_Some in Hd as (Hdig & Hf & Ha & Hr). by apply candInv_step. }
    rewrite (IH (S (length cand)) (cand ++ [JS.toString (rand pos mod 10)]) _ (S pos));
      [| rewrite length_app; simpl; lia | exact Hinv' | lia].
    f_equal; [| lia]. f_equal. rewrite <- app_assoc. f_equal.
    simpl. rewrite Nat.add_0_r. f_equal.
    rewrite <- seq_shift, map_map. apply map_ext. intros i.
    by replace (pos + S i)%nat with (S pos + i)%nat by lia.
Qed.

End LooseTier.

(** X4. In the loose tier (density above 0.7) no draw is ever rejected by a
    local rule: every candidate takes exactly [numUnknowns] draws, and its
    digits are these draws in order. *)
Theorem loose_tier_takes_every_draw rand config options pos :
  (0.7 < density options)%Q →
  slotLoop rand config options (numUnknowns config) 0 [] ∅ pos =
  (Some (map (λ i, JS.toString (rand (pos + i) mod 10)) (seq 0 (numUnknowns config))),
   (pos + numUnknowns config)%nat).
Proof.
  intros Hloose.
  rewrite (loose_slotLoop rand config options Hloose (numUnknowns config) 0 [] ∅ pos);
    [done | done | apply candInv_nil | lia].
Qed.

Lemma loose_tier_takes_every_draw_witness :
  let config := {| pattern := "05________"; count := 1; contactNamePrefix := "X" |} in
  let options := Some {| repetitionDensity := 1 |} in
  slotLoop (λ _, 7%nat) config options (numUnknowns config) 0 [] ∅ 0 =
    (Some ["7"; "7"; "7"; "7"; "7"; "7"; "7"; "7"], 8%nat) ∧
  map number (generatePhoneNumbers (λ _, 7%nat) config options None) = ["0577777777"].
Proof.
  intros config options. split; [| by vm_compute].
  apply (loose_tier_takes_every_draw (λ _, 7%nat) config options 0%nat).
  by vm_compute.
Defined.

Lemma matchesChars_lookup p : ∀ v,
  length p = length v →
  (∀ i pc, p !! i = Some pc →
     ∃ vc, v !! i = Some vc ∧
           if (pc =? "_")%char then vc ∈ digitChars else vc = pc) →
  matchesChars p v = true.
Proof.
  induction p as [|pc p IH]; intros [|vc v] Hlen Hall; try done.
  simpl. destruct (Hall 0%nat pc eq_refl) as (vc' & [= <-] & Hvc).
  apply andb_true_iff. split.
  - destruct (pc =? "_")%char; [by apply bool_decide_eq_true | by apply Ascii.eqb_eq].
  - apply IH; [by injection Hlen |]. intros i c Hi. by apply (Hall (S i)).
Qed.

(** X5. Whatever the template is, also one that [validatePattern] rejects,
    every returned value lies in the value space of the template: it has the
    template's length, a digit at every wildcard position and the
    template's own character at every other position. *)
Theorem generatePhoneNumbers_in_value_space rand config options excludeSet :
  Forall (λ c, inValueSpace config (number c) = true)
    (generatePhoneNumbers rand config options excludeSet).
Proof.
  eapply Forall_impl; [apply generatePhoneNumbers_fromCandidate |].
  intros c (Hlen & Hfixed & _ & _ & Hwild & _)%fromCandidate_value.
  apply matchesChars_lookup.
  - by rewrite !length_list_ascii_of_string.
  - intros i pc Hi. destruct (Ascii.eqb_spec pc "_") as [-> | Hne].
    + destruct (Hwild i) as (ch & Hch & Hv); [by apply missingIndices_pattern |].
      by exists ch.
    + exists pc. split; [| done]. rewrite Hfixed; [done |].
      intros Hin%missingIndices_pattern. congruence.
Qed.

(** * The card formatter *)

Section Formatter.

Lemma string_app_cons x (a b : string) : String x a +:+ b = String x (a +:+ b).
Proof. reflexivity. Qed.

Lemma string_app_assoc (a b c : string) : (a +:+ b) +:+ c = a +:+ (b +:+ c).
Proof.
  induction a as [|x a IH]; [reflexivity |]. by rewrite !string_app_cons, IH.
Qed.

Lemma string_app_nil_r (a : string) : a +:+ "" = a.
Proof.
  induction a as [|x a IH]; [reflexivity |]. by rewrite string_app_cons, IH.
Qed.

Lemma list_ascii_of_string_app (a b : string) :
  list_ascii_of_string (a +:+ b) = list_ascii_of_string a ++ list_ascii_of_string b.
Proof.
  induction a as [|x a IH]; [reflexivity |]. rewrite string_app_cons. simpl. by rewrite IH.
Qed.

Lemma singleLine_app (a b : string) : singleLine a → singleLine b → singleLine (a +:+ b).
Proof.
  unfold singleLine. rewrite list_ascii_of_string_app, elem_of_app. tauto.
Qed.

(** The text is the lines of the cards, each followed by a line feed. *)
Lemma generateVCF_from (contacts : list GeneratedContact) : ∀ acc,
  foldl (λ vcfContent contact,
      ((((((vcfContent +:+ ("BEGIN:VCARD" +:+ newline))
            +:+ ("VERSION:3.0" +:+ newline))
           +:+ ("N:;" +:+ name contact +:+ ";;;" +:+ newline))
          +:+ ("FN:" +:+ name contact +:+ newline))
         +:+ ("TEL;TYPE=CELL:" +:+ number contact +:+ newline))
        +:+ ("END:VCARD" +:+ newline)))
    acc contacts =
  acc +:+ foldr (λ line rest, line +:+ newline +:+ rest) "" (flat_map cardLines contacts).
Proof.
  induction contacts as [|c contacts IH]; intros acc; simpl foldl.
  - simpl. by rewrite string_app_nil_r.
  - rewrite IH. cbn [flat_map cardLines app foldr].
    rewrite !string_app_assoc. reflexivity.
Qed.

Lemma generateVCF_lines contacts :
  generateVCF contacts =
  foldr (λ line rest, line +:+ newline +:+ rest) "" (flat_map cardLines contacts).
Proof. unfold generateVCF. by rewrite generateVCF_from. Qed.

Lemma splitOn_nonempty sep s : splitOn sep s ≠ [].
Proof.
  induction s as [|c s IH]; simpl; [done |].
  destruct (c =? sep)%char; [done |]. by destruct (splitOn sep s).
Qed.

Lemma splitOn_line (line rest : string) :
  singleLine line →
  splitOn "010" (line +:+ newline +:+ rest) = line :: splitOn "010" rest.
Proof.
  unfold singleLine. induction line as [|c line IH]; intros Hline; [reflexivity |].
  simpl in Hline. apply not_elem_of_cons in Hline as [Hc Hline].
  change (String c line +:+ newline +:+ rest) with (String c (line +:+ newline +:+ rest)).
  cbn [splitOn]. destruct (Ascii.eqb_spec c "010"); [done |].
  by rewrite IH.
Qed.

Lemma splitOn_lines (lines : list string) :
  Forall singleLine lines →
  splitOn "010" (foldr (λ line rest, line +:+ newline +:+ rest) "" lines) = lines ++ [""].
Proof.
  induction 1 as [|line lines Hline _ IH]; [reflexivity |].
  cbn [foldr]. by rewrite splitOn_line, IH.
Qed.

Lemma cardLines_singleLine c :
  singleLine (name c) → singleLine (number c) → Forall singleLine (cardLines c).
Proof.
  intros Hname Hnumber. unfold cardLines.
  assert (∀ s, "010"%char ∉ list_ascii_of_string s → singleLine s) as Hlit by done.
  repeat constructor; try (apply Hlit; by apply (bool_decide_unpack _));
    repeat apply singleLine_app; try done; apply Hlit; by apply (bool_decide_unpack _).
Qed.

Lemma stripPrefix_app (prefix s : string) : stripPrefix prefix (prefix +:+ s) = Some s.
Proof.
  induction prefix as [|p prefix IH]; [by destruct s |].
  rewrite string_app_cons. simpl. by rewrite Ascii.eqb_refl.
Qed.

Lemma telNumbers_cards contacts :
  omap (stripPrefix "TEL;TYPE=CELL:") (flat_map cardLines contacts ++ [""]) =
  map number contacts.
Proof.
  induction contacts as [|c contacts IH]; [reflexivity |].
  cbn [flat_map cardLines app]. cbn [omap list_omap].
  change (stripPrefix "TEL;TYPE=CELL:" "BEGIN:VCARD") with (@None string).
  change (stripPrefix "TEL;TYPE=CELL:" "VERSION:3.0") with (@None string).
  change (stripPrefix "TEL;TYPE=CELL:" ("N:;" +:+ name c +:+ ";;;")) with (@None string).
  change (stripPrefix "TEL;TYPE=CELL:" ("FN:" +:+ name c)) with (@None string).
  change (stripPrefix "TEL;TYPE=CELL:" "END:VCARD") with (@None string).
  rewrite stripPrefix_app. cbn [map]. f_equal. exact IH.
Qed.

End Formatter.

(** X6. When no name and no number holds a line feed, the text
    [generateVCF] builds consists of the six lines of each contact's card,
    in the order of the list, every line ended by a line feed; read back,
    its phone lines give the numbers of the contacts in order. *)
Theorem generateVCF_round_trip contacts :
  Forall (λ c, singleLine (name c) ∧ singleLine (number c)) contacts →
  splitOn "010" (generateVCF contacts) = flat_map cardLines contacts ++ [""] ∧
  telNumbers (generateVCF contacts) = map number contacts.
Proof.
  intros Hall.
  assert (splitOn "010" (generateVCF contacts) = flat_map cardLines contacts ++ [""]) as Hlines.
  { rewrite generateVCF_lines. apply splitOn_lines.
    induction Hall as [|c contacts [Hname Hnumber] _ IH]; [constructor |].
    cbn [flat_map]. apply Forall_app. split; [by apply cardLines_singleLine | exact IH]. }
  split; [exact Hlines |].
  unfold telNumbers. rewrite Hlines. apply telNumbers_cards.
Qed.

Lemma generateVCF_round_trip_witness :
  let contacts := [ {| id := "0001"; number := "0531415912"; name := "0001 T"; isSaved := None |};
                    {| id := "0002"; number := "0565358917"; name := "0002 T"; isSaved := None |} ] in
  splitOn "010" (generateVCF contacts) = flat_map cardLines contacts ++ [""] ∧
  telNumbers (generateVCF contacts) = ["0531415912"; "0565358917"].
Proof.
  intros contacts. apply (generateVCF_round_trip contacts).
  repeat constructor; by apply (bool_decide_unpack _).
Defined.

(** X7. The text of a list is the text of its first part followed by the
    text of the rest: saving batches one after the other and saving their
    concatenation give the same cards; the empty list gives the empty
    text. *)
Theorem generateVCF_app (contacts1 contacts2 : list GeneratedContact) :
  generateVCF (contacts1 ++ contacts2) = generateVCF contacts1 +:+ generateVCF contacts2 ∧
  generateVCF [] = "".
Proof.
  split; [| reflexivity].
  rewrite !generateVCF_lines, flat_map_app, foldr_app.
  generalize (flat_map cardLines contacts1) as lines1.
  induction lines1 as [|line lines1 IH]; [reflexivity |].
  cbn [foldr]. by rewrite IH, !string_app_assoc.
Qed.

(** * The slot grid *)

Section Slots.

Lemma pushUnderscores_replicate missing : ∀ arr,
  pushUnderscores missing arr = arr ++ replicate missing "_".
Proof.
  induction missing as [|n IH]; intros arr; simpl; [by rewrite app_nil_r |].
  by rewrite IH, <- app_assoc.
Qed.

Lemma length_string_of_list_ascii l : String.length (string_of_list_ascii l) = length l.
Proof. induction l as [|c l IH]; simpl; [reflexivity | by rewrite IH]. Qed.

(** Writing a one-character string into a slot inside the pattern is
    replacing that character. *)
Lemma setSlot_chars (pattern : string) (j : nat) (c : ascii) :
  (j < String.length pattern)%nat →
  JS.join "" (arraySet (JS.split pattern) j (JS.charString c)) =
  string_of_list_ascii (<[j := c]> (list_ascii_of_string pattern)).
Proof.
  intros Hj. unfold arraySet, JS.split. rewrite length_map, length_list_ascii_of_string.
  destruct (Nat.ltb_spec j (String.length pattern)) as [_ | ?]; [| lia].
  by rewrite <- list_fmap_insert, join_charStrings.
Qed.

Lemma isSlotChar_charString (char : string) :
  isSlotChar char = true → ∃ c, char = JS.charString c ∧ inClass c = true.
Proof.
  destruct char as [|c [|c' rest]]; simpl; try done. intros Hc. by exists c.
Qed.

Lemma insert_allowed (l : list ascii) j c :
  Forall (λ x, x ∈ allowedChars) l → inClass c = true →
  Forall (λ x, x ∈ allowedChars) (<[j := c]> l).
Proof.
  intros Hl Hc. apply Forall_insert; [done |].
  rewrite inClass_allowed in Hc. by apply bool_decide_eq_true in Hc.
Qed.

(** The character [handlePatternSlotChange] takes from the typed text. *)
Lemma typed_char (value : string) :
  (let char := if (1 <? String.length value)%nat then sliceLast value else value in
   if bool_decide (char = "") then "_" else char) =
  match list_ascii_of_string value with
  | [] => "_"
  | [c] => JS.charString c
  | _ :: _ :: _ => JS.charString (default "_"%char (last (list_ascii_of_string value)))
  end.
Proof.
  destruct value as [|c [|c' rest]]; try reflexivity.
  cbv zeta. change (1 <? String.length (String c (String c' rest)))%nat with true.
  cbv iota. unfold sliceLast.
  destruct (last (list_ascii_of_string (String c (String c' rest)))) as [x|] eqn:Hlast.
  - simpl. reflexivity.
  - by apply last_None in Hlast.
Qed.

End Slots.

Section SlotEffects.

Lemma typed_char_last (value : string) :
  (let char := if (1 <? String.length value)%nat then sliceLast value else value in
   if bool_decide (char = "") then "_" else char) =
  JS.charString (default "_"%char (last (list_ascii_of_string value))).
Proof.
  rewrite typed_char. by destruct value as [|c [|c' rest]].
Qed.

Lemma handlePatternSlotChange_cases (pattern : string) (index : nat) (value : string) :
  (index < 10)%nat →
  let typed := default "_"%char (last (list_ascii_of_string value)) in
  handlePatternSlotChange pattern index value =
  if (2 <=? index)%nat && inClass typed then
    {| patternSet :=
         Some (string_of_list_ascii
                 (<[index := typed]>
                    (list_ascii_of_string pattern ++
                     replicate (10 - String.length pattern) "_"%char)));
       focused := if (index <? 9)%nat then Some (index + 1)%nat else None;
       defaultPrevented := false |}
  else noEffect.
Proof.
  intros Hindex typed. unfold handlePatternSlotChange.
  destruct (Nat.ltb_spec index 2) as [Hlt | Hge].
  { destruct (Nat.leb_spec 2 index); [lia | reflexivity]. }
  destruct (Nat.leb_spec 2 index) as [_ | ?]; [| lia].
  rewrite typed_char_last. fold typed.
  change (isSlotChar (JS.charString typed)) with (inClass typed).
  destruct (inClass typed) eqn:Hclass; [| reflexivity].
  cbn [negb andb]. rewrite andb_true_r. f_equal. f_equal.
  rewrite pushUnderscores_replicate. unfold JS.split.
  rewrite length_map, length_list_ascii_of_string.
  change (replicate (10 - String.length pattern) "_")
    with (replicate (10 - String.length pattern) (JS.charString "_")).
  rewrite <- (fmap_replicate JS.charString), <- fmap_app.
  unfold arraySet. rewrite length_fmap, length_app, length_replicate,
    length_list_ascii_of_string.
  destruct (Nat.ltb_spec index (String.length pattern + (10 - String.length pattern)));
    [| lia].
  by rewrite <- list_fmap_insert, join_charStrings.
Qed.

Lemma handleKeyDown_cases (pattern : string) (index : nat) (key : Key) :
  String.length pattern = 10%nat → (index < 10)%nat →
  patternAfter pattern (handleKeyDown pattern index key) = pattern ∨
  ∃ j, (2 ≤ j < 10)%nat ∧ (j = index ∨ S j = index) ∧
       patternAfter pattern (handleKeyDown pattern index key) =
       string_of_list_ascii (<[j := "_"%char]> (list_ascii_of_string pattern)).
Proof.
  intros Hlen Hindex. destruct key; cbn [handleKeyDown];
    try (left; by repeat (case_match; try done)).
  destruct (Nat.ltb_spec index 2) as [Hlt | Hge]; [by left |].
  case_bool_decide as Hchar; cbn [andb negb].
  - destruct (Nat.ltb_spec 2 index) as [Hgt | Hle]; [| by left].
    right. exists (index - 1)%nat. split; [lia | split; [lia |]].
    unfold patternAfter. cbn [patternSet default from_option].
    apply (setSlot_chars pattern (index - 1) "_"). lia.
  - right. exists index. split; [lia | split; [by left |]].
    unfold patternAfter. cbn [patternSet default from_option].
    apply (setSlot_chars pattern index "_"). lia.
Qed.

(** What an event on one of the ten slots can do to a pattern of ten
    characters: nothing, or replace the character of one slot from 2 on by
    a digit or the wildcard. *)
Lemma afterEvent_cases (pattern : string) (event : SlotEvent) :
  String.length pattern = 10%nat → (slotOf event < 10)%nat →
  afterEvent pattern event = pattern ∨
  ∃ j c, (2 ≤ j < 10)%nat ∧ inClass c = true ∧
         afterEvent pattern event =
         string_of_list_ascii (<[j := c]> (list_ascii_of_string pattern)).
Proof.
  intros Hlen Hslot. destruct event as [index value | index key]; simpl in Hslot.
  - cbn [afterEvent]. rewrite handlePatternSlotChange_cases by done.
    destruct (Nat.leb_spec 2 index) as [Hge | Hlt]; [| by left].
    destruct (inClass _) eqn:Hclass; [| by left].
    right. eexists index, _. split; [lia | split; [exact Hclass |]].
    cbn [andb]. unfold patternAfter. cbn [patternSet default from_option].
    rewrite Hlen. simpl replicate. by rewrite app_nil_r.
  - cbn [afterEvent]. destruct (handleKeyDown_cases pattern index key Hlen Hslot)
      as [-> | (j & Hj & _ & ->)]; [by left |].
    right. by exists j, "_"%char.
Qed.

Lemma afterEvent_well_formed (pattern : string) (event : SlotEvent) :
  String.length pattern = 10%nat → (slotOf event < 10)%nat →
  Forall (λ c, c ∈ allowedChars) (list_ascii_of_string pattern) →
  String.length (afterEvent pattern event) = 10%nat ∧
  Forall (λ c, c ∈ allowedChars) (list_ascii_of_string (afterEvent pattern event)) ∧
  take 2 (list_ascii_of_string (afterEvent pattern event)) =
  take 2 (list_ascii_of_string pattern).
Proof.
  intros Hlen Hslot Hallowed.
  destruct (afterEvent_cases pattern event Hlen Hslot) as [-> | (j & c & Hj & Hc & ->)];
    [done |].
  rewrite length_string_of_list_ascii, list_ascii_of_string_of_list_ascii, length_insert,
    length_list_ascii_of_string.
  split; [done | split; [by apply insert_allowed |]].
  by rewrite take_insert_ge by lia.
Qed.

End SlotEffects.

(** X8. Typing into one of the ten slots: the character taken is the last
    one of the typed text, or the wildcard when the text is empty.  On a
    slot from 2 on, if it is a digit or the wildcard, exactly that slot of
    the pattern (padded with wildcards to ten characters if it was shorter)
    is replaced and the focus moves to the next slot, if there is one; in
    every other case, in particular on the slots 0 and 1, nothing
    happens. *)
Theorem handlePatternSlotChange_effect (pattern : string) (index : nat) (value : string) :
  (index < 10)%nat →
  let typed := default "_"%char (last (list_ascii_of_string value)) in
  handlePatternSlotChange pattern index value =
  if (2 <=? index)%nat && inClass typed then
    {| patternSet :=
         Some (string_of_list_ascii
                 (<[index := typed]>
                    (list_ascii_of_string pattern ++
                     replicate (10 - String.length pattern) "_"%char)));
       focused := if (index <? 9)%nat then Some (index + 1)%nat else None;
       defaultPrevented := false |}
  else noEffect.
Proof. apply handlePatternSlotChange_cases. Qed.

Lemma handlePatternSlotChange_effect_witness :
  handlePatternSlotChange "05______" 4 "x7" =
  {| patternSet := Some "05__7_____"; focused := Some 5%nat; defaultPrevented := false |}.
Proof.
  rewrite (handlePatternSlotChange_effect "05______" 4 "x7") by lia. reflexivity.
Defined.

(** X9. Starting from a pattern of ten characters that are digits or
    wildcards, any sequence of changes and key presses on the ten slots
    leaves a pattern of ten such characters with the same first two
    characters; so the only failure [validatePattern] can report on it is
    the one for a pattern without wildcard. *)
Theorem slot_grid_keeps_pattern_well_formed (events : list SlotEvent) (pattern : string)
    (options : option GenerationOptions) :
  Forall (λ event, (slotOf event < 10)%nat) events →
  String.length pattern = 10%nat →
  Forall (λ c, c ∈ allowedChars) (list_ascii_of_string pattern) →
  let edited := foldl afterEvent pattern events in
  String.length edited = 10%nat ∧
  Forall (λ c, c ∈ allowedChars) (list_ascii_of_string edited) ∧
  take 2 (list_ascii_of_string edited) = take 2 (list_ascii_of_string pattern) ∧
  (validatePattern (Some edited) options = None ∨
   validatePattern (Some edited) options = Some (message NoVariableSlots)).
Proof.
  intros Hevents Hlen Hallowed edited.
  assert (String.length edited = 10%nat ∧
          Forall (λ c, c ∈ allowedChars) (list_ascii_of_string edited) ∧
          take 2 (list_ascii_of_string edited) = take 2 (list_ascii_of_string pattern))
    as (Hl & Ha & Ht).
  { subst edited. revert pattern Hlen Hallowed.
    induction Hevents as [|event events Hevent _ IH]; intros pattern Hlen Hallowed; [done |].
    destruct (afterEvent_well_formed pattern event Hlen Hevent Hallowed) as (Hl & Ha & Ht).
    cbn [foldl]. destruct (IH _ Hl Ha) as (Hl' & Ha' & Ht').
    split; [done | split; [done | congruence]]. }
  split; [done | split; [done | split; [done |]]].
  rewrite validatePattern_length_10 by done.
  assert (matchInvalid edited = None) as ->.
  { apply matchInvalid_None. intros c Hc. by apply (proj1 (Forall_forall _ _) Ha). }
  destruct (JS.includes edited "_"); [by left | by right].
Qed.

Lemma slot_grid_keeps_pattern_well_formed_witness :
  let events := [Change 2 "7"; Change 3 "12"; KeyDown 4 Backspace; Change 0 "9";
                 KeyDown 9 ArrowRight; Change 9 "a"] in
  foldl afterEvent "05________" events = "057_______" ∧
  validatePattern (Some (foldl afterEvent "05________" events)) None = None.
Proof.
  intros events. split; [by vm_compute |].
  destruct (slot_grid_keeps_pattern_well_formed events "05________" None)
    as (_ & _ & _ & [H | H]).
  - repeat constructor.
  - reflexivity.
  - apply (bool_decide_unpack _). by vm_compute.
  - exact H.
  - by vm_compute in H.
Defined.

(** X10. Typing a digit into an empty slot and pressing Backspace on that
    slot gives the pattern back: the key undoes the change. *)
Theorem backspace_undoes_typed_digit (pattern : string) (index : nat) (digit : ascii) :
  String.length pattern = 10%nat →
  (2 ≤ index < 10)%nat →
  list_ascii_of_string pattern !! index = Some "_"%char →
  digit ∈ digitChars →
  afterEvent (afterEvent pattern (Change index (JS.charString digit)))
    (KeyDown index Backspace) = pattern.
Proof.
  intros Hlen Hindex Hempty Hdigit.
  assert (inClass digit = true ∧ digit ≠ "_"%char) as [Hclass Hne].
  { apply list_elem_of_In in Hdigit. unfold digitChars in Hdigit. simpl in Hdigit.
    repeat (destruct Hdigit as [<- | Hdigit]; [by split |]). done. }
  assert (afterEvent pattern (Change index (JS.charString digit)) =
          string_of_list_ascii (<[index := digit]> (list_ascii_of_string pattern))) as ->.
  { cbn [afterEvent]. rewrite handlePatternSlotChange_cases by lia. cbv zeta.
    change (default "_"%char (last (list_ascii_of_string (JS.charString digit))))
      with digit.
    destruct (Nat.leb_spec 2 index); [| lia]. rewrite Hclass. cbn [andb].
    unfold patternAfter. cbn [patternSet default from_option].
    rewrite Hlen. simpl replicate. by rewrite app_nil_r. }
  set (typed := string_of_list_ascii (<[index := digit]> (list_ascii_of_string pattern))).
  assert (list_ascii_of_string typed = <[index := digit]> (list_ascii_of_string pattern))
    as Htyped by apply list_ascii_of_string_of_list_ascii.
  assert (String.length typed = 10%nat) as Htlen.
  { by rewrite <- length_list_ascii_of_string, Htyped, length_insert,
      length_list_ascii_of_string. }
  cbn [afterEvent handleKeyDown].
  destruct (Nat.ltb_spec index 2); [lia |].
  assert (list_ascii_of_string typed !! index = Some digit) as Hd.
  { rewrite Htyped. apply list_lookup_insert_eq. rewrite length_list_ascii_of_string. lia. }
  rewrite Hd. rewrite bool_decide_eq_false_2 by congruence. cbn [andb negb].
  unfold patternAfter. cbn [patternSet default from_option].
  etransitivity; [apply (setSlot_chars typed index "_"); lia |].
  rewrite Htyped, list_insert_insert_eq.
  rewrite list_insert_id by done. apply string_of_list_ascii_of_string.
Qed.

Lemma backspace_undoes_typed_digit_witness :
  afterEvent (afterEvent "057_______" (Change 3 "4")) (KeyDown 3 Backspace) = "057_______".
Proof.
  apply (backspace_undoes_typed_digit "057_______" 3 "4"); try done; try lia.
  by apply (bool_decide_unpack _).
Defined.

(** * The count field and the checks before a generation *)

Section FormChecks.

Lemma dropWhile_nil {A} (f : A → bool) (l : list A) :
  dropWhile f l = [] ↔ Forall (λ x, f x = true) l.
Proof.
  induction l as [|x l IH]; simpl; [by split; [constructor |] |].
  destruct (f x) eqn:Hx.
  - rewrite IH. split; [by constructor | by inversion 1].
  - split; [done | inversion 1; congruence].
Qed.

Lemma dropWhile_keeps_last {A} (f : A → bool) (l : list A) x :
  f x = false → dropWhile f (l ++ [x]) ≠ [].
Proof.
  intros Hx. induction l as [|y l IH]; simpl; [by rewrite Hx |].
  by destruct (f y).
Qed.

Lemma string_of_list_ascii_nil l : string_of_list_ascii l = "" ↔ l = [].
Proof. by destruct l. Qed.

(** [trim] leaves nothing exactly of the strings made of white space. *)
Lemma trim_empty (s : string) :
  trim s = "" ↔ Forall (λ c, isWhiteSpace c = true) (list_ascii_of_string s).
Proof.
  unfold trim. rewrite string_of_list_ascii_nil, <- dropWhile_nil.
  destruct (dropWhile isWhiteSpace (list_ascii_of_string s)) as [|x r] eqn:Hdrop;
    [done |].
  split; [| done]. intros Hrev. exfalso.
  assert (isWhiteSpace x = false) as Hx.
  { clear Hrev. induction (list_ascii_of_string s) as [|y l IH]; simpl in Hdrop; [done |].
    destruct (isWhiteSpace y) eqn:Hy; [by apply IH | congruence]. }
  apply (f_equal (@rev ascii)) in Hrev. rewrite rev_involutive in Hrev. simpl in Hrev.
  by apply (dropWhile_keeps_last isWhiteSpace (rev r) x Hx).
Qed.

Lemma handleCountChange_step parsed count value :
  (∀ n, count = Some n → (0 ≤ n ≤ 10000)%Z) →
  ∀ n, handleCountChange parsed count value = Some n → (0 ≤ n ≤ 10000)%Z.
Proof.
  intros Hcount n. unfold handleCountChange. case_bool_decide; [done |].
  destruct parsed as [val|]; [| apply Hcount].
  destruct (Z.ltb_spec 10000 val); [intros [= <-]; lia |].
  destruct (Z.ltb_spec val 0); intros [= <-]; lia.
Qed.

End FormChecks.

(** X11. Whatever is typed into the count field and whatever [parseInt]
    makes of it, the count the form holds, empty at the start, is either
    empty or an integer from 0 to 10000: a parsed number is brought into
    this range, the empty text empties the field, and a text that does not
    parse leaves the field as it was. *)
Theorem handleCountChange_keeps_range (inputs : list (option Z * string)) :
  let count := foldl (λ count input, handleCountChange input.1 count input.2) None inputs in
  (∀ n, count = Some n → (0 ≤ n ≤ 10000)%Z) ∧
  (∀ parsed value,
     handleCountChange parsed count value =
     if bool_decide (value = "") then None
     else match parsed with
          | Some val => Some (Z.max 0 (Z.min val 10000))
          | None => count
          end).
Proof.
  intros count. split.
  - subst count.
    assert (∀ start, (∀ n, start = Some n → (0 ≤ n ≤ 10000)%Z) →
              ∀ n, foldl (λ count input, handleCountChange input.1 count input.2)
                     start inputs = Some n → (0 ≤ n ≤ 10000)%Z) as Hfold.
    { induction inputs as [|[parsed value] inputs IH]; intros start Hstart; [done |].
      cbn [foldl]. apply IH. by apply handleCountChange_step. }
    by apply Hfold.
  - intros parsed value. unfold handleCountChange. case_bool_decide; [done |].
    destruct parsed as [val|]; [| done].
    destruct (Z.ltb_spec 10000 val); [f_equal; lia |].
    destruct (Z.ltb_spec val 0); f_equal; lia.
Qed.

Lemma handleCountChange_keeps_range_witness :
  let inputs := [(Some 25000%Z, "25000"); (None, "abc"); (Some (-3)%Z, "-3"); (None, "x")] in
  foldl (λ count input, handleCountChange input.1 count input.2) None inputs = Some 0%Z ∧
  (0 ≤ 0 ≤ 10000)%Z.
Proof.
  intros inputs. split; [reflexivity |].
  apply (proj1 (handleCountChange_keeps_range inputs) 0%Z). reflexivity.
Defined.

(** X12. [validateInputs] reports a pattern failure before a count failure,
    and a count failure before a missing name.  It lets a generation start
    only when [validatePattern] accepts the pattern, the count is from 1 to
    10000 and the name prefix holds a code unit other than 9 to 13, 32 and
    160, which [trim] strips.  It does let it start when the pattern is
    accepted, the count is in that range and the prefix holds a visible
    ASCII character (a code unit from 33 to 126); and with an accepted
    pattern and a count in range it reports the missing name when the
    prefix is empty or made of the code units 9 to 13, 32 and 160 only.
    Nothing is said of a prefix whose only other code units are above
    126. *)
Theorem validateInputs_passes (form : Form) :
  (validateInputs form = None →
   validatePattern (Some (formPattern form)) (formOptions form) = None ∧
   (1 ≤ countNumber form ≤ 10000)%Z ∧
   ∃ c, c ∈ list_ascii_of_string (formPrefix form) ∧
        nat_of_ascii c ∉ [9; 10; 11; 12; 13; 32; 160]%nat) ∧
  (validatePattern (Some (formPattern form)) (formOptions form) = None →
   (1 ≤ countNumber form ≤ 10000)%Z →
   (∃ c, c ∈ list_ascii_of_string (formPrefix form) ∧
         (33 ≤ nat_of_ascii c ≤ 126)%nat) →
   validateInputs form = None) ∧
  (validatePattern (Some (formPattern form)) (formOptions form) = None →
   (1 ≤ countNumber form ≤ 10000)%Z →
   Forall (λ c, nat_of_ascii c ∈ [9; 10; 11; 12; 13; 32; 160]%nat)
     (list_ascii_of_string (formPrefix form)) →
   validateInputs form = Some "يرجى إدخال اسم لتمييز جهات الاتصال.") ∧
  (∀ patternError,
     validatePattern (Some (formPattern form)) (formOptions form) = Some patternError →
     validateInputs form = Some patternError) ∧
  (validatePattern (Some (formPattern form)) (formOptions form) = None →
   ¬ (1 ≤ countNumber form ≤ 10000)%Z →
   validateInputs form = Some "العدد يجب أن يكون بين 1 و 10000.").
Proof.
  unfold validateInputs.
  destruct (validatePattern (Some (formPattern form)) (formOptions form)) as [e|].
  { repeat split; done. }
  destruct (Z.leb_spec (countNumber form) 0) as [Hle | Hgt]; cbn [orb].
  { repeat split; try done; intros; lia. }
  destruct (Z.ltb_spec 10000 (countNumber form)) as [Hbig | Hsmall].
  { repeat split; try done; intros; lia. }
  assert (∀ c, isWhiteSpace c = true ↔ nat_of_ascii c ∈ [9; 10; 11; 12; 13; 32; 160]%nat)
    as Hws.
  { intros c. unfold isWhiteSpace. apply bool_decide_eq_true. }
  case_bool_decide as Htrim.
  - apply trim_empty in Htrim.
    split; [done |]. split; [| split; [done | split; [done | intros _ Hnot; lia]]].
    intros _ _ (c & Hc & Hvisible). exfalso.
    pose proof (proj1 (Forall_forall _ _) Htrim c Hc) as Hc'. apply Hws in Hc'.
    set_unfold in Hc'. lia.
  - rewrite trim_empty in Htrim.
    split; [| split; [done | split; [| split; [done | intros _ Hnot; lia]]]].
    + intros _. split; [done |]. split; [lia |].
      apply not_Forall_Exists in Htrim; [| intros c; apply _].
      apply Exists_exists in Htrim as (c & Hc & Hnws).
      exists c. split; [done |]. by rewrite <- Hws.
    + intros _ _ Hall. exfalso. apply Htrim.
      eapply Forall_impl; [exact Hall |]. intros c. apply Hws.
Qed.

Lemma validateInputs_passes_witness :
  let form := {| formPattern := "05______1_"; formCount := Some 3%Z; formPrefix := " T";
                 showAdvanced := false; formDensity := 0.3 |} in
  let blank := {| formPattern := "05______1_"; formCount := Some 3%Z;
                  formPrefix := String "009" " "; showAdvanced := false;
                  formDensity := 0.3 |} in
  validateInputs form = None ∧
  (∃ c, c ∈ list_ascii_of_string (formPrefix form) ∧
        nat_of_ascii c ∉ [9; 10; 11; 12; 13; 32; 160]%nat) ∧
  validateInputs blank = Some "يرجى إدخال اسم لتمييز جهات الاتصال." ∧
  validateInputs {| formPattern := "0512345678"; formCount := None; formPrefix := "";
                    showAdvanced := true; formDensity := 0.3 |} =
    Some (message NoVariableSlots) ∧
  validateInputs {| formPattern := "05______1_"; formCount := None; formPrefix := "";
                    showAdvanced := true; formDensity := 0.3 |} =
    Some "العدد يجب أن يكون بين 1 و 10000.".
Proof.
  intros form blank.
  assert (validateInputs form = None) as Hpass.
  { apply (proj1 (proj2 (validateInputs_passes form))).
    - reflexivity.
    - split; by vm_compute.
    - exists "T"%char. split; [by apply (bool_decide_unpack _) |].
      change (nat_of_ascii "T") with 84%nat. lia. }
  split; [exact Hpass |]. split; [| split; [| split]].
  - by apply (proj1 (validateInputs_passes form)).
  - apply (proj1 (proj2 (proj2 (validateInputs_passes blank)))).
    + reflexivity.
    + split; by vm_compute.
    + repeat constructor; by apply (bool_decide_unpack _).
  - apply (proj1 (proj2 (proj2 (proj2 (validateInputs_passes _))))). reflexivity.
  - apply (proj2 (proj2 (proj2 (proj2 (validateInputs_passes _))))); [reflexivity |].
    intros [H _]. by vm_compute in H.
Defined.

(** * The contact list *)

Section Serial.

Lemma digitValue_pretty_N_char (d : N) :
  (d < 10)%N → digitValue (pretty_N_char d) = Z.of_N d.
Proof.
  intros Hd.
  assert (d = 0 ∨ d = 1 ∨ d = 2 ∨ d = 3 ∨ d = 4 ∨ d = 5 ∨ d = 6 ∨ d = 7 ∨ d = 8 ∨ d = 9)%N
    as Hcases by lia.
  repeat (destruct Hcases as [-> | Hcases]; [reflexivity |]). by subst.
Qed.

Lemma decimal_pretty_N_go (x : N) : ∀ s,
  fold_left (λ acc c, acc * 10 + digitValue c)%Z
    (list_ascii_of_string (pretty_N_go x s)) 0%Z =
  (Z.of_N x * 10 ^ Z.of_nat (String.length s) +
   fold_left (λ acc c, acc * 10 + digitValue c)%Z (list_ascii_of_string s) 0)%Z.
Proof.
  induction (N.lt_wf_0 x) as [x _ IH]. intros s.
  destruct (decide (x = 0%N)) as [-> | Hx].
  - rewrite pretty_N_go_0. lia.
  - rewrite pretty_N_go_step by lia. rewrite IH by (apply N.div_lt; lia).
    cbn [String.length list_ascii_of_string fold_left].
    rewrite (fold_decimal_acc (list_ascii_of_string s) (0 * 10 + digitValue _)).
    rewrite digitValue_pretty_N_char by (apply N.mod_lt; lia).
    rewrite length_list_ascii_of_string.
    replace (Z.of_nat (S (String.length s))) with (Z.succ (Z.of_nat (String.length s)))
      by lia.
    rewrite Z.pow_succ_r by lia.
    pose proof (N.div_mod x 10 ltac:(lia)) as Hdm.
    assert (Z.of_N x = 10 * Z.of_N (x `div` 10) + Z.of_N (x `mod` 10))%Z as -> by lia.
    lia.
Qed.

(** Reading the decimal string of a number gives the number back. *)
Lemma decimalValue_toString (n : nat) : decimalValue (JS.toString n) = Z.of_nat n.
Proof.
  unfold decimalValue, JS.toString, pretty, pretty_nat, pretty, pretty_N.
  case_decide as Hn.
  - assert (n = 0%nat) as -> by lia. reflexivity.
  - rewrite decimal_pretty_N_go. simpl. lia.
Qed.

Lemma decimalValue_padStart (k : nat) (s : string) :
  decimalValue (padStart k "0" s) = decimalValue s.
Proof.
  unfold decimalValue, padStart. rewrite list_ascii_of_string_app,
    list_ascii_of_string_of_list_ascii, fold_left_app.
  f_equal. induction (k - String.length s)%nat as [|m IH]; [reflexivity |].
  cbn [replicate fold_left]. exact IH.
Qed.

Lemma decimalValue_serial (index : nat) : decimalValue (serial index) = Z.of_nat (index + 1).
Proof. unfold serial. by rewrite decimalValue_padStart, decimalValue_toString. Qed.

Lemma serial_inj (i j : nat) : serial i = serial j → i = j.
Proof.
  intros H. apply (f_equal decimalValue) in H. rewrite !decimalValue_serial in H. lia.
Qed.

End Serial.

(** * What the validator's text carries *)

Section ValidatorText.

Lemma pretty_N_char_digit (d : N) : (d < 10)%N → pretty_N_char d ∈ digitChars.
Proof.
  intros Hd.
  assert (d = 0 ∨ d = 1 ∨ d = 2 ∨ d = 3 ∨ d = 4 ∨ d = 5 ∨ d = 6 ∨ d = 7 ∨ d = 8 ∨ d = 9)%N
    as Hcases by lia.
  repeat (destruct Hcases as [-> | Hcases]; [by apply (bool_decide_unpack _) |]).
  subst. by apply (bool_decide_unpack _).
Qed.

Lemma pretty_N_go_digits (x : N) : ∀ s,
  Forall (λ c, c ∈ digitChars) (list_ascii_of_string s) →
  Forall (λ c, c ∈ digitChars) (list_ascii_of_string (pretty_N_go x s)).
Proof.
  induction (N.lt_wf_0 x) as [x _ IH]. intros s Hs.
  destruct (decide (x = 0%N)) as [-> | Hx].
  - by rewrite pretty_N_go_0.
  - rewrite pretty_N_go_step by lia. apply IH; [apply N.div_lt; lia |].
    cbn [list_ascii_of_string]. constructor; [| done].
    apply pretty_N_char_digit, N.mod_lt. lia.
Qed.

(** The decimal string of a number consists of digits. *)
Lemma toString_digits (n : nat) :
  Forall (λ c, c ∈ digitChars) (list_ascii_of_string (JS.toString n)).
Proof.
  unfold JS.toString, pretty, pretty_nat, pretty, pretty_N.
  case_decide as Hn.
  - repeat constructor.
  - by apply pretty_N_go_digits.
Qed.

(** The characters joined with a space are a spaced listing of them. *)
Lemma join_space_listing : ∀ cs,
  SpacedListing cs (list_ascii_of_string (JS.join " " (map JS.charString cs))).
Proof.
  unfold JS.join.
  induction cs as [|c [|d cs] IH].
  - split; [reflexivity |]. split; [by intros i c' ? | intros i Hi; simpl in Hi; lia].
  - split; [reflexivity |]. split.
    + intros [|i] c' Hc; [by injection Hc as <- | done].
    + intros i Hi. simpl in Hi. lia.
  - destruct IH as (Hlen & Heven & Hodd).
    change (list_ascii_of_string
              (String.concat " " (map JS.charString (c :: d :: cs))))
      with (c :: " "%char ::
            list_ascii_of_string (String.concat " " (map JS.charString (d :: cs)))).
    split; [| split].
    + cbn [length] in *. rewrite Hlen. lia.
    + intros [|i] c' Hc; [by injection Hc as <- |].
      replace (2 * S i)%nat with (S (S (2 * i))) by lia. cbn [lookup list_lookup].
      by apply Heven.
    + intros [|i] Hi; [reflexivity |].
      replace (2 * S i + 1)%nat with (S (S (2 * i + 1))) by lia. cbn [lookup list_lookup].
      apply Hodd. cbn [length] in *. lia.
Qed.

End ValidatorText.

(** C3. [validatePattern] applies four checks in order and stops at the first
    that fails: an absent or empty template gives the EmptyInput message; a
    length other than 10 gives InvalidLength with the actual length, whatever
    the characters are; a character outside the digits and the underscore
    gives InvalidCharacters with the distinct offending characters in order of
    first appearance; a template without underscore gives NoVariableSlots;
    any other template gives null.  What a message carries is read off the
    returned text itself: the text for a wrong length holds, between its
    fixed parts, a string of decimal digits whose value is the length, and
    the text for offending characters holds these characters with one space
    between neighbours; the text tells the failure and what it carries
    apart from every other.  The seven-character template of the
    specification's scenario gives the text for the length 7. *)
Theorem validatePattern_checks (pattern : option string) (options : option GenerationOptions) :
  let len := from_option String.length 0%nat pattern in
  let chars := from_option list_ascii_of_string [] pattern in
  (len = 0%nat → validatePattern pattern options = Some (message EmptyInput)) ∧
  (len ≠ 0%nat → len ≠ 10%nat →
     validatePattern pattern options = Some (message (InvalidLength len)) ∧
     ∃ numeral,
       validatePattern pattern options =
         Some ("طول النمط غير صحيح (" +:+ numeral +:+
               "/10). يجب أن يتكون من 10 خانات بالضبط.") ∧
       Forall (λ c, c ∈ digitChars) (list_ascii_of_string numeral) ∧
       decimalValue numeral = Z.of_nat len) ∧
  (len = 10%nat → (∃ c, c ∈ chars ∧ c ∉ allowedChars) →
     ∃ cs listing,
       DistinctOffending chars cs ∧
       validatePattern pattern options = Some (message (InvalidCharacters cs)) ∧
       validatePattern pattern options =
         Some ("النمط يحتوي على رموز غير مسموحة: [ " +:+ listing +:+
               " ]. يرجى استخدام الأرقام والرمز (_) فقط.") ∧
       SpacedListing cs (list_ascii_of_string listing)) ∧
  (len = 10%nat → (∀ c, c ∈ chars → c ∈ allowedChars) → "_"%char ∉ chars →
     validatePattern pattern options = Some (message NoVariableSlots)) ∧
  (len = 10%nat → (∀ c, c ∈ chars → c ∈ allowedChars) → "_"%char ∈ chars →
     validatePattern pattern options = None) ∧
  (∀ e1 e2, message e1 = message e2 → e1 = e2) ∧
  validatePattern (Some "05_____") options = Some (message (InvalidLength 7)) ∧
  validatePattern (Some "05_____") options =
    Some "طول النمط غير صحيح (7/10). يجب أن يتكون من 10 خانات بالضبط.".
Proof.
  intros len chars.
  split; [| split; [| split; [| split; [| split; [| split; [| split]]]]]];
    [| | | | | apply message_inj | reflexivity | reflexivity].
  - destruct pattern as [[|c s]|]; [reflexivity | discriminate | reflexivity].
  - intros Hne0 Hne10. destruct pattern as [[|c s]|]; try done.
    subst len. cbn [from_option] in *.
    assert (validatePattern (Some (String c s)) options =
            Some (message (InvalidLength (String.length (String c s))))) as Htext.
    { unfold validatePattern.
      by destruct (Nat.eqb_spec (String.length (String c s)) 10) as [Heq | _]. }
    split; [exact Htext |].
    exists (JS.toString (String.length (String c s))).
    split; [exact Htext |]. split; [apply toString_digits | apply decimalValue_toString].
  - intros Hlen (c & Hin & Hbad). destruct pattern as [p|]; [| done].
    subst len chars. cbn [from_option] in *.
    rewrite validatePattern_length_10 by done.
    destruct (matchInvalid p) as [invalidChars|] eqn:Hm.
    + exists (JS.arrayFromSet invalidChars),
        (JS.join " " (map JS.charString (JS.arrayFromSet invalidChars))).
      split; [by apply matchInvalid_Some |].
      split; [reflexivity |]. split; [reflexivity | apply join_space_listing].
    + exfalso. eapply Hbad, matchInvalid_None; done.
  - intros Hlen Hall Hno. destruct pattern as [p|]; [| done].
    subst len chars. cbn [from_option] in *.
    rewrite validatePattern_length_10 by done.
    apply matchInvalid_None in Hall as ->.
    destruct (JS.includes p "_") eqn:Hinc; [| reflexivity].
    by apply includes_elem_of in Hinc.
  - intros Hlen Hall Hyes. destruct pattern as [p|]; [| done].
    subst len chars. cbn [from_option] in *.
    rewrite validatePattern_length_10 by done.
    apply matchInvalid_None in Hall as ->.
    apply includes_elem_of in Hyes. by rewrite Hyes.
Qed.

Lemma validatePattern_checks_witness :
  validatePattern None None = Some (message EmptyInput) ∧
  (validatePattern (Some "05_____a") None = Some (message (InvalidLength 8)) ∧
   ∃ numeral,
     validatePattern (Some "05_____a") None =
       Some ("طول النمط غير صحيح (" +:+ numeral +:+
             "/10). يجب أن يتكون من 10 خانات بالضبط.") ∧
     Forall (λ c, c ∈ digitChars) (list_ascii_of_string numeral) ∧
     decimalValue numeral = 8%Z) ∧
  (∃ cs listing,
     DistinctOffending (list_ascii_of_string "05b_a_b-__") cs ∧
     validatePattern (Some "05b_a_b-__") None = Some (message (InvalidCharacters cs)) ∧
     validatePattern (Some "05b_a_b-__") None =
       Some ("النمط يحتوي على رموز غير مسموحة: [ " +:+ listing +:+
             " ]. يرجى استخدام الأرقام والرمز (_) فقط.") ∧
     SpacedListing cs (list_ascii_of_string listing)) ∧
  validatePattern (Some "0512345678") None = Some (message NoVariableSlots) ∧
  validatePattern (Some "05______1_") None = None ∧
  validatePattern (Some "05_____a") None =
    Some "طول النمط غير صحيح (8/10). يجب أن يتكون من 10 خانات بالضبط." ∧
  validatePattern (Some "05b_a_b-__") None =
    Some "النمط يحتوي على رموز غير مسموحة: [ b a - ]. يرجى استخدام الأرقام والرمز (_) فقط.".
Proof.
  split; [| split; [| split; [| split; [| split; [| split]]]]];
    [| | | | | reflexivity | reflexivity].
  - apply (proj1 (validatePattern_checks None None)). reflexivity.
  - apply (proj1 (proj2 (validatePattern_checks (Some "05_____a") None))); simpl; lia.
  - apply (proj1 (proj2 (proj2 (validatePattern_checks (Some "05b_a_b-__") None)))).
    + reflexivity.
    + exists "b"%char. split; apply (bool_decide_unpack _); by vm_compute.
  - apply (proj1 (proj2 (proj2 (proj2 (validatePattern_checks (Some "0512345678") None))))).
    + reflexivity.
    + apply Forall_forall, (bool_decide_unpack _). by vm_compute.
    + apply (bool_decide_unpack _). by vm_compute.
  - apply (proj1 (proj2 (proj2 (proj2 (proj2
             (validatePattern_checks (Some "05______1_") None)))))).
    + reflexivity.
    + apply Forall_forall, (bool_decide_unpack _). by vm_compute.
    + apply (bool_decide_unpack _). by vm_compute.
Defined.

Section ReIndex.

Variable contactNamePrefix : string.

Lemma reIndexFrom_number contacts : ∀ index,
  map (λ c, (number c, isSaved c)) (reIndexFrom index contactNamePrefix contacts) =
  map (λ c, (number c, isSaved c)) contacts.
Proof.
  induction contacts as [|c contacts IH]; intros index; [reflexivity |].
  cbn [reIndexFrom map number isSaved]. by rewrite IH.
Qed.

Lemma reIndexFrom_id contacts : ∀ index,
  map (λ c, (id c, name c)) (reIndexFrom index contactNamePrefix contacts) =
  map (λ i, (serial i, serial i +:+ " " +:+ contactNamePrefix))
    (seq index (length contacts)).
Proof.
  induction contacts as [|c contacts IH]; intros index; [reflexivity |].
  cbn [reIndexFrom map id name length seq]. by rewrite IH.
Qed.

Lemma reIndex_numbers contacts :
  map number (reIndex contactNamePrefix contacts) = map number contacts.
Proof.
  pose proof (f_equal (map fst) (reIndexFrom_number contacts 0)) as H.
  by rewrite !map_map in H.
Qed.

Lemma reIndex_ids contacts :
  map id (reIndex contactNamePrefix contacts) = map serial (seq 0 (length contacts)).
Proof.
  pose proof (f_equal (map fst) (reIndexFrom_id contacts 0)) as H.
  by rewrite !map_map in H.
Qed.

Lemma reIndex_length contacts : length (reIndex contactNamePrefix contacts) = length contacts.
Proof.
  pose proof (f_equal (@length _) (reIndex_numbers contacts)) as H.
  by rewrite !length_map in H.
Qed.

End ReIndex.

Section StartGeneration.

Variable rand : nat → nat.
Variable now : nat.
Variable form : Form.
Variable generatedContacts : list GeneratedContact.

(** The values the generator returns for the list are not in the list. *)
Lemma newContacts_fresh :
  NoDup (map number (newContactsOf rand form generatedContacts)) ∧
  Forall (λ c, number c ∉ map number generatedContacts)
    (newContactsOf rand form generatedContacts).
Proof.
  unfold newContactsOf.
  destruct (whileLoop_uniqueInv rand (formConfig form) (formOptions form)
              (Some (existingNumbers generatedContacts))) as (_ & Hnd & Hex).
  pose proof (generatePhoneNumbers_Permutation rand (formConfig form) (formOptions form)
                (Some (existingNumbers generatedContacts))) as Hperm.
  split; [by rewrite (Permutation_map number Hperm) |].
  rewrite Hperm. eapply Forall_impl; [exact Hex |].
  intros c Hc Hin. apply Hc. unfold generatedSet0, existingNumbers. simpl.
  by apply elem_of_list_to_set.
Qed.

Lemma sorted_combined_Permutation :
  JS.sort (λ a b, JS.localeCompare (number a) (number b))
    (generatedContacts ++ newContactsOf rand form generatedContacts)
  ≡ₚ generatedContacts ++ newContactsOf rand form generatedContacts.
Proof. apply sort_Permutation. Qed.

Lemma StronglySorted_map {A B} (R : B → B → Prop) (f : A → B) (l : list A) :
  StronglySorted (λ a b, R (f a) (f b)) l → StronglySorted R (map f l).
Proof.
  induction 1 as [|x l Hs IH Hx]; [constructor |].
  simpl. constructor; [exact IH |]. by apply Forall_map.
Qed.

Lemma sort_numbers_sorted (contacts : list GeneratedContact) :
  StronglySorted (λ x y, lexLe (list_ascii_of_string x) (list_ascii_of_string y))
    (map number (JS.sort (λ a b, JS.localeCompare (number a) (number b)) contacts)).
Proof.
  apply (StronglySorted_map
           (λ x y, lexLe (list_ascii_of_string x) (list_ascii_of_string y)) number).
  eapply (StronglySorted_weaken _ _ (λ _, True)); [| by apply Forall_true |].
  - intros a b _ _ H. apply compare_lexLe, H.
  - apply (sort_StronglySorted (λ a b, JS.localeCompare (number a) (number b)));
      [apply localeCompare_antisym | apply localeCompare_trans].
Qed.

Lemma lexLe_string_antisym (s t : string) :
  lexLe (list_ascii_of_string s) (list_ascii_of_string t) →
  lexLe (list_ascii_of_string t) (list_ascii_of_string s) → s = t.
Proof.
  rewrite <- !compare_lexLe. rewrite (String.compare_antisym t s).
  intros Hst Hts. apply String.compare_eq_iff.
  by destruct (String.compare s t).
Qed.

Lemma StronglySorted_filter {A} (R : A → A → Prop) (P : A → Prop)
    `{∀ x, Decision (P x)} (l : list A) :
  StronglySorted R l → StronglySorted R (filter P l).
Proof.
  induction 1 as [|x l Hs IH Hx]; [constructor |].
  rewrite filter_cons. destruct (decide (P x)); [| done].
  constructor; [done |]. apply Forall_forall. intros y [_ Hy]%list_elem_of_filter.
  by apply (proj1 (Forall_forall _ _) Hx).
Qed.

Lemma isNew_spec (newContacts : list GeneratedContact) (c : GeneratedContact) :
  existsb (λ nc, bool_decide (number nc = number c)) newContacts = true ↔
  number c ∈ map number newContacts.
Proof.
  rewrite existsb_exists, list_elem_of_fmap. split.
  - intros (nc & Hin & Heq%bool_decide_eq_true). exists nc. split; [done |].
    by apply list_elem_of_In.
  - intros (nc & Heq & Hin). exists nc. split; [by apply list_elem_of_In |].
    by apply bool_decide_eq_true.
Qed.

(** The outcome of a run whose inputs pass and whose generator call returns
    something. *)
Lemma startGeneration_added (mode : Mode) :
  validateInputs form = None →
  newContactsOf rand form generatedContacts ≠ [] →
  let newContacts := newContactsOf rand form generatedContacts in
  let reIndexed :=
    reIndex (formPrefix form)
      (JS.sort (λ a b, JS.localeCompare (number a) (number b))
         (generatedContacts ++ newContacts)) in
  errorSet (startGeneration rand now form mode generatedContacts) = None ∧
  contactsAfter (startGeneration rand now form mode generatedContacts) =
    match mode with
    | Preview => reIndexed
    | Save => map (λ c, if existsb (λ nc, bool_decide (number nc = number c)) newContacts
                        then withSaved true c else c) reIndexed
    end ∧
  downloaded (startGeneration rand now form mode generatedContacts) =
    match mode with
    | Preview => None
    | Save => Some (generateVCF newContacts,
                    "contacts_" +:+ formPrefix form +:+ "_part_" +:+
                    JS.toString now +:+ ".vcf")
    end.
Proof.
  intros Hvalid Hnew. cbv zeta. unfold startGeneration. rewrite Hvalid.
  fold (formConfig form) (existingNumbers generatedContacts).
  fold (newContactsOf rand form generatedContacts).
  destruct (newContactsOf rand form generatedContacts) as [|c l]; [done |].
  by destruct mode.
Qed.

Lemma startGeneration_failed (mode : Mode) :
  validateInputs form ≠ None ∨ newContactsOf rand form generatedContacts = [] →
  errorSet (startGeneration rand now form mode generatedContacts) ≠ None ∧
  contactsAfter (startGeneration rand now form mode generatedContacts) = generatedContacts ∧
  downloaded (startGeneration rand now form mode generatedContacts) = None ∧
  successSet (startGeneration rand now form mode generatedContacts) = None.
Proof.
  intros H. unfold startGeneration.
  destruct (validateInputs form) as [e|] eqn:Hvalid; [done |].
  destruct H as [H | H]; [done |].
  fold (formConfig form) (existingNumbers generatedContacts).
  fold (newContactsOf rand form generatedContacts). by rewrite H.
Qed.

End StartGeneration.

Section ContactList.

Variable rand : nat → nat.
Variable now : nat.
Variable form : Form.
Variable generatedContacts : list GeneratedContact.

Local Abbreviation newContacts := (newContactsOf rand form generatedContacts).
Local Abbreviation sortedContacts :=
  (JS.sort (λ a b, JS.localeCompare (number a) (number b))
     (generatedContacts ++ newContactsOf rand form generatedContacts)).

Lemma validateInputs_None :
  validateInputs form = None →
  validatePattern (Some (formPattern form)) (formOptions form) = None ∧
  (1 ≤ countNumber form ≤ 10000)%Z.
Proof.
  unfold validateInputs.
  destruct (validatePattern (Some (formPattern form)) (formOptions form)) as [e|]; [done |].
  destruct (Z.leb_spec (countNumber form) 0); [done |].
  destruct (Z.ltb_spec 10000 (countNumber form)); [done |].
  intros _. split; [done | lia].
Qed.

Lemma startGeneration_success (mode : Mode) :
  errorSet (startGeneration rand now form mode generatedContacts) = None →
  validateInputs form = None ∧ newContacts ≠ [].
Proof.
  intros Herr.
  destruct (validateInputs form) as [e|] eqn:Hvalid.
  { by destruct (startGeneration_failed rand now form generatedContacts mode) as [H _];
      [left; rewrite Hvalid |]. }
  split; [done |]. intros Hnil.
  by destruct (startGeneration_failed rand now form generatedContacts mode) as [H _];
    [right |].
Qed.

Lemma startGeneration_numbers (mode : Mode) :
  errorSet (startGeneration rand now form mode generatedContacts) = None →
  map number (contactsAfter (startGeneration rand now form mode generatedContacts)) =
  map number sortedContacts ∧
  map (λ c, (id c, name c))
    (contactsAfter (startGeneration rand now form mode generatedContacts)) =
  map (λ c, (id c, name c)) (reIndex (formPrefix form) sortedContacts).
Proof.
  intros [Hvalid Hnew]%startGeneration_success.
  destruct (startGeneration_added rand now form generatedContacts mode Hvalid Hnew)
    as (_ & -> & _).
  destruct mode.
  - by rewrite reIndex_numbers.
  - rewrite <- (reIndex_numbers (formPrefix form) sortedContacts).
    rewrite !map_map. split; apply map_ext; intros c; by destruct (existsb _ _).
Qed.


Lemma old_not_new (c : GeneratedContact) :
  c ∈ generatedContacts → number c ∉ map number newContacts.
Proof.
  intros Hc (nc & Heq & Hnc)%list_elem_of_fmap.
  destruct (newContacts_fresh rand form generatedContacts) as [_ Hfresh].
  apply (proj1 (Forall_forall _ _) Hfresh nc Hnc).
  rewrite <- Heq. by apply list_elem_of_fmap_2.
Qed.

Lemma startGeneration_pairs (mode : Mode) :
  errorSet (startGeneration rand now form mode generatedContacts) = None →
  map (λ c, (number c, isSaved c))
    (contactsAfter (startGeneration rand now form mode generatedContacts)) ≡ₚ
  map (λ c, (number c, isSaved c)) generatedContacts ++
  map (λ c, (number c, Some match mode with Save => true | Preview => false end))
    newContacts.
Proof.
  intros [Hvalid Hnew]%startGeneration_success.
  destruct (startGeneration_added rand now form generatedContacts mode Hvalid Hnew)
    as (_ & -> & _).
  pose proof (sorted_combined_Permutation rand form generatedContacts) as Hperm.
  destruct mode.
  - unfold reIndex. rewrite reIndexFrom_number.
    rewrite (Permutation_map (λ c, (number c, isSaved c)) Hperm), map_app.
    apply Permutation_app; [done |]. apply Permutation_refl', Forall_fmap_ext_1.
    eapply Forall_impl; [apply generated_name_flag |].
    by intros c [_ ->].
  - set (mark := λ p : string * option bool,
                   if bool_decide (p.1 ∈ map number newContacts)
                   then (p.1, Some true) else p).
    transitivity (map mark (map (λ c, (number c, isSaved c))
                              (reIndex (formPrefix form) sortedContacts))).
    { rewrite !map_map. apply Permutation_refl'. apply map_ext. intros c.
      unfold mark. cbn [fst].
      destruct (existsb _ _) eqn:Hnewc.
      - apply isNew_spec in Hnewc. by rewrite bool_decide_eq_true_2.
      - rewrite bool_decide_eq_false_2; [done |].
        intros Hin%isNew_spec. congruence. }
    unfold reIndex. rewrite reIndexFrom_number.
    transitivity (map mark (map (λ c, (number c, isSaved c))
                              (generatedContacts ++ newContacts))).
    { apply Permutation_map, Permutation_map, Hperm. }
    rewrite !map_app.
    apply Permutation_app; rewrite map_map; apply Permutation_refl'.
    + apply Forall_fmap_ext_1, Forall_forall. intros c Hc.
      unfold mark. cbn [fst]. rewrite bool_decide_eq_false_2; [done |].
      by apply old_not_new.
    + apply Forall_fmap_ext_1, Forall_forall. intros c Hc.
      unfold mark. cbn [fst]. rewrite bool_decide_eq_true_2; [done |].
      by apply list_elem_of_fmap_2.
Qed.

End ContactList.

Section ContactListMore.

Variable rand : nat → nat.
Variable now : nat.
Variable form : Form.
Variable generatedContacts : list GeneratedContact.

Local Abbreviation newContacts := (newContactsOf rand form generatedContacts).

Lemma startGeneration_cases (mode : Mode) :
  errorSet (startGeneration rand now form mode generatedContacts) = None ∨
  (errorSet (startGeneration rand now form mode generatedContacts) ≠ None ∧
   contactsAfter (startGeneration rand now form mode generatedContacts) =
     generatedContacts ∧
   downloaded (startGeneration rand now form mode generatedContacts) = None ∧
   successSet (startGeneration rand now form mode generatedContacts) = None).
Proof.
  destruct (validateInputs form) as [e|] eqn:Hvalid.
  { right. apply startGeneration_failed. left. by rewrite Hvalid. }
  destruct newContacts as [|c l] eqn:Hnew.
  { right. apply startGeneration_failed. by right. }
  left. apply (startGeneration_added rand now form generatedContacts mode Hvalid).
  by rewrite Hnew.
Qed.

Lemma startGeneration_numbers_Permutation (mode : Mode) :
  errorSet (startGeneration rand now form mode generatedContacts) = None →
  map number (contactsAfter (startGeneration rand now form mode generatedContacts)) ≡ₚ
  map number generatedContacts ++ map number newContacts.
Proof.
  intros [-> _]%startGeneration_numbers.
  rewrite <- map_app. apply Permutation_map, sorted_combined_Permutation.
Qed.

Lemma new_numbers_singleLine :
  validateInputs form = None → Forall (λ c, singleLine (number c)) newContacts.
Proof.
  intros [Hpattern _]%validateInputs_None.
  eapply Forall_impl;
    [apply (accepted_template_values rand (formConfig form) (formOptions form)
              (Some (existingNumbers generatedContacts)) Hpattern) |].
  intros c (_ & _ & Hdigits) Hin. unfold singleLine in Hin.
  pose proof (proj1 (Forall_forall _ _) Hdigits _ Hin) as Hd.
  apply (bool_decide_pack _) in Hd. by vm_compute in Hd.
Qed.

End ContactListMore.

(** * The contact list *)



(** X14. A run of [startGeneration] that sets no error changes no saved
    flag of an entry the list already held; the entries it adds are all
    marked saved in [Save] mode and all marked unsaved in [Preview] mode. *)
Theorem startGeneration_saved_flags rand now form mode generatedContacts :
  errorSet (startGeneration rand now form mode generatedContacts) = None →
  map (λ c, (number c, isSaved c))
    (contactsAfter (startGeneration rand now form mode generatedContacts)) ≡ₚ
  map (λ c, (number c, isSaved c)) generatedContacts ++
  map (λ c, (number c, Some match mode with Save => true | Preview => false end))
    (newContactsOf rand form generatedContacts).
Proof. apply startGeneration_pairs. Qed.

Lemma startGeneration_saved_flags_witness :
  let form := {| formPattern := "05______1_"; formCount := Some 3%Z; formPrefix := "T";
                 showAdvanced := false; formDensity := 0.3 |} in
  let generatedContacts :=
    [ {| id := "0001"; number := "0565358917"; name := "0001 T"; isSaved := Some true |};
      {| id := "0002"; number := "0570000010"; name := "0002 T"; isSaved := None |} ] in
  map (λ c, (number c, isSaved c))
    (contactsAfter (startGeneration sampleSource 5 form Preview generatedContacts)) ≡ₚ
  [ ("0565358917", Some true); ("0570000010", None) ] ++
  map (λ c, (number c, Some false)) (newContactsOf sampleSource form generatedContacts).
Proof.
  intros form generatedContacts.
  apply (startGeneration_saved_flags sampleSource 5 form Preview generatedContacts).
  by vm_compute.
Defined.

(** X15. Whatever the form holds and whether or not the run succeeds,
    [startGeneration] drops no number from the list, and a list without a
    repeated number is still without one afterwards. *)
Theorem startGeneration_keeps_numbers rand now form mode generatedContacts :
  let after := contactsAfter (startGeneration rand now form mode generatedContacts) in
  (∀ n, n ∈ map number generatedContacts → n ∈ map number after) ∧
  (NoDup (map number generatedContacts) → NoDup (map number after)).
Proof.
  intros after.
  destruct (startGeneration_cases rand now form generatedContacts mode)
    as [Herr | (_ & Hsame & _)]; [| subst after; by rewrite Hsame].
  pose proof (startGeneration_numbers_Permutation rand now form generatedContacts mode Herr)
    as Hperm.
  fold after in Hperm. split.
  - intros n Hn. rewrite Hperm. apply elem_of_app. by left.
  - intros Hnd. rewrite Hperm. apply NoDup_app.
    destruct (newContacts_fresh rand form generatedContacts) as [Hnew Hfresh].
    split; [done | split; [| done]].
    intros n Hold (c & -> & Hc)%list_elem_of_fmap.
    by apply (proj1 (Forall_forall _ _) Hfresh c Hc).
Qed.

Lemma startGeneration_keeps_numbers_witness :
  let form := {| formPattern := "05______1_"; formCount := Some 3%Z; formPrefix := "T";
                 showAdvanced := false; formDensity := 0.3 |} in
  let generatedContacts :=
    [ {| id := "0001"; number := "0565358917"; name := "0001 T"; isSaved := Some true |};
      {| id := "0002"; number := "0570000010"; name := "0002 T"; isSaved := None |} ] in
  "0570000010" ∈
    map number (contactsAfter (startGeneration sampleSource 5 form Save generatedContacts)) ∧
  NoDup (map number
           (contactsAfter (startGeneration sampleSource 5 form Save generatedContacts))).
Proof.
  intros form generatedContacts. split.
  - apply (proj1 (startGeneration_keeps_numbers sampleSource 5 form Save generatedContacts)).
    by apply (bool_decide_unpack _).
  - apply (proj2 (startGeneration_keeps_numbers sampleSource 5 form Save generatedContacts)).
    by apply (bool_decide_unpack _).
Defined.

Section Download.

Variable rand : nat → nat.
Variable now : nat.
Variable form : Form.
Variable generatedContacts : list GeneratedContact.

Local Abbreviation newContacts := (newContactsOf rand form generatedContacts).

Lemma filter_none {A} (P : A → Prop) `{∀ x, Decision (P x)} (l : list A) :
  Forall (λ x, ¬ P x) l → filter P l = [].
Proof.
  induction 1 as [|x l Hx _ IH]; [done |]. by rewrite filter_cons_False.
Qed.

Lemma filter_all {A} (P : A → Prop) `{∀ x, Decision (P x)} (l : list A) :
  Forall P l → filter P l = l.
Proof.
  induction 1 as [|x l Hx _ IH]; [done |]. by rewrite filter_cons_True, IH.
Qed.

(** The entries of the list after a run whose numbers were not in the list
    before are the generator's, in the generator's order. *)
Lemma added_numbers (mode : Mode) :
  errorSet (startGeneration rand now form mode generatedContacts) = None →
  filter (λ n, n ∉ map number generatedContacts)
    (map number (contactsAfter (startGeneration rand now form mode generatedContacts))) =
  map number newContacts.
Proof.
  intros Herr.
  apply (StronglySorted_unique_strong
           (λ x y, lexLe (list_ascii_of_string x) (list_ascii_of_string y))).
  - intros x y _ _. apply lexLe_string_antisym.
  - apply StronglySorted_filter.
    destruct (startGeneration_numbers rand now form generatedContacts mode Herr) as [-> _].
    apply sort_numbers_sorted.
  - apply sort_numbers_sorted.
  - rewrite (startGeneration_numbers_Permutation rand now form generatedContacts mode Herr).
    rewrite filter_app, filter_none, filter_all; [done | |].
    + apply Forall_map.
      destruct (newContacts_fresh rand form generatedContacts) as [_ Hfresh].
      exact Hfresh.
    + apply Forall_forall. intros n Hn Hnot. by apply Hnot.
Qed.

Lemma new_cards :
  validateInputs form = None →
  singleLine (formPrefix form) →
  splitOn "010" (generateVCF newContacts) =
  flat_map (λ n, [ "BEGIN:VCARD"; "VERSION:3.0"; "N:;" +:+ formPrefix form +:+ ";;;";
                   "FN:" +:+ formPrefix form; "TEL;TYPE=CELL:" +:+ n; "END:VCARD" ])
    (map number newContacts) ++ [""].
Proof.
  intros Hvalid Hprefix.
  pose proof (new_numbers_singleLine rand form generatedContacts Hvalid) as Hnumbers.
  pose proof (generated_name_flag rand (formConfig form) (formOptions form)
                (Some (existingNumbers generatedContacts))) as Hnames.
  fold newContacts in Hnames. cbn [contactNamePrefix formConfig] in Hnames.
  rewrite generateVCF_lines.
  assert (flat_map cardLines newContacts =
          flat_map (λ n, [ "BEGIN:VCARD"; "VERSION:3.0"; "N:;" +:+ formPrefix form +:+ ";;;";
                           "FN:" +:+ formPrefix form; "TEL;TYPE=CELL:" +:+ n; "END:VCARD" ])
            (map number newContacts)) as <-.
  { clear Hnumbers. induction Hnames as [|c l [Hname _] _ IH]; [done |].
    cbn [map flat_map]. rewrite <- IH. unfold cardLines. by rewrite Hname. }
  apply splitOn_lines.
  induction Hnumbers as [|c l Hc Hl IH]; [constructor |].
  apply Forall_cons in Hnames as [[Hname _] Hnames].
  cbn [flat_map]. apply Forall_app. split; [| by apply IH].
  apply cardLines_singleLine; [by rewrite Hname | done].
Qed.

End Download.

(** X16. In [Preview] mode, and whenever it sets an error, [startGeneration]
    downloads nothing. A [Save] run that sets no error downloads one file,
    named after the prefix and the time; when the prefix holds no line feed
    the file consists of one card of six lines for each entry the run added
    to the list (the entries whose number the list did not hold before), in
    the order of the list, and the name on each card is the bare prefix,
    not the numbered name the list shows. *)
Theorem startGeneration_download rand now form mode generatedContacts :
  let outcome := startGeneration rand now form mode generatedContacts in
  (mode = Preview ∨ errorSet outcome ≠ None → downloaded outcome = None) ∧
  (mode = Save → errorSet outcome = None → singleLine (formPrefix form) →
   ∃ vcfData,
     downloaded outcome =
       Some (vcfData,
             "contacts_" +:+ formPrefix form +:+ "_part_" +:+ JS.toString now +:+ ".vcf") ∧
     splitOn "010" vcfData =
       flat_map (λ n, [ "BEGIN:VCARD"; "VERSION:3.0"; "N:;" +:+ formPrefix form +:+ ";;;";
                        "FN:" +:+ formPrefix form; "TEL;TYPE=CELL:" +:+ n; "END:VCARD" ])
         (filter (λ n, n ∉ map number generatedContacts)
            (map number (contactsAfter outcome))) ++ [""]).
Proof.
  intros outcome. subst outcome. split.
  - intros Hcase.
    destruct (startGeneration_cases rand now form generatedContacts mode)
      as [Herr | (_ & _ & Hdown & _)]; [| done].
    destruct Hcase as [-> | Hne]; [| done].
    destruct (startGeneration_success rand now form generatedContacts Preview Herr)
      as [Hvalid Hnew].
    by destruct (startGeneration_added rand now form generatedContacts Preview Hvalid Hnew)
      as (_ & _ & ->).
  - intros -> Herr Hprefix.
    destruct (startGeneration_success rand now form generatedContacts Save Herr)
      as [Hvalid Hnew].
    destruct (startGeneration_added rand now form generatedContacts Save Hvalid Hnew)
      as (_ & _ & Hdown).
    exists (generateVCF (newContactsOf rand form generatedContacts)).
    split; [exact Hdown |].
    rewrite (added_numbers rand now form generatedContacts Save Herr).
    by apply new_cards.
Qed.

Lemma startGeneration_download_witness :
  let form := {| formPattern := "05______1_"; formCount := Some 3%Z; formPrefix := "T";
                 showAdvanced := false; formDensity := 0.3 |} in
  let generatedContacts :=
    [ {| id := "0001"; number := "0565358917"; name := "0001 T"; isSaved := Some true |};
      {| id := "0002"; number := "0570000010"; name := "0002 T"; isSaved := None |} ] in
  downloaded (startGeneration sampleSource 5 form Preview generatedContacts) = None ∧
  ∃ vcfData,
    downloaded (startGeneration sampleSource 5 form Save generatedContacts) =
      Some (vcfData, "contacts_T_part_5.vcf") ∧
    splitOn "010" vcfData =
      flat_map (λ n, [ "BEGIN:VCARD"; "VERSION:3.0"; "N:;T;;;"; "FN:T";
                       "TEL;TYPE=CELL:" +:+ n; "END:VCARD" ])
        (filter (λ n, n ∉ map number generatedContacts)
           (map number
              (contactsAfter (startGeneration sampleSource 5 form Save generatedContacts))))
      ++ [""].
Proof.
  intros form generatedContacts. split.
  - apply (proj1 (startGeneration_download sampleSource 5 form Preview generatedContacts)).
    by left.
  - apply (proj2 (startGeneration_download sampleSource 5 form Save generatedContacts)).
    + reflexivity.
    + by vm_compute.
    + by apply (bool_decide_unpack _).
Defined.

Section SavedFlags.

Lemma filter_saved_id (l : list GeneratedContact) :
  Forall (λ c, savedFlag c = true) l → List.filter savedFlag l = l.
Proof.
  induction 1 as [|c l Hc _ IH]; [done |]. cbn [List.filter]. by rewrite Hc, IH.
Qed.

Lemma filter_saved_saved (l : list GeneratedContact) :
  Forall (λ c, savedFlag c = true) (List.filter savedFlag l).
Proof.
  apply Forall_forall. intros c Hc%list_elem_of_In. by apply filter_In in Hc as [_ Hc].
Qed.

Lemma no_unsaved (l : list GeneratedContact) :
  length (List.filter (λ c, negb (savedFlag c)) l) = 0%nat →
  Forall (λ c, savedFlag c = true) l.
Proof.
  induction l as [|c l IH]; [constructor |]. cbn [List.filter].
  destruct (savedFlag c) eqn:Hc; cbn [negb]; [| done].
  intros Hlen. constructor; [done | by apply IH].
Qed.

Lemma reIndexFrom_saved prefix (l : list GeneratedContact) : ∀ index,
  Forall (λ c, savedFlag c = true) l →
  Forall (λ c, savedFlag c = true) (reIndexFrom index prefix l).
Proof.
  induction l as [|c l IH]; intros index Hall; [constructor |].
  apply Forall_cons in Hall as [Hc Hl]. cbn [reIndexFrom].
  constructor; [exact Hc | by apply IH].
Qed.

Lemma savedFlag_Some (c : GeneratedContact) : savedFlag c = true ↔ isSaved c = Some true.
Proof. unfold savedFlag. destruct (isSaved c) as [[|]|]; by split. Qed.

Lemma handleDeleteUnsaved_cases confirmed prefix (l : list GeneratedContact) :
  (handleDeleteUnsaved confirmed prefix l = l ∧
   (confirmed = false ∨ Forall (λ c, savedFlag c = true) l)) ∨
  (handleDeleteUnsaved confirmed prefix l = reIndex prefix (List.filter savedFlag l) ∧
   confirmed = true ∧ ∃ c, c ∈ l ∧ savedFlag c = false).
Proof.
  unfold handleDeleteUnsaved.
  destruct (Nat.eqb_spec (length (List.filter (λ c, negb (savedFlag c)) l)) 0) as [Hnone | Hsome].
  { left. split; [done |]. right. by apply no_unsaved. }
  destruct confirmed; [| left; by split; [| left]].
  right. split; [done | split; [done |]].
  destruct (List.filter (λ c, negb (savedFlag c)) l) as [|c rest] eqn:Hfilter; [done |].
  assert (In c (List.filter (λ c, negb (savedFlag c)) l)) as Hc by (rewrite Hfilter; by left).
  apply filter_In in Hc as [Hin Hflag]. exists c. split; [by apply list_elem_of_In |].
  by destruct (savedFlag c).
Qed.

End SavedFlags.

(** X17. [handleDeleteUnsaved] never removes an entry marked saved and
    never changes the number or the flag of one: the saved entries of the
    list are the same before and after, in the same order. When the dialog
    is declined the list is unchanged.  When it is confirmed every entry
    left is marked saved, and if an unsaved entry was there the entries left
    are renumbered from 1 in list order. *)
Theorem handleDeleteUnsaved_keeps_saved confirmed contactNamePrefix generatedContacts :
  let after := handleDeleteUnsaved confirmed contactNamePrefix generatedContacts in
  map (λ c, (number c, isSaved c)) (List.filter savedFlag after) =
    map (λ c, (number c, isSaved c)) (List.filter savedFlag generatedContacts) ∧
  (confirmed = false → after = generatedContacts) ∧
  (confirmed = true →
   Forall (λ c, isSaved c = Some true) after ∧
   map number after = map number (List.filter savedFlag generatedContacts) ∧
   ((∃ c, c ∈ generatedContacts ∧ savedFlag c = false) →
    map (λ c, (id c, name c)) after =
    map (λ i, (serial i, serial i +:+ " " +:+ contactNamePrefix))
      (seq 0 (length after)))).
Proof.
  intros after. subst after.
  destruct (handleDeleteUnsaved_cases confirmed contactNamePrefix generatedContacts)
    as [[-> Hcase] | (-> & -> & c & Hc & Hflag)].
  - split; [done |]. split; [done |]. intros ->.
    destruct Hcase as [? | Hall]; [done |].
    split; [| split].
    + eapply Forall_impl; [exact Hall |]. intros c. apply savedFlag_Some.
    + by rewrite filter_saved_id.
    + intros (c & Hc & Hflag). exfalso.
      pose proof (proj1 (Forall_forall _ _) Hall c Hc). congruence.
  - pose proof (filter_saved_saved generatedContacts) as Hall.
    split; [| split; [done |]; intros _; split; [| split]].
    + rewrite filter_saved_id; [| by apply reIndexFrom_saved].
      unfold reIndex. by rewrite reIndexFrom_number.
    + eapply Forall_impl; [apply reIndexFrom_saved, Hall |].
      intros c'. apply savedFlag_Some.
    + apply reIndex_numbers.
    + intros _. unfold reIndex. by rewrite reIndexFrom_id, reIndex_length.
Qed.

Lemma handleDeleteUnsaved_keeps_saved_witness :
  let generatedContacts :=
    [ {| id := "0001"; number := "0526438312"; name := "0001 T"; isSaved := Some false |};
      {| id := "0002"; number := "0565358917"; name := "0002 T"; isSaved := Some true |};
      {| id := "0003"; number := "0570000010"; name := "0003 T"; isSaved := None |};
      {| id := "0004"; number := "0593238416"; name := "0004 T"; isSaved := Some true |} ] in
  handleDeleteUnsaved false "T" generatedContacts = generatedContacts ∧
  Forall (λ c, isSaved c = Some true) (handleDeleteUnsaved true "T" generatedContacts) ∧
  map number (handleDeleteUnsaved true "T" generatedContacts) =
    ["0565358917"; "0593238416"] ∧
  map (λ c, (id c, name c)) (handleDeleteUnsaved true "T" generatedContacts) =
    [("0001", "0001 T"); ("0002", "0002 T")].
Proof.
  intros generatedContacts.
  pose proof (handleDeleteUnsaved_keeps_saved false "T" generatedContacts) as (_ & Hno & _).
  pose proof (handleDeleteUnsaved_keeps_saved true "T" generatedContacts) as (_ & _ & Hyes).
  split; [by apply Hno |].
  destruct (Hyes eq_refl) as (Hall & Hnumbers & Hids).
  split; [exact Hall |]. split; [exact Hnumbers |].
  apply Hids. exists {| id := "0003"; number := "0570000010"; name := "0003 T"; isSaved := None |}.
  split; [| reflexivity]. apply list_elem_of_In. simpl. auto.
Defined.

(** X18. Deleting the unsaved entries right after [saveCurrentList] removes
    nothing, with any prefix and either answer to the dialog, and
    [saveCurrentList] itself keeps every entry with its identifier, number
    and name; deleting the unsaved entries after a confirmed
    [handleResetSavedStatus] empties the list. *)
Theorem delete_after_save_or_reset now contactNamePrefix otherPrefix confirmed
    generatedContacts :
  let saved := contactsAfter (saveCurrentList now contactNamePrefix generatedContacts) in
  handleDeleteUnsaved confirmed otherPrefix saved = saved ∧
  map (λ c, (id c, number c, name c)) saved =
    map (λ c, (id c, number c, name c)) generatedContacts ∧
  handleDeleteUnsaved true otherPrefix (handleResetSavedStatus true generatedContacts) = [].
Proof.
  intros saved.
  assert (saved = map (withSaved true) generatedContacts) as ->.
  { subst saved. unfold saveCurrentList. by destruct generatedContacts. }
  split; [| split].
  - destruct (handleDeleteUnsaved_cases confirmed otherPrefix
                (map (withSaved true) generatedContacts))
      as [[-> _] | (_ & _ & c & Hc & Hflag)]; [done |].
    by apply list_elem_of_fmap in Hc as (c' & -> & _).
  - rewrite map_map. by apply map_ext.
  - destruct generatedContacts as [|c l]; [reflexivity |].
    unfold handleResetSavedStatus. cbn [length Nat.eqb].
    destruct (handleDeleteUnsaved_cases true otherPrefix (map (withSaved false) (c :: l)))
      as [[_ [? | Hall]] | (-> & _)]; [done | |].
    + by apply Forall_cons in Hall as [? _].
    + assert (List.filter savedFlag (map (withSaved false) (c :: l)) = []) as ->;
        [| reflexivity].
      generalize (c :: l). intros l'. induction l' as [|c' l' IH]; [done |].
      cbn [map List.filter]. exact IH.
Qed.

(** X19. After a run of [startGeneration] that sets no error no two entries
    of the list share an identifier, however long the list is: the
    identifier at position [i] is a decimal numeral of at least four
    characters whose value is [i + 1]. *)
Theorem startGeneration_ids_distinct rand now form mode generatedContacts :
  errorSet (startGeneration rand now form mode generatedContacts) = None →
  let after := contactsAfter (startGeneration rand now form mode generatedContacts) in
  NoDup (map id after) ∧
  ∀ i c, after !! i = Some c →
    decimalValue (id c) = (Z.of_nat i + 1)%Z ∧ (4 ≤ String.length (id c))%nat.
Proof.
  intros Herr after.
  pose proof (startGeneration_numbers rand now form generatedContacts mode Herr)
    as [Hnumbers Hids].
  assert (map id after = map serial (seq 0 (length after))) as Hserial.
  { subst after. transitivity (map fst (map (λ c, (id c, name c)) (contactsAfter
      (startGeneration rand now form mode generatedContacts)))).
    { by rewrite map_map. }
    rewrite Hids, map_map. cbn [fst].
    change (map (λ c, id c) ?l) with (map id l). rewrite reIndex_ids.
    by rewrite <- (length_map number (contactsAfter _)), Hnumbers, length_map. }
  split.
  - rewrite Hserial. apply NoDup_fmap_2; [| apply NoDup_seq].
    intros i j. apply serial_inj.
  - intros i c Hc.
    assert (map id after !! i = Some (id c)) as Hid by (by rewrite list_lookup_fmap, Hc).
    rewrite Hserial, list_lookup_fmap in Hid.
    apply lookup_lt_Some in Hc as Hlt.
    rewrite lookup_seq_lt in Hid by done. injection Hid as <-.
    split; [rewrite decimalValue_serial; lia |].
    unfold serial, padStart.
    assert (∀ a b, String.length (a +:+ b) = (String.length a + String.length b)%nat) as Happ.
    { intros a b. induction a as [|x a IH]; [done |].
      rewrite string_app_cons. cbn [String.length Nat.add]. by rewrite IH. }
    rewrite Happ, length_string_of_list_ascii, length_replicate. lia.
Qed.

Lemma startGeneration_ids_distinct_witness :
  let form := {| formPattern := "05______1_"; formCount := Some 3%Z; formPrefix := "T";
                 showAdvanced := false; formDensity := 0.3 |} in
  let generatedContacts :=
    [ {| id := "7"; number := "0565358917"; name := "0001 T"; isSaved := Some true |};
      {| id := "7"; number := "0570000010"; name := "0002 T"; isSaved := None |} ] in
  let after := contactsAfter (startGeneration sampleSource 5 form Save generatedContacts) in
  NoDup (map id after) ∧
  ∀ i c, after !! i = Some c →
    decimalValue (id c) = (Z.of_nat i + 1)%Z ∧ (4 ≤ String.length (id c))%nat.
Proof.
  intros form generatedContacts.
  apply (startGeneration_ids_distinct sampleSource 5 form Save generatedContacts).
  by vm_compute.
Defined.

Section Clipboard.

Lemma splitOn_single (line : string) : singleLine line → splitOn "010" line = [line].
Proof.
  unfold singleLine. induction line as [|c line IH]; intros Hline; [reflexivity |].
  simpl in Hline. apply not_elem_of_cons in Hline as [Hc Hline].
  cbn [splitOn]. destruct (Ascii.eqb_spec c "010") as [-> | _]; [done |].
  by rewrite IH.
Qed.

Lemma splitOn_join (lines : list string) :
  lines ≠ [] → Forall singleLine lines → splitOn "010" (JS.join newline lines) = lines.
Proof.
  intros Hne Hall. induction Hall as [|line lines Hline Hlines IH]; [done |].
  destruct lines as [|next lines].
  - by apply splitOn_single.
  - change (JS.join newline (line :: next :: lines))
      with (line +:+ newline +:+ JS.join newline (next :: lines)).
    rewrite splitOn_line by done. by rewrite IH.
Qed.

End Clipboard.

(** X20. [copyAllNumbers] puts nothing on the clipboard exactly when the
    list is empty; otherwise, when no number holds a line feed, splitting
    the copied text at the line feeds gives back the numbers of the list in
    order: the text has one number per line and no trailing line feed. *)
Theorem copyAllNumbers_round_trip generatedContacts :
  (copyAllNumbers generatedContacts = None ↔ generatedContacts = []) ∧
  (∀ text, copyAllNumbers generatedContacts = Some text →
     Forall (λ c, singleLine (number c)) generatedContacts →
     splitOn "010" text = map number generatedContacts).
Proof.
  unfold copyAllNumbers. destruct generatedContacts as [|c l]; [by split |].
  cbn [length Nat.eqb]. split; [by split |].
  intros text [= <-] Hall.
  apply (splitOn_join (map number (c :: l))); [done |]. by apply Forall_map.
Qed.

Lemma copyAllNumbers_round_trip_witness :
  let generatedContacts :=
    [ {| id := "0001"; number := "0531415912"; name := "0001 T"; isSaved := None |};
      {| id := "0002"; number := "0565358917"; name := "0002 T"; isSaved := Some true |} ] in
  copyAllNumbers generatedContacts =
    Some ("0531415912" +:+ newline +:+ "0565358917") ∧
  splitOn "010" ("0531415912" +:+ newline +:+ "0565358917") =
    ["0531415912"; "0565358917"].
Proof.
  intros generatedContacts. split; [reflexivity |].
  apply (proj2 (copyAllNumbers_round_trip generatedContacts)); [reflexivity |].
  repeat constructor; by apply (bool_decide_unpack _).
Defined.

(** X21. [saveCurrentList] does nothing on an empty list.  On a list that
    is not empty it downloads one file, named after the prefix and the
    time, and leaves every entry marked saved; when no name and no number
    holds a line feed, the phone lines of the file are the numbers of the
    whole list in order, and the name on each card is the name the entry
    has in the list. *)
Theorem saveCurrentList_file now contactNamePrefix generatedContacts :
  let outcome := saveCurrentList now contactNamePrefix generatedContacts in
  (generatedContacts = [] → contactsAfter outcome = [] ∧ downloaded outcome = None) ∧
  Forall (λ c, isSaved c = Some true) (contactsAfter outcome) ∧
  (generatedContacts ≠ [] →
   Forall (λ c, singleLine (name c) ∧ singleLine (number c)) generatedContacts →
   ∃ vcfData,
     downloaded outcome =
       Some (vcfData,
             "contacts_" +:+ contactNamePrefix +:+ "_full_" +:+ JS.toString now +:+ ".vcf") ∧
     splitOn "010" vcfData = flat_map cardLines (contactsAfter outcome) ++ [""] ∧
     telNumbers vcfData = map number (contactsAfter outcome)).
Proof.
  intros outcome. subst outcome. unfold saveCurrentList.
  destruct generatedContacts as [|c l]; [by repeat split |].
  cbn [length Nat.eqb contactsAfter downloaded].
  split; [done |]. split.
  { by apply Forall_map, Forall_true. }
  intros _ Hall. exists (generateVCF (c :: l)). split; [done |].
  assert (flat_map cardLines (map (withSaved true) (c :: l)) = flat_map cardLines (c :: l))
    as ->.
  { generalize (c :: l). intros l'. induction l' as [|c' l' IH]; [done |].
    cbn [map flat_map]. by rewrite IH. }
  assert (splitOn "010" (generateVCF (c :: l)) = flat_map cardLines (c :: l) ++ [""])
    as Hlines.
  { rewrite generateVCF_lines. apply splitOn_lines.
    induction Hall as [|c' l' [Hname Hnumber] _ IH]; [constructor |].
    cbn [flat_map]. apply Forall_app. split; [by apply cardLines_singleLine | exact IH]. }
  split; [exact Hlines |].
  unfold telNumbers. rewrite Hlines, telNumbers_cards, map_map. by apply map_ext.
Qed.

Lemma saveCurrentList_file_witness :
  let generatedContacts :=
    [ {| id := "0001"; number := "0531415912"; name := "0001 T"; isSaved := None |};
      {| id := "0002"; number := "0565358917"; name := "0002 T"; isSaved := Some false |} ] in
  (contactsAfter (saveCurrentList 5 "T" []) = [] ∧
   downloaded (saveCurrentList 5 "T" []) = None) ∧
  ∃ vcfData,
    downloaded (saveCurrentList 5 "T" generatedContacts) =
      Some (vcfData, "contacts_T_full_5.vcf") ∧
    splitOn "010" vcfData =
      flat_map cardLines (contactsAfter (saveCurrentList 5 "T" generatedContacts)) ++ [""] ∧
    telNumbers vcfData = ["0531415912"; "0565358917"].
Proof.
  intros generatedContacts. split.
  - by apply (proj1 (saveCurrentList_file 5 "T" [])).
  - apply (proj2 (proj2 (saveCurrentList_file 5 "T" generatedContacts))); [done |].
    repeat constructor; by apply (bool_decide_unpack _).
Defined.

(** X22. The generator counts the numbers of the list by their amount, not
    by whether they fit the pattern: once the list holds [10^k] distinct
    numbers or more, a run of [startGeneration] with an accepted form whose
    pattern has [k] wildcards adds nothing, whatever those numbers are; it
    sets an error, leaves the list as it is and downloads nothing. *)
Theorem startGeneration_blocked_by_list_size rand now form mode generatedContacts :
  validateInputs form = None →
  NoDup (map number generatedContacts) →
  (10 ^ Z.of_nat (numUnknowns (formConfig form)) ≤ Z.of_nat (length generatedContacts))%Z →
  let outcome := startGeneration rand now form mode generatedContacts in
  errorSet outcome ≠ None ∧ contactsAfter outcome = generatedContacts ∧
  downloaded outcome = None.
Proof.
  intros Hvalid Hnd Hsize outcome. subst outcome.
  assert (newContactsOf rand form generatedContacts = []) as Hnone.
  { pose proof (results_within_target rand (formConfig form) (formOptions form)
                  (Some (existingNumbers generatedContacts))) as Hle.
    change (default (∅ : gset string) (Some (existingNumbers generatedContacts)))
      with (existingNumbers generatedContacts) in Hle.
    unfold existingNumbers in Hle at 2. rewrite size_list_to_set in Hle by done.
    rewrite length_map in Hle. unfold newContactsOf.
    destruct (generatePhoneNumbers _ _ _ _); [reflexivity | simpl in Hle; lia]. }
  destruct (startGeneration_failed rand now form generatedContacts mode)
    as (Herr & Hsame & Hdown & _); [by right | done].
Qed.

Lemma startGeneration_blocked_by_list_size_witness :
  let form := {| formPattern := "051234567_"; formCount := Some 5%Z; formPrefix := "T";
                 showAdvanced := false; formDensity := 0.3 |} in
  let generatedContacts :=
    map (λ s, {| id := s; number := s; name := s; isSaved := None |}) foreignValues in
  Forall (λ s, inValueSpace (formConfig form) s = false) (map number generatedContacts) ∧
  errorSet (startGeneration sampleSource 5 form Preview generatedContacts) ≠ None ∧
  contactsAfter (startGeneration sampleSource 5 form Preview generatedContacts) =
    generatedContacts ∧
  downloaded (startGeneration sampleSource 5 form Preview generatedContacts) = None.
Proof.
  intros form generatedContacts. split; [repeat constructor |].
  apply (startGeneration_blocked_by_list_size sampleSource 5 form Preview generatedContacts).
  - reflexivity.
  - by apply (bool_decide_unpack _).
  - by vm_compute.
Defined.

(** * Sessions *)

Section Sessions.

(** What every list of a session satisfies: no number twice, the numbers in
    ascending order of their characters, the identifiers counting from 1. *)
Local Abbreviation listInv l :=
  (NoDup (map number l) ∧
   StronglySorted (λ x y, lexLe (list_ascii_of_string x) (list_ascii_of_string y))
     (map number l) ∧
   map id l = map serial (seq 0 (length l))).





End Sessions.

